(** * cps::future — a shallow embedding of [include/cps/future.h]

    The header defines a single-assignment future with attached
    continuations, the chaining operator [then] and the aggregation
    combinators [needs_all] / [needs_any].

    Futures live behind [std::shared_ptr]; several lambdas capture the
    same pointer and mutate the same object.  The embedding therefore keeps
    an explicit store: a future handle is an index into the list of
    futures of the store, the shared [std::atomic<int>] counters of
    [needs_all] are indices into a list of counters.  The lambdas the
    header stores in [tasks_] are defunctionalised: one constructor per
    lambda body of the header, carrying what the lambda captures.

    Exceptions are part of the observable behaviour ([then] catches some of
    them, [value()] and [failure()] throw), so every operation runs in a
    state-and-exception monad.  Continuations call back into the futures
    (a continuation of one future resolves another one), so the
    interpreter of tasks is indexed by a recursion budget. *)

From Stdlib Require Import ZArith String List Lia Permutation.
From stdpp Require Import base list.

Local Open Scope Z_scope.
Local Open Scope string_scope.
Local Open Scope list_scope.
Local Open Scope nat_scope.

(** ** Data model *)

(** [std::shared_ptr<future<T>>] and [std::shared_ptr<std::atomic<int>>]. *)
Abbreviation fid := nat (only parsing).
Abbreviation cid := nat (only parsing).

(** [enum class state { pending, done, failed, cancelled }] *)
Module state.
Inductive t := pending | done | failed | cancelled.

Definition eqb (a b : t) : bool :=
  match a, b with
  | pending, pending | done, done | failed, failed | cancelled, cancelled => true
  | _, _ => false
  end.

End state.

(** A C string: [what()] returns a pointer to characters that end at the
    first NUL, and a [std::string] built from such a pointer holds the
    characters before that NUL. *)
Fixpoint c_str (s : string) : string :=
  match s with
  | EmptyString => EmptyString
  | String c rest =>
      if Ascii.eqb c Ascii.zero then EmptyString else String c (c_str rest)
  end.

(** Whether a string holds a NUL. *)
Fixpoint has_nul (s : string) : bool :=
  match s with
  | EmptyString => false
  | String c rest => Ascii.eqb c Ascii.zero || has_nul rest
  end.

(** A [std::exception] object, seen through [what()]. *)
Record std_exception := { what : string }.

(** The result of dereferencing a smart pointer. *)
Inductive deref (A : Type) :=
| Pointee (a : A)
| NullDereference.
Arguments Pointee {A} a.
Arguments NullDereference {A}.

(** [class future_exception]: the constructor initialises [ex_()] (empty),
    [component_(component)] and [reason_(e->what())]. *)
Module future_exception.
Record t := {
  ex_ : option std_exception;
  component_ : string;
  reason_ : string
}.

Definition make (e : std_exception) (component : string) : t :=
  {| ex_ := None; component_ := component; reason_ := what e |}.

(** [std::exception &ex() const { return *ex_; }] *)
Definition ex (fe : t) : deref std_exception :=
  match ex_ fe with
  | Some e => Pointee e
  | None => NullDereference
  end.

(** [const std::string &reason() const { return reason_; }] *)
Definition reason (fe : t) : string := reason_ fe.
End future_exception.

(** What a [throw] can carry, as far as the [catch] clauses of the header
    tell them apart: [std::runtime_error] (and the classes derived from it,
    such as [fail_exception]), a [future_exception], or anything else
    (a [std::logic_error], say). *)
Inductive exn :=
| runtime_error (msg : string)
| thrown_failure (fe : future_exception.t)
| other_exception (msg : string).

(** [fail_exception] derives from [std::runtime_error], which is built
    from a [std::string] and gives it out through [what()], as a C string:
    a message with a NUL inside is seen up to that NUL. *)
Definition fail_exception (msg : string) : std_exception := {| what := c_str msg |}.

(** Code supplied by the caller.  A continuation is observed through the
    trace of the store: it records its [tag] and the argument it was called
    with, and then returns or throws. *)
Record user_code := { tag : nat; raises : option exn }.

(** The callbacks given to [then] return a future or throw. *)
Inductive callback_result :=
| returns (g : fid)
| throws (e : exn).

(** [std::function<void(T)>]: caller code, or [[f](inner_type v) { f->done(v); }]. *)
Inductive value_code :=
| value_user (u : user_code)
| forward_done (f : fid).

(** [std::function<void(std::string)>]: caller code, or
    [[f](const std::string &msg) { f->fail(msg); }]. *)
Inductive reason_code :=
| reason_user (u : user_code)
| forward_fail (f : fid).

(** [std::function<void()>]: caller code, [[f]() { f->fail("cancelled"); }]
    or [[inner]() { inner->cancel(); }]. *)
Inductive cancel_code :=
| cancel_user (u : user_code)
| forward_cancelled (f : fid)
| cancel_inner (inner : fid).

(** [std::function<void(future<T> &)>], the element type of [tasks_]. *)
Inductive task :=
| ready_code (u : user_code)                  (* caller code given to on_ready *)
| on_done_lambda (code : value_code)          (* if(f.is_done()) code(f.value()) *)
| on_fail_lambda (u : user_code)              (* if(f.is_failed()) code(f.failure()) *)
| on_fail_reason_lambda (code : reason_code)  (* if(f.is_failed()) code(f.failure_reason()) *)
| on_cancel_lambda (u : user_code)            (* if(f.is_cancelled()) code(f) *)
| on_cancel_void_lambda (code : cancel_code)  (* if(f.is_cancelled()) code() *)
| then_lambda (f : fid) (ok : Z -> callback_result)
              (err : option (string -> callback_result))
| needs_first_lambda (f : fid)                (* needs_all(first), needs_any(vector), needs_any(first, rest...) *)
| needs_count_lambda (f : fid) (pending : cid). (* needs_all(vector), needs_all(first, rest...) *)

(** [class future<T>], with [T] read as an integer type. *)
Record future := {
  state_ : state.t;
  tasks_ : list task;
  ex_ : option future_exception.t;
  label_ : string;
  created_ : nat;
  resolved_ : nat;
  value_ : Z
}.

(** What caller code has seen. *)
Inductive observation :=
| saw_future (id : fid) (s : state.t)
| saw_value (v : Z)
| saw_failure (fe : future_exception.t)
| saw_reason (msg : string)
| saw_call.

(** The store: the futures and counters behind the shared pointers, the
    number of readings of [high_resolution_clock::now()] taken so far and
    the trace left by the caller's continuations. *)
Record heap := {
  futures : list future;
  counters : list Z;
  clock : nat;
  log : list (nat * observation)
}.

Definition empty_heap : heap :=
  {| futures := []; counters := []; clock := 0; log := [] |}.

(** ** The monad of the operations *)

Inductive outcome (A : Type) :=
| Normal (a : A) (h : heap)
| Throws (e : exn) (h : heap)
| OutOfFuel
| Undefined.
Arguments Normal {A} a h.
Arguments Throws {A} e h.
Arguments OutOfFuel {A}.
Arguments Undefined {A}.

Definition M (A : Type) := heap -> outcome A.

Definition ret {A} (a : A) : M A := fun h => Normal a h.

Definition bind {A B} (m : M A) (k : A -> M B) : M B :=
  fun h =>
    match m h with
    | Normal a h' => k a h'
    | Throws e h' => Throws e h'
    | OutOfFuel => OutOfFuel
    | Undefined => Undefined
    end.

Definition throw {A} (e : exn) : M A := fun h => Throws e h.

Definition undefined {A} : M A := fun _ => Undefined.

(** [try { m } catch ...]: [handler e = None] when no clause matches [e]. *)
Definition try_catch {A} (m : M A) (handler : exn -> option (M A)) : M A :=
  fun h =>
    match m h with
    | Throws e h' =>
        match handler e with
        | Some k => k h'
        | None => Throws e h'
        end
    | o => o
    end.

Declare Scope cps_scope.
Delimit Scope cps_scope with cps.
Notation "x <- m ;; k" := (bind m (fun x => k))
  (at level 100, m at next level, right associativity) : cps_scope.
Notation "m ;;; k" := (bind m (fun _ => k))
  (at level 100, right associativity) : cps_scope.
Local Open Scope cps_scope.

(** The store after one elementary change. *)
Definition set_future (id : fid) (f : future) (h : heap) : heap :=
  {| futures := <[id := f]> (futures h); counters := counters h;
     clock := clock h; log := log h |}.

Definition add_future (f : future) (h : heap) : heap :=
  {| futures := futures h ++ [f]; counters := counters h;
     clock := clock h; log := log h |}.

Definition set_counter (c : cid) (z : Z) (h : heap) : heap :=
  {| futures := futures h; counters := <[c := z]> (counters h);
     clock := clock h; log := log h |}.

Definition add_counter (z : Z) (h : heap) : heap :=
  {| futures := futures h; counters := counters h ++ [z];
     clock := clock h; log := log h |}.

Definition tick (h : heap) : heap :=
  {| futures := futures h; counters := counters h;
     clock := S (clock h); log := log h |}.

Definition logged (n : nat) (o : observation) (h : heap) : heap :=
  {| futures := futures h; counters := counters h;
     clock := clock h; log := log h ++ [(n, o)] |}.

(** Reading and writing through a shared pointer. *)
Definition get_future (id : fid) : M future :=
  fun h =>
    match futures h !! id with
    | Some f => Normal f h
    | None => Undefined
    end.

Definition put_future (id : fid) (f : future) : M unit :=
  fun h => Normal tt (set_future id f h).

(** [std::chrono::high_resolution_clock::now()].  A time stamp of the
    model is the number of the reading that was taken: the store counts
    the readings of the clock and a future records which readings it
    holds.  Nothing is assumed about the times the clock gives, which need
    not increase. *)
Definition now : M nat :=
  fun h => Normal (clock h) (tick h).

Definition write_log (n : nat) (o : observation) : M unit :=
  fun h => Normal tt (logged n o h).

(** [int] arithmetic of the counter. *)
Definition wrap32 (z : Z) : Z :=
  ((z + 2 ^ 31) mod 2 ^ 32 - 2 ^ 31)%Z.

(** [std::make_shared<std::atomic<int>>(n)] *)
Definition new_counter (n : Z) : M cid :=
  fun h => Normal (length (counters h)) (add_counter (wrap32 n) h).

(** The pre-decrement of the counter: it decrements and yields the new value. *)
Definition pre_decrement (c : cid) : M Z :=
  fun h =>
    match counters h !! c with
    | Some z => Normal (wrap32 (z - 1)) (set_counter c (wrap32 (z - 1)) h)
    | None => Undefined
    end.

(** ** The members of [future] that read one object *)

Definition is_ready (f : future) : bool := negb (state.eqb (state_ f) state.pending).
Definition is_done (f : future) : bool := state.eqb (state_ f) state.done.
Definition is_failed (f : future) : bool := state.eqb (state_ f) state.failed.
Definition is_cancelled (f : future) : bool := state.eqb (state_ f) state.cancelled.
Definition is_pending (f : future) : bool := state.eqb (state_ f) state.pending.

(** The result of a [const] member that may throw. *)
Inductive result (A : Type) :=
| Returns (a : A)
| Raises (e : exn)
| UndefinedBehaviour.
Arguments Returns {A} a.
Arguments Raises {A} e.
Arguments UndefinedBehaviour {A}.

(** [T value() const] *)
Definition value (f : future) : result Z :=
  if negb (state.eqb (state_ f) state.done)
  then Raises (runtime_error "future is not complete")
  else Returns (value_ f).

(** [const future_exception &failure() const]: [return *ex_;] *)
Definition failure (f : future) : result future_exception.t :=
  if negb (state.eqb (state_ f) state.failed)
  then Raises (runtime_error "future is not failed")
  else match ex_ f with
       | Some fe => Returns fe
       | None => UndefinedBehaviour
       end.

(** [const std::string &failure_reason() const]: [return ex_->reason();] *)
Definition failure_reason (f : future) : result string :=
  if negb (state.eqb (state_ f) state.failed)
  then Raises (runtime_error "future is not failed")
  else match ex_ f with
       | Some fe => Returns (future_exception.reason fe)
       | None => UndefinedBehaviour
       end.

(** [std::string current_state() const] *)
Definition current_state (f : future) : string :=
  match state_ f with
  | state.pending => "pending"
  | state.failed => "failed"
  | state.cancelled => "cancelled"
  | state.done => "done"
  end.

Definition lift {A} (r : result A) : M A :=
  match r with
  | Returns a => ret a
  | Raises e => throw e
  | UndefinedBehaviour => undefined
  end.

(** The default constructor: [state_(state::pending), label_(label),
    created_(now())]; the other members are default-initialised. *)
Definition new_future (label : string) (t : nat) : future :=
  {| state_ := state.pending; tasks_ := []; ex_ := None; label_ := label;
     created_ := t; resolved_ := 0; value_ := 0%Z |}.

(** [future<T>::create_shared(label)] *)
Definition create_shared (label : string) : M fid :=
  fun h => Normal (length (futures h)) (tick (add_future (new_future label (clock h)) h)).

Definition unlabelled : string := "unlabelled future".

(** The lambdas [done], [fail] and [cancel] hand to [apply_state]. *)
Inductive effect :=
| store_value (v : Z)                                  (* f.value_ = v *)
| store_failure (fe : std_exception) (component : string) (* f.ex_ = new future_exception(fe, component) *)
| no_effect.

Definition run_effect (code : effect) (f : future) : future :=
  match code with
  | store_value v =>
      {| state_ := state_ f; tasks_ := tasks_ f; ex_ := ex_ f; label_ := label_ f;
         created_ := created_ f; resolved_ := resolved_ f; value_ := v |}
  | store_failure fe component =>
      {| state_ := state_ f; tasks_ := tasks_ f;
         ex_ := Some (future_exception.make fe component); label_ := label_ f;
         created_ := created_ f; resolved_ := resolved_ f; value_ := value_ f |}
  | no_effect => f
  end.

(** The critical section of [apply_state]: [code( *this)], the queue moved
    out and cleared, [resolved_ = now()], [state_ = s]. *)
Definition resolved_future (code : effect) (s : state.t) (t : nat) (f : future) : future :=
  let f' := run_effect code f in
  {| state_ := s; tasks_ := []; ex_ := ex_ f'; label_ := label_ f';
     created_ := created_ f'; resolved_ := t; value_ := value_ f' |}.

(** The critical section of [call_when_ready] when the future is pending:
    [tasks_.push_back(code)]. *)
Definition push_back (code : task) (f : future) : future :=
  {| state_ := state_ f; tasks_ := tasks_ f ++ [code]; ex_ := ex_ f; label_ := label_ f;
     created_ := created_ f; resolved_ := resolved_ f; value_ := value_ f |}.

(** Caller code: leaves its mark, then returns or throws. *)
Definition run_user (u : user_code) (o : observation) : M unit :=
  write_log (tag u) o ;;;
  match raises u with
  | Some e => throw e
  | None => ret tt
  end.

Definition call {A} (cb : A -> callback_result) (a : A) : M fid :=
  match cb a with
  | returns g => ret g
  | throws e => throw e
  end.

(** ** The members of [future] that call continuations *)

Section Dispatch.

(** How a stored task is called on a future. *)
Variable invoke : task -> fid -> M unit.

(** [for(auto &v : pending) v( *this);] *)
Fixpoint run_tasks (pending : list task) (self : fid) : M unit :=
  match pending with
  | [] => ret tt
  | v :: rest => invoke v self ;;; run_tasks rest self
  end.

Definition call_when_ready (self : fid) (code : task) : M unit :=
  me <- get_future self ;;
  if is_ready me
  then invoke code self
  else put_future self (push_back code me).

Definition apply_state (self : fid) (code : effect) (s : state.t) : M unit :=
  match s with
  | state.pending => undefined     (* assert(s != state::pending) *)
  | _ =>
      me <- get_future self ;;
      t <- now ;;
      put_future self (resolved_future code s t me) ;;;
      run_tasks (tasks_ (run_effect code me)) self
  end.

Definition on_ready (self : fid) (code : task) : M unit :=
  call_when_ready self code.

Definition on_done (self : fid) (code : value_code) : M unit :=
  call_when_ready self (on_done_lambda code).


Definition on_fail_reason (self : fid) (code : reason_code) : M unit :=
  call_when_ready self (on_fail_reason_lambda code).


Definition on_cancel_void (self : fid) (code : cancel_code) : M unit :=
  call_when_ready self (on_cancel_void_lambda code).

Definition done (self : fid) (v : Z) : M unit :=
  apply_state self (store_value v) state.done.

Definition fail (self : fid) (ex component : string) : M unit :=
  let fe := fail_exception ex in
  apply_state self (store_failure fe component) state.failed.

Definition cancel (self : fid) : M unit :=
  apply_state self no_effect state.cancelled.

Definition unknown : string := "unknown".

Definition run_value_code (code : value_code) (v : Z) : M unit :=
  match code with
  | value_user u => run_user u (saw_value v)
  | forward_done f => done f v
  end.

Definition run_reason_code (code : reason_code) (msg : string) : M unit :=
  match code with
  | reason_user u => run_user u (saw_reason msg)
  | forward_fail f => fail f msg unknown
  end.

Definition run_cancel_code (code : cancel_code) : M unit :=
  match code with
  | cancel_user u => run_user u saw_call
  | forward_cancelled f => fail f "cancelled" unknown
  | cancel_inner inner => cancel inner
  end.

(** The propagation [then] sets up once a callback has returned [inner]. *)
Definition propagate (f inner : fid) : M unit :=
  on_done inner (forward_done f) ;;;
  on_fail_reason inner (forward_fail f) ;;;
  on_cancel_void inner (forward_cancelled f) ;;;
  on_cancel_void f (cancel_inner inner).

(** The two [catch] clauses of [then]; [f->fail(ex.what())] passes the C
    string, which [fail] sees through [fail_exception]. *)
Definition then_handler (f : fid) (e : exn) : option (M unit) :=
  match e with
  | thrown_failure ex => Some (fail f (future_exception.reason ex) unknown)
  | runtime_error msg => Some (fail f msg unknown)
  | other_exception _ => None
  end.

(** The body of every lambda, called on the future [self]. *)
Definition task_body (t : task) (self : fid) : M unit :=
  match t with
  | ready_code u =>
      me <- get_future self ;;
      run_user u (saw_future self (state_ me))
  | on_done_lambda code =>
      me <- get_future self ;;
      if is_done me
      then (v <- lift (value me) ;; run_value_code code v)
      else ret tt
  | on_fail_lambda u =>
      me <- get_future self ;;
      if is_failed me
      then (fe <- lift (failure me) ;; run_user u (saw_failure fe))
      else ret tt
  | on_fail_reason_lambda code =>
      me <- get_future self ;;
      if is_failed me
      then (msg <- lift (failure_reason me) ;; run_reason_code code msg)
      else ret tt
  | on_cancel_lambda u =>
      me <- get_future self ;;
      if is_cancelled me
      then run_user u (saw_future self (state_ me))
      else ret tt
  | on_cancel_void_lambda code =>
      me <- get_future self ;;
      if is_cancelled me
      then run_cancel_code code
      else ret tt
  | then_lambda f ok err =>
      try_catch
        (out <- get_future f ;;
         if is_ready out then ret tt else
         me <- get_future self ;;
         if is_done me then
           v <- lift (value me) ;;
           inner <- call ok v ;;
           propagate f inner
         else if is_failed me then
           match err with
           | Some err =>
               msg <- lift (failure_reason me) ;;
               inner <- call err msg ;;
               propagate f inner
           | None =>
               msg <- lift (failure_reason me) ;;
               fail f msg "chained future"
           end
         else if is_cancelled me then fail f "cancelled" unknown
         else ret tt)
        (then_handler f)
  | needs_first_lambda f =>
      out <- get_future f ;;
      if is_ready out then ret tt else
      me <- get_future self ;;
      if negb (is_done me) then fail f "error" unknown
      else done f 0%Z
  | needs_count_lambda f pending =>
      out <- get_future f ;;
      if is_ready out then ret tt else
      me <- get_future self ;;
      if negb (is_done me) then fail f "error" unknown
      else
        c <- pre_decrement pending ;;
        if (c =? 0)%Z then done f 0%Z else ret tt
  end.

(** [then(ok, err)] *)
Definition then_ (self : fid) (ok : Z -> callback_result)
           (err : option (string -> callback_result)) : M fid :=
  f <- create_shared unlabelled ;;
  call_when_ready self (then_lambda f ok err) ;;;
  ret f.

(** [for(auto &it : first) it->on_ready(code);] *)
Fixpoint register_all (first : list fid) (code : task) : M unit :=
  match first with
  | [] => ret tt
  | it :: rest => on_ready it code ;;; register_all rest code
  end.

(** [needs_all()] *)
Definition needs_all_none : M fid :=
  f <- create_shared unlabelled ;;
  done f 0%Z ;;;
  ret f.

(** [needs_all(std::shared_ptr<future<T>> first)] *)
Definition needs_all_one (first : fid) : M fid :=
  f <- create_shared unlabelled ;;
  on_ready first (needs_first_lambda f) ;;;
  ret f.

(** [needs_all(std::vector<std::shared_ptr<future<T>>> first)] *)
Definition needs_all_vector (first : list fid) : M fid :=
  f <- create_shared unlabelled ;;
  pending <- new_counter (Z.of_nat (length first)) ;;
  register_all first (needs_count_lambda f pending) ;;;
  ret f.

(** [needs_all(first, rest...)]; the argument pack is a list, overload
    resolution picks the body by its length. *)
Fixpoint needs_all (args : list fid) : M fid :=
  match args with
  | [] => needs_all_none
  | first :: rest =>
      match rest with
      | [] => needs_all_one first
      | _ :: _ =>
          remainder <- needs_all rest ;;
          f <- create_shared unlabelled ;;
          pending <- new_counter 2 ;;
          on_ready first (needs_count_lambda f pending) ;;;
          on_ready remainder (needs_count_lambda f pending) ;;;
          ret f
      end
  end.

(** [needs_any()] *)
Definition needs_any_none : M fid :=
  f <- create_shared unlabelled ;;
  fail f "no elements" unknown ;;;
  ret f.

(** [needs_any(std::shared_ptr<future<T>> first)] *)
Definition needs_any_one (first : fid) : M fid :=
  needs_all_one first.

(** [needs_any(std::vector<std::shared_ptr<future<T>>> first)] *)
Definition needs_any_vector (first : list fid) : M fid :=
  f <- create_shared unlabelled ;;
  register_all first (needs_first_lambda f) ;;;
  ret f.

(** [needs_any(first, rest...)] *)
Definition needs_any (args : list fid) : M fid :=
  match args with
  | [] => needs_any_none
  | first :: rest =>
      match rest with
      | [] => needs_any_one first
      | _ :: _ =>
          remainder <- needs_all rest ;;
          f <- create_shared unlabelled ;;
          on_ready first (needs_first_lambda f) ;;;
          on_ready remainder (needs_first_lambda f) ;;;
          ret f
      end
  end.

End Dispatch.

(** Calling a stored task: [fuel] bounds how deep continuations may call
    into further continuations. *)
Fixpoint run_task (fuel : nat) (t : task) (self : fid) : M unit :=
  match fuel with
  | 0 => fun _ => OutOfFuel
  | S n => task_body (run_task n) t self
  end.

(** ** The callers of the resolving members *)

(** One resolving call, as a producer makes it. *)
Inductive resolution :=
| by_done (v : Z)
| by_fail (ex component : string)
| by_cancel.

Definition resolve (invoke : task -> fid -> M unit) (self : fid) (r : resolution) : M unit :=
  match r with
  | by_done v => done invoke self v
  | by_fail ex component => fail invoke self ex component
  | by_cancel => cancel invoke self
  end.

(** The state a resolving call stores. *)
Definition target_state (r : resolution) : state.t :=
  match r with
  | by_done _ => state.done
  | by_fail _ _ => state.failed
  | by_cancel => state.cancelled
  end.

(** The lambda a resolving call hands to [apply_state]. *)
Definition effect_of (r : resolution) : effect :=
  match r with
  | by_done v => store_value v
  | by_fail ex component => store_failure (fail_exception ex) component
  | by_cancel => no_effect
  end.

(** Producers resolving futures one after the other. *)
Fixpoint run_events (invoke : task -> fid -> M unit) (evs : list (fid * resolution)) : M unit :=
  match evs with
  | [] => ret tt
  | (self, r) :: rest => resolve invoke self r ;;; run_events invoke rest
  end.

(** ** Invariants of the store *)

(** A future that left [pending] has an empty queue, and a failed future
    has its failure record. *)
Definition future_ok (f : future) : Prop :=
  (is_ready f = true -> tasks_ f = []) /\
  (state_ f = state.failed -> ex_ f <> None).

Definition heap_ok (h : heap) : Prop := Forall future_ok (futures h).

(** How the store may change: invariants are kept, no future disappears,
    no future goes back to [pending]. *)
Definition grows (h h' : heap) : Prop :=
  (heap_ok h -> heap_ok h') /\
  (forall id f, futures h !! id = Some f ->
     exists f', futures h' !! id = Some f' /\ (is_ready f = true -> is_ready f' = true)).

Definition respects {A} (m : M A) : Prop :=
  forall h,
    match m h with
    | Normal _ h' | Throws _ h' => grows h h'
    | OutOfFuel | Undefined => True
    end.

(** The state a resolving call may store with the lambda it is given:
    [failed] comes with a failure record. *)
Definition effect_fits (code : effect) (s : state.t) : Prop :=
  s <> state.pending /\
  (s = state.failed -> exists fe component, code = store_failure fe component).

(** ** The setting of the aggregation combinators *)

(** The state behind a handle. *)
Definition state_of (h : heap) (i : fid) : state.t :=
  match futures h !! i with
  | Some f => state_ f
  | None => state.pending
  end.

(** A continuation of the caller that returns to the dispatch loop: caller
    code that leaves its mark in the trace, makes no call on a future and
    does not throw.  The lambdas of [then] and of the aggregation
    combinators are not of this kind. *)
Definition returns_normally (t : task) : bool :=
  match t with
  | ready_code u | on_fail_lambda u | on_cancel_lambda u
  | on_done_lambda (value_user u)
  | on_fail_reason_lambda (reason_user u)
  | on_cancel_void_lambda (cancel_user u) =>
      match raises u with None => true | Some _ => false end
  | _ => false
  end.

(** An input of a combinator as the caller hands it over: a future of the
    store, pending with continuations of the caller that return, or
    resolved. *)
Definition plain_input (h : heap) (i : fid) : Prop :=
  exists me, futures h !! i = Some me /\ future_ok me /\
             Forall (fun t => returns_normally t = true) (tasks_ me).

(** Producers resolving inputs that are still pending, each one once. *)
Definition resolves_once (h : heap) (first : list fid) (evs : list (fid * resolution)) : Prop :=
  NoDup (map fst evs) /\
  Forall (fun ev => fst ev ∈ first /\ state_of h (fst ev) = state.pending) evs.

Definition not_done (s : state.t) : bool :=
  state.eqb s state.failed || state.eqb s state.cancelled.

(** What the specification asks of [needs_all]: failed as soon as one input
    is failed or cancelled, done once every input is done. *)
Definition expected_all (inputs : list state.t) : state.t :=
  if existsb not_done inputs then state.failed
  else if forallb (fun s => state.eqb s state.done) inputs then state.done
  else state.pending.



(** The failure record the combinators store. *)
Definition error_record : future_exception.t :=
  future_exception.make (fail_exception "error") unknown.






Definition occurrences (i : fid) (reg : list fid) : nat :=
  length (filter (fun j => j = i) reg).



(** ** The setting of [then] *)

(** The three lambdas [then] registers on the future its callback returned. *)
Definition forwarders (f : fid) : list task :=
  [on_done_lambda (forward_done f);
   on_fail_reason_lambda (forward_fail f);
   on_cancel_void_lambda (forward_cancelled f)].

(** The resolving call the lambdas make on the outer future when the inner
    future [inner] is resolved. *)
Definition forwarded (inner : future) : resolution :=
  match state_ inner with
  | state.done => by_done (value_ inner)
  | state.failed =>
      by_fail (match ex_ inner with
               | Some fe => future_exception.reason fe
               | None => EmptyString
               end) unknown
  | _ => by_fail "cancelled" unknown
  end.

(** What the specification asks of the outer future once the inner future
    was resolved by [r]; a reason is kept as a C string. *)
Definition mirrors (r : resolution) (out : future) : Prop :=
  match r with
  | by_done x => state_ out = state.done /\ value out = Returns x
  | by_fail m _ => state_ out = state.failed /\ failure_reason out = Returns (c_str m)
  | by_cancel => state_ out = state.failed /\ failure_reason out = Returns "cancelled"
  end.

(** The inner future with the three lambdas in its queue. *)
Definition wired (f : fid) (inner : future) : future :=
  push_back (on_cancel_void_lambda (forward_cancelled f))
    (push_back (on_fail_reason_lambda (forward_fail f))
       (push_back (on_done_lambda (forward_done f)) inner)).

(** ** The setting of [needs_any(first, rest...)]

    [needs_any(first, rest...)] builds [needs_all(rest...)], which builds
    [needs_all] of its own tail, down to [needs_all(last)]: a chain of
    futures, each waiting for one argument and for the future below it.
    In a store of [L] futures and [C] counters the chain over the arguments
    [ins] (the last argument first) is numbered from the bottom: node [k]
    is the future [L + k], it waits for the argument [ins !! k] and for
    node [k - 1]; node [length ins] is the result of [needs_any]. *)

Section ChainDefs.

Variables (L C : nat) (ins : list nat).

(** The lambda registered for node [k]. *)
Definition node_cb (k : nat) : task :=
  match k with
  | 0 => needs_first_lambda L
  | S j =>
      if k <? length ins
      then needs_count_lambda (L + k) (C + j)
      else needs_first_lambda (L + k)
  end.

(** The futures node [k] waits for. *)
Definition node_sources (k : nat) : list nat :=
  match ins !! k with Some x => [x] | None => [] end ++
  match k with 0 => [] | S j => [L + j] end.

(** The queue of node [k] while it is pending, [p] nodes being built. *)
Definition node_queue (p k : nat) : list task :=
  if S k <? p then [node_cb (S k)] else [].

Definition done_count (ss : list state.t) : nat :=
  length (filter (fun s => state.eqb s state.done = true) ss).

(** Node [k] is what [needs_all] asks of it, the futures it waits for being
    in the states [view] gives them. *)
Definition node_ok (p : nat) (view : nat -> state.t) (h : heap) (k : nat) : Prop :=
  exists out,
    futures h !! (L + k) = Some out /\
    state_ out = expected_all (map view (node_sources k)) /\
    (state_ out = state.failed -> ex_ out = Some error_record) /\
    tasks_ out = (if is_ready out then [] else node_queue p k) /\
    (forall j, k = S j -> k < length ins ->
       existsb not_done (map view (node_sources k)) = false ->
       counters h !! (C + j) =
         Some (2 - Z.of_nat (done_count (map view (node_sources k))))%Z).

(** The argument [x] of node [k]: while it is pending its queue ends with
    the lambda of the node, once the node is built. *)
Definition input_ok (p : nat) (h : heap) (k x : nat) : Prop :=
  x < L /\
  exists me, futures h !! x = Some me /\ future_ok me /\
    (is_ready me = false ->
     exists q, tasks_ me = q ++ (if k <? p then [node_cb k] else []) /\
               Forall (fun t => returns_normally t = true) q).

Definition chain_inv (p : nat) (view : nat -> state.t) (h : heap) : Prop :=
  (forall k, k < p -> node_ok p view h k) /\
  (forall k x, ins !! k = Some x -> input_ok p h k x).

End ChainDefs.

(** The states as a lambda sees them that has not been called yet on [src]:
    for it [src] is still pending. *)
Definition hide (src : nat) (view : nat -> state.t) : nat -> state.t :=
  fun i => if Nat.eqb i src then state.pending else view i.

(** What the lambda of a node does when it is called on a future in state
    [s], [seen] of the [size] futures the node waits for having been seen
    done before: the resolving call it makes on the node, if any. *)
Definition decision (s : state.t) (seen size : nat) : option resolution :=
  if state.eqb s state.done
  then (if Nat.eqb (S seen) size then Some (by_done 0%Z) else None)
  else Some (by_fail "error" unknown).

(** The chain while it is being built over pending arguments: [p] nodes
    exist, all pending, each argument of a node that exists has the lambda
    of its node at the end of its queue. *)
Definition built (L C : nat) (ins : list nat) (p : nat) (h : heap) : Prop :=
  length (futures h) = L + p /\
  (p <= length ins -> length (counters h) = C + (p - 1)) /\
  (forall k, k < p ->
     exists out, futures h !! (L + k) = Some out /\ state_ out = state.pending /\
                 tasks_ out = node_queue L C ins p k) /\
  (forall j, S j < p -> S j < length ins -> counters h !! (C + j) = Some 2%Z) /\
  (forall k x, ins !! k = Some x ->
     exists me q, futures h !! x = Some me /\ future_ok me /\ is_ready me = false /\
                  tasks_ me = q ++ (if k <? p then [node_cb L C ins k] else []) /\
                  Forall (fun t => returns_normally t = true) q).

(** The futures of the store [h0] that are not arguments are as they were. *)
Definition untouched (L : nat) (ins : list nat) (h0 h : heap) : Prop :=
  forall i, i < L -> i ∉ ins -> futures h !! i = futures h0 !! i.

(** ** Callers of the registration members *)

(** The caller registering continuations on one future, one after the
    other: [self->on_ready(u1); self->on_ready(u2); ...]. *)
Fixpoint on_ready_each (invoke : task -> fid -> M unit) (self : fid)
         (codes : list user_code) : M unit :=
  match codes with
  | [] => ret tt
  | u :: rest => on_ready invoke self (ready_code u) ;;; on_ready_each invoke self rest
  end.

(** ** The setting of [needs_any(vector)] *)

(** A queue holding continuations of the caller that return and the lambda
    of [needs_any] for the result [f]. *)
Definition any_queue_ok (f : fid) (q : list task) : Prop :=
  Forall (fun t => returns_normally t = true \/ t = needs_first_lambda f) q.

(** An input of [needs_any] once the lambda is registered: while it is
    pending the lambda is in its queue. *)
Definition any_input (f : fid) (h : heap) (i : fid) : Prop :=
  i <> f /\
  exists me, futures h !! i = Some me /\ future_ok me /\
             any_queue_ok f (tasks_ me) /\
             (is_ready me = false -> needs_first_lambda f ∈ tasks_ me).

(** What the lambda of [needs_any] makes of a sequence of resolving calls
    on the inputs: the first one decides. *)
Definition first_decides (evs : list (fid * resolution)) : state.t :=
  match evs with
  | [] => state.pending
  | (_, r) :: _ =>
      if state.eqb (target_state r) state.done then state.done else state.failed
  end.

(** ** Registering before or after the resolving call *)



(** ** Labels and creation stamps *)

(** [const std::string &label() const] *)
Definition label (f : future) : string := label_ f.

(** What a step may do to the futures of the store: each one is still
    there, with the label and the creation stamp the constructor gave it. *)
Definition keeps_labels (h h' : heap) : Prop :=
  forall id f, futures h !! id = Some f ->
    exists f', futures h' !! id = Some f' /\
               label f' = label f /\ created_ f' = created_ f.

(** An operation whose steps are all related by [R], whether it returns or
    throws. *)
Definition preserves (R : heap -> heap -> Prop) {A} (m : M A) : Prop :=
  forall h,
    match m h with
    | Normal _ h' | Throws _ h' => R h h'
    | OutOfFuel | Undefined => True
    end.

(** ** The stores of the examples *)

Definition resolved_once : heap :=
  {| futures := [resolved_future (store_value 1%Z) state.done 1 (new_future unlabelled 0)];
     counters := []; clock := 2; log := [] |}.

Definition two_pending : heap :=
  {| futures := [new_future "f1" 0; new_future "f2" 1]; counters := []; clock := 2; log := [] |}.

Definition one_pending : heap :=
  {| futures := [new_future "source" 0]; counters := []; clock := 1; log := [] |}.

Definition three_pending : heap :=
  {| futures := [new_future "f1" 0; new_future "f2" 1; new_future "f3" 2];
     counters := []; clock := 3; log := [] |}.

(** A pending future with three continuations in its queue, the second of
    which throws. *)
Definition queued_three : heap :=
  {| futures :=
       [push_back (ready_code {| tag := 3; raises := None |})
          (push_back (ready_code {| tag := 2; raises := Some (other_exception "boom") |})
             (push_back (ready_code {| tag := 1; raises := None |})
                (new_future "source" 0)))];
     counters := []; clock := 1; log := [] |}.



(** The three characters [a], NUL, [b]. *)
Definition reason_with_nul : string := String (Ascii.ascii_of_nat 97) (String Ascii.zero "b").


(** * Properties *)

Lemma state_eqb_eq a b : state.eqb a b = true <-> a = b.
Proof. destruct a, b; simpl; split; congruence. Qed.

Lemma state_eqb_refl a : state.eqb a a = true.
Proof. now destruct a. Qed.

Lemma is_ready_true f : is_ready f = true <-> state_ f <> state.pending.
Proof. unfold is_ready. destruct (state_ f); simpl; split; congruence. Qed.

Lemma is_ready_false f : is_ready f = false <-> state_ f = state.pending.
Proof. unfold is_ready. destruct (state_ f); simpl; split; congruence. Qed.

(** *** The store only grows *)

Lemma grows_refl h : grows h h.
Proof. split; [tauto | eauto]. Qed.

Lemma grows_trans h1 h2 h3 : grows h1 h2 -> grows h2 h3 -> grows h1 h3.
Proof.
  intros [Hok12 Hkeep12] [Hok23 Hkeep23]. split; [tauto |].
  intros id f Hf.
  destruct (Hkeep12 _ _ Hf) as (f2 & Hf2 & Hr2).
  destruct (Hkeep23 _ _ Hf2) as (f3 & Hf3 & Hr3).
  eauto.
Qed.

(** The fields a step leaves alone decide [grows]. *)
Lemma grows_same_futures h h' : futures h' = futures h -> grows h h'.
Proof.
  intros E. split.
  - unfold heap_ok. now rewrite E.
  - intros id f Hf. rewrite E. eauto.
Qed.

Lemma grows_insert h h' id old new :
  futures h !! id = Some old ->
  futures h' = <[id := new]> (futures h) ->
  (future_ok old -> future_ok new) ->
  (is_ready old = true -> is_ready new = true) ->
  grows h h'.
Proof.
  intros Hold E Hok Hready. split.
  - unfold heap_ok. rewrite E. intros Hall.
    apply Forall_insert; [assumption |].
    apply Hok. rewrite Forall_lookup in Hall. eauto.
  - intros j f Hf. rewrite E.
    destruct (decide (id = j)) as [-> | Hne].
    + rewrite list_lookup_insert_eq by (eapply lookup_lt_Some; eauto).
      exists new. split; [reflexivity |].
      assert (f = old) as -> by congruence. assumption.
    + rewrite list_lookup_insert_ne by assumption. eauto.
Qed.

Lemma grows_snoc h h' new :
  futures h' = futures h ++ [new] -> future_ok new -> grows h h'.
Proof.
  intros E Hok. split.
  - unfold heap_ok. rewrite E. intros Hall. apply Forall_app. split; [assumption |].
    now constructor.
  - intros id f Hf. rewrite E. exists f. split; [| tauto].
    rewrite lookup_app_l by (eapply lookup_lt_Some; eauto). assumption.
Qed.

Lemma respects_ret {A} (a : A) : respects (ret a).
Proof. intros h. apply grows_refl. Qed.

Lemma respects_throw {A} e : respects (@throw A e).
Proof. intros h. apply grows_refl. Qed.

Lemma respects_undefined {A} : respects (@undefined A).
Proof. intros h. exact I. Qed.

Lemma respects_bind {A B} (m : M A) (k : A -> M B) :
  respects m -> (forall a, respects (k a)) -> respects (bind m k).
Proof.
  intros Hm Hk h. unfold bind. specialize (Hm h).
  destruct (m h) as [a h1 | e h1 | |]; try exact I; try assumption.
  specialize (Hk a h1). destruct (k a h1); try exact I; eapply grows_trans; eauto.
Qed.

Lemma respects_try_catch {A} (m : M A) handler :
  respects m -> (forall e k, handler e = Some k -> respects k) ->
  respects (try_catch m handler).
Proof.
  intros Hm Hh h. unfold try_catch. specialize (Hm h).
  destruct (m h) as [a h1 | e h1 | |]; try exact I; try assumption.
  destruct (handler e) as [k |] eqn:E; [| assumption].
  specialize (Hh e k E h1). destruct (k h1); try exact I; eapply grows_trans; eauto.
Qed.

Lemma respects_get_future id : respects (get_future id).
Proof. intros h. unfold get_future. destruct (futures h !! id); [apply grows_refl | exact I]. Qed.

Lemma respects_now : respects now.
Proof. intros h. now apply grows_same_futures. Qed.

Lemma respects_write_log n o : respects (write_log n o).
Proof. intros h. now apply grows_same_futures. Qed.

Lemma respects_new_counter n : respects (new_counter n).
Proof. intros h. now apply grows_same_futures. Qed.

Lemma respects_pre_decrement c : respects (pre_decrement c).
Proof.
  intros h. unfold pre_decrement. destruct (counters h !! c); [| exact I].
  now apply grows_same_futures.
Qed.

Lemma respects_lift {A} (r : result A) : respects (lift r).
Proof. destruct r; [apply respects_ret | apply respects_throw | apply respects_undefined]. Qed.

Lemma new_future_ok label t : future_ok (new_future label t).
Proof. split; simpl; congruence. Qed.

Lemma respects_create_shared label : respects (create_shared label).
Proof. intros h. eapply grows_snoc; [reflexivity | apply new_future_ok]. Qed.

Lemma respects_run_user u o : respects (run_user u o).
Proof.
  apply respects_bind; [apply respects_write_log |].
  intros _. destruct (raises u); [apply respects_throw | apply respects_ret].
Qed.

Lemma respects_call {A} (cb : A -> callback_result) a : respects (call cb a).
Proof. unfold call. destruct (cb a); [apply respects_ret | apply respects_throw]. Qed.

Lemma resolved_future_ok code s t me :
  effect_fits code s -> future_ok (resolved_future code s t me).
Proof.
  intros [Hs Hfail]. split; simpl; [reflexivity |].
  intros ->. destruct (Hfail eq_refl) as (fe & component & ->). simpl. congruence.
Qed.

Lemma push_back_ok code me :
  is_ready me = false -> future_ok me -> future_ok (push_back code me).
Proof.
  intros Hp [_ Hex]. split; simpl.
  - unfold is_ready in *. simpl. congruence.
  - assumption.
Qed.

Section Respects.

Variable invoke : task -> fid -> M unit.
Hypothesis invoke_respects : forall t self, respects (invoke t self).

Lemma respects_run_tasks pending self : respects (run_tasks invoke pending self).
Proof.
  induction pending as [| v rest IH]; simpl.
  - apply respects_ret.
  - apply respects_bind; [apply invoke_respects | intros _; exact IH].
Qed.

Lemma respects_call_when_ready self code : respects (call_when_ready invoke self code).
Proof.
  intros h. unfold call_when_ready, bind, get_future.
  destruct (futures h !! self) as [me |] eqn:Hme; [| exact I].
  destruct (is_ready me) eqn:Hr.
  - apply invoke_respects.
  - eapply grows_insert; [exact Hme | reflexivity | |].
    + now apply push_back_ok.
    + congruence.
Qed.

Lemma respects_apply_state self code s :
  effect_fits code s -> respects (apply_state invoke self code s).
Proof.
  intros Hfit h. pose proof Hfit as [Hs _].
  assert (respects (me <- get_future self ;; t <- now ;;
                    put_future self (resolved_future code s t me) ;;;
                    run_tasks invoke (tasks_ (run_effect code me)) self)) as H.
  { clear h. intros h. unfold bind at 1. unfold get_future.
    destruct (futures h !! self) as [me |] eqn:Hme; [| exact I].
    unfold bind at 1. unfold now. unfold bind at 1. unfold put_future.
    set (h1 := set_future _ _ _).
    pose proof (respects_run_tasks (tasks_ (run_effect code me)) self h1) as Hrun.
    assert (grows h h1) as Hg.
    { eapply grows_insert; [exact Hme | reflexivity | |].
      - intros _. now apply resolved_future_ok.
      - intros _. unfold is_ready. simpl. destruct s; simpl; congruence. }
    destruct (run_tasks _ _ _ h1); try exact I; eapply grows_trans; eauto. }
  unfold apply_state. destruct s; try apply H. congruence.
Qed.

Lemma respects_done self v : respects (done invoke self v).
Proof. apply respects_apply_state. split; congruence. Qed.

Lemma respects_fail self ex component : respects (fail invoke self ex component).
Proof. apply respects_apply_state. split; [congruence | eauto]. Qed.

Lemma respects_cancel self : respects (cancel invoke self).
Proof. apply respects_apply_state. split; congruence. Qed.

Lemma respects_resolve self r : respects (resolve invoke self r).
Proof. destruct r; [apply respects_done | apply respects_fail | apply respects_cancel]. Qed.

Lemma respects_propagate f inner : respects (propagate invoke f inner).
Proof.
  unfold propagate, on_done, on_fail_reason, on_cancel_void.
  repeat (apply respects_bind; [apply respects_call_when_ready | intros _]).
  apply respects_call_when_ready.
Qed.

Lemma respects_task_body t self : respects (task_body invoke t self).
Proof.
  destruct t as [u | code | u | code | u | code | f ok err | f | f pending]; simpl.
  - apply respects_bind; [apply respects_get_future | intros me]. apply respects_run_user.
  - apply respects_bind; [apply respects_get_future | intros me].
    destruct (is_done me); [| apply respects_ret].
    apply respects_bind; [apply respects_lift | intros v].
    destruct code; simpl; [apply respects_run_user | apply respects_done].
  - apply respects_bind; [apply respects_get_future | intros me].
    destruct (is_failed me); [| apply respects_ret].
    apply respects_bind; [apply respects_lift | intros v]. apply respects_run_user.
  - apply respects_bind; [apply respects_get_future | intros me].
    destruct (is_failed me); [| apply respects_ret].
    apply respects_bind; [apply respects_lift | intros v].
    destruct code; simpl; [apply respects_run_user | apply respects_fail].
  - apply respects_bind; [apply respects_get_future | intros me].
    destruct (is_cancelled me); [| apply respects_ret]. apply respects_run_user.
  - apply respects_bind; [apply respects_get_future | intros me].
    destruct (is_cancelled me); [| apply respects_ret].
    destruct code; simpl; [apply respects_run_user | apply respects_fail | apply respects_cancel].
  - apply respects_try_catch.
    + apply respects_bind; [apply respects_get_future | intros out].
      destruct (is_ready out); [apply respects_ret |].
      apply respects_bind; [apply respects_get_future | intros me].
      destruct (is_done me).
      { apply respects_bind; [apply respects_lift | intros v].
        apply respects_bind; [apply respects_call | intros inner].
        apply respects_propagate. }
      destruct (is_failed me).
      { destruct err as [err |].
        - apply respects_bind; [apply respects_lift | intros v].
          apply respects_bind; [apply respects_call | intros inner].
          apply respects_propagate.
        - apply respects_bind; [apply respects_lift | intros v]. apply respects_fail. }
      destruct (is_cancelled me); [apply respects_fail | apply respects_ret].
    + intros e k. destruct e; simpl; intros [= <-]; apply respects_fail.
  - apply respects_bind; [apply respects_get_future | intros out].
    destruct (is_ready out); [apply respects_ret |].
    apply respects_bind; [apply respects_get_future | intros me].
    destruct (negb (is_done me)); [apply respects_fail | apply respects_done].
  - apply respects_bind; [apply respects_get_future | intros out].
    destruct (is_ready out); [apply respects_ret |].
    apply respects_bind; [apply respects_get_future | intros me].
    destruct (negb (is_done me)); [apply respects_fail |].
    apply respects_bind; [apply respects_pre_decrement | intros c].
    destruct (c =? 0)%Z; [apply respects_done | apply respects_ret].
Qed.

End Respects.

Lemma respects_run_task fuel : forall t self, respects (run_task fuel t self).
Proof.
  induction fuel as [| n IH]; intros t self.
  - intros h. exact I.
  - simpl. now apply respects_task_body.
Qed.

(** *** Equations of the members *)

Lemma tasks_run_effect code me : tasks_ (run_effect code me) = tasks_ me.
Proof. now destruct code. Qed.

Lemma state_run_effect code me : state_ (run_effect code me) = state_ me.
Proof. now destruct code. Qed.

Lemma target_state_not_pending r : target_state r <> state.pending.
Proof. destruct r; simpl; congruence. Qed.

Lemma effect_of_fits r : effect_fits (effect_of r) (target_state r).
Proof.
  split; [apply target_state_not_pending |].
  destruct r; simpl; try congruence. eauto.
Qed.

Lemma resolve_apply_state invoke self r :
  resolve invoke self r = apply_state invoke self (effect_of r) (target_state r).
Proof. now destruct r. Qed.

Lemma apply_state_eq invoke self code s h me :
  futures h !! self = Some me ->
  s <> state.pending ->
  apply_state invoke self code s h =
  run_tasks invoke (tasks_ me) self
            (set_future self (resolved_future code s (clock h) me) (tick h)).
Proof.
  intros Hme Hs. rewrite <- (tasks_run_effect code me).
  unfold apply_state.
  destruct s; try congruence; unfold bind, get_future; rewrite Hme; reflexivity.
Qed.

Lemma resolve_eq invoke self r h me :
  futures h !! self = Some me ->
  resolve invoke self r h =
  run_tasks invoke (tasks_ me) self
            (set_future self (resolved_future (effect_of r) (target_state r) (clock h) me) (tick h)).
Proof.
  intros Hme. rewrite resolve_apply_state.
  apply apply_state_eq; [assumption | apply target_state_not_pending].
Qed.

Lemma call_when_ready_ready invoke self code h me :
  futures h !! self = Some me -> is_ready me = true ->
  call_when_ready invoke self code h = invoke code self h.
Proof. intros Hme Hr. unfold call_when_ready, bind, get_future. now rewrite Hme, Hr. Qed.

Lemma call_when_ready_pending invoke self code h me :
  futures h !! self = Some me -> is_ready me = false ->
  call_when_ready invoke self code h = Normal tt (set_future self (push_back code me) h).
Proof. intros Hme Hr. unfold call_when_ready, bind, get_future. now rewrite Hme, Hr. Qed.

Lemma bind_ret_tt (m : M unit) h : (m ;;; ret tt) h = m h.
Proof. unfold bind, ret. destruct (m h) as [[] ? | | |]; reflexivity. Qed.

Lemma run_tasks_app invoke q1 q2 self h :
  run_tasks invoke (q1 ++ q2) self h =
  (run_tasks invoke q1 self ;;; run_tasks invoke q2 self) h.
Proof.
  revert h. induction q1 as [| v rest IH]; intros h; simpl.
  - reflexivity.
  - unfold bind in *. destruct (invoke v self h); try reflexivity. apply IH.
Qed.

Lemma run_tasks_one invoke t self h : run_tasks invoke [t] self h = invoke t self h.
Proof. simpl. apply bind_ret_tt. Qed.

Lemma resolved_future_push_back code s t task me :
  resolved_future code s t (push_back task me) = resolved_future code s t me.
Proof. now destruct code. Qed.

Lemma set_future_twice id f g h : set_future id f (set_future id g h) = set_future id f h.
Proof. unfold set_future. simpl. now rewrite list_insert_insert_eq. Qed.

Lemma tick_set_future id f h : tick (set_future id f h) = set_future id f (tick h).
Proof. reflexivity. Qed.

Lemma lookup_set_future_eq id f h g :
  futures h !! id = Some g -> futures (set_future id f h) !! id = Some f.
Proof. intros Hg. simpl. apply list_lookup_insert_eq. eapply lookup_lt_Some; eauto. Qed.

Lemma lookup_set_future_ne id id' f h :
  id <> id' -> futures (set_future id f h) !! id' = futures h !! id'.
Proof. intros Hne. simpl. now apply list_lookup_insert_ne. Qed.

(** ** Resolving a future that is already resolved *)

(** C1: a resolving call ([done], [fail], [cancel]) on a future that has
    left [pending] dispatches no continuation, the queue being empty, and
    returns; but [apply_state] has no guard: the call runs its effect on
    the future again, stores its own state and stamps the time of
    resolution again. *)
Theorem later_resolving_call_overwrites fuel h self me r :
  heap_ok h ->
  futures h !! self = Some me ->
  is_ready me = true ->
  resolve (run_task fuel) self r h =
    Normal tt (set_future self
                 (resolved_future (effect_of r) (target_state r) (clock h) me)
                 (tick h)).
Proof.
  intros Hok Hme Hready.
  rewrite (resolve_eq _ _ _ _ _ Hme).
  unfold heap_ok in Hok. rewrite Forall_lookup in Hok.
  destruct (Hok _ _ Hme) as [Hq _]. now rewrite (Hq Hready).
Qed.

(** The theorem at a future resolved by [done(1)] and then cancelled. *)
Lemma later_resolving_call_overwrites_witness :
  heap_ok resolved_once /\
  resolve (run_task 0) 0 by_cancel resolved_once =
    Normal tt (set_future 0
                 (resolved_future no_effect state.cancelled 2
                    (resolved_future (store_value 1%Z) state.done 1 (new_future unlabelled 0)))
                 (tick resolved_once)).
Proof.
  assert (heap_ok resolved_once) as Hok.
  { repeat constructor; simpl; congruence. }
  split; [exact Hok |].
  apply (later_resolving_call_overwrites 0 resolved_once 0 _ by_cancel Hok); reflexivity.
Defined.

(** A future is created, resolved by [done(1)] and then cancelled: the
    second call takes effect, the state becomes [cancelled] and the stamp
    of resolution is that of a new reading of the clock. *)
Lemma later_resolving_call_takes_effect :
  exists before after h2,
    (f <- create_shared unlabelled ;; done (run_task 0) f 1%Z) empty_heap = Normal tt resolved_once /\
    futures resolved_once !! 0 = Some before /\
    state_ before = state.done /\
    cancel (run_task 0) 0 resolved_once = Normal tt h2 /\
    futures h2 !! 0 = Some after /\
    state_ after = state.cancelled /\
    resolved_ after <> resolved_ before /\
    h2 <> resolved_once.
Proof.
  do 3 eexists. repeat split; try reflexivity; simpl; try congruence.
  intros E. apply (f_equal clock) in E. simpl in E. congruence.
Qed.

(** The invariants hold of every store the members build. *)
Lemma empty_heap_ok : heap_ok empty_heap.
Proof. constructor. Qed.

Lemma respects_keeps_ok {A} (m : M A) h a h' :
  respects m -> heap_ok h -> m h = Normal a h' -> heap_ok h'.
Proof. intros Hm Hok E. specialize (Hm h). rewrite E in Hm. now apply Hm. Qed.

(** ** The accessors *)

(** C8: [value()] returns the stored value when the state is [done] and
    throws the error "future is not complete" in every other state;
    [failure()] and [failure_reason()] return the failure record and its
    reason when the state is [failed] and throw the error
    "future is not failed" in every other state. *)
Theorem accessors_check_the_state h id f :
  heap_ok h ->
  futures h !! id = Some f ->
  (state_ f = state.done -> value f = Returns (value_ f)) /\
  (state_ f <> state.done -> value f = Raises (runtime_error "future is not complete")) /\
  (state_ f = state.failed ->
     exists fe, ex_ f = Some fe /\ failure f = Returns fe /\
                failure_reason f = Returns (future_exception.reason_ fe)) /\
  (state_ f <> state.failed ->
     failure f = Raises (runtime_error "future is not failed") /\
     failure_reason f = Raises (runtime_error "future is not failed")).
Proof.
  intros Hok Hf. unfold heap_ok in Hok. rewrite Forall_lookup in Hok.
  destruct (Hok _ _ Hf) as [_ Hex].
  unfold value, failure, failure_reason.
  repeat split.
  - intros ->. reflexivity.
  - intros Hs. destruct (state_ f); simpl; congruence.
  - intros Hs. specialize (Hex Hs). rewrite Hs. simpl.
    destruct (ex_ f) as [fe |]; [| congruence]. eauto.
  - destruct (state_ f); simpl; congruence.
  - destruct (state_ f); simpl; congruence.
Qed.

(** ** The failure record *)

Lemma c_str_without_nul s : has_nul s = false -> c_str s = s.
Proof.
  induction s as [| c s IH]; simpl; [reflexivity |].
  destruct (Ascii.eqb c Ascii.zero); simpl; [discriminate |].
  intros H. now rewrite IH.
Qed.

Lemma c_str_with_nul s : has_nul s = true -> String.length (c_str s) < String.length s.
Proof.
  induction s as [| c s IH]; simpl; [discriminate |].
  destruct (Ascii.eqb c Ascii.zero); simpl; [lia |].
  intros H. specialize (IH H). lia.
Qed.

Lemma c_str_has_no_nul s : has_nul (c_str s) = false.
Proof.
  induction s as [| c s IH]; simpl; [reflexivity |].
  destruct (Ascii.eqb c Ascii.zero) eqn:E; simpl; [reflexivity |]. now rewrite E.
Qed.

Lemma c_str_idem s : c_str (c_str s) = c_str s.
Proof. apply c_str_without_nul, c_str_has_no_nul. Qed.

(** C9: the failure record built from an exception [e] holds the message
    of [e] as [what()] gives it and no pointer to [e]: the pointer [ex_]
    is null, so [ex()] dereferences a null pointer.  [fail(reason,
    component)] builds the record from a [fail_exception] made of [reason]
    and stores it: its reason is [reason] as a C string, which is [reason]
    when [reason] holds no NUL and a proper prefix of it otherwise. *)
Theorem failure_record_drops_the_exception (reason component : string) :
  (forall e : std_exception,
     future_exception.reason (future_exception.make e component) = what e /\
     future_exception.ex_ (future_exception.make e component) = None /\
     future_exception.ex (future_exception.make e component) = NullDereference) /\
  what (fail_exception reason) = c_str reason /\
  (has_nul reason = false -> c_str reason = reason) /\
  (has_nul reason = true -> String.length (c_str reason) < String.length reason) /\
  (forall invoke self,
     fail invoke self reason component =
     apply_state invoke self (store_failure (fail_exception reason) component) state.failed) /\
  (forall t me,
     ex_ (resolved_future (store_failure (fail_exception reason) component) state.failed t me)
       = Some (future_exception.make (fail_exception reason) component) /\
     failure (resolved_future (store_failure (fail_exception reason) component)
                state.failed t me)
       = Returns (future_exception.make (fail_exception reason) component) /\
     failure_reason (resolved_future (store_failure (fail_exception reason) component)
                       state.failed t me)
       = Returns (c_str reason)).
Proof.
  split; [intros e; repeat split |].
  split; [reflexivity |].
  split; [apply c_str_without_nul |].
  split; [apply c_str_with_nul |].
  split; [reflexivity |].
  intros t me. repeat split.
Qed.

(** ** Registration *)


Lemma is_ready_resolved_future code s t me :
  s <> state.pending -> is_ready (resolved_future code s t me) = true.
Proof. intros Hs. unfold is_ready. simpl. destruct s; simpl; congruence. Qed.



Lemma lookup_fresh (l : list future) x : (l ++ [x]) !! length l = Some x.
Proof. now apply list_lookup_middle. Qed.

(** ** The combinators without inputs, and the examples *)

(** C4: [needs_all] of the empty vector returns a new future that is
    pending and has nothing in its queue, whereas [needs_all()] returns a
    future that is done. *)
Theorem needs_all_of_empty_vector_stays_pending invoke h :
  (exists h' out,
     needs_all_vector invoke [] h = Normal (length (futures h)) h' /\
     futures h' !! length (futures h) = Some out /\
     state_ out = state.pending /\
     tasks_ out = []) /\
  (exists h' out,
     needs_all invoke [] h = Normal (length (futures h)) h' /\
     futures h' !! length (futures h) = Some out /\
     state_ out = state.done).
Proof.
  split.
  - eexists _, _. split; [reflexivity |]. split; [apply lookup_fresh |].
    split; reflexivity.
  - simpl. unfold needs_all_none, bind, create_shared.
    unfold done. erewrite apply_state_eq; [| simpl; apply lookup_fresh | congruence].
    simpl. unfold ret. eexists _, _. split; [reflexivity |]. simpl.
    split.
    + apply list_lookup_insert_eq. rewrite length_app. simpl. lia.
    + reflexivity.
Qed.

(** [needs_any] of two pending futures, the first of which then fails:
    the result is failed with reason "error" while the second is pending,
    and stays failed when the second is done. *)
Lemma needs_any_of_vector_fails_with_first_failure :
  (f1 <- create_shared "f1" ;; f2 <- create_shared "f2" ;; ret (f1, f2)) empty_heap
    = Normal (0, 1) two_pending /\
  exists h1 h2 h3 out,
    needs_any_vector (run_task 2) [0; 1] two_pending = Normal 2 h1 /\
    fail (run_task 2) 0 "boom" unknown h1 = Normal tt h2 /\
    futures h2 !! 2 = Some out /\
    state_ out = state.failed /\
    failure_reason out = Returns "error" /\
    (state_ <$> futures h2 !! 1) = Some state.pending /\
    done (run_task 2) 1 7%Z h2 = Normal tt h3 /\
    (state_ <$> futures h3 !! 1) = Some state.done /\
    (state_ <$> futures h3 !! 2) = Some state.failed.
Proof.
  split; [reflexivity |].
  eexists _, _, _, _. repeat split; reflexivity.
Qed.

(** The same with the two futures as separate arguments. *)
Lemma needs_any_of_arguments_fails_with_first_failure :
  exists h1 h2 out,
    needs_any (run_task 2) [0; 1] two_pending = Normal 3 h1 /\
    fail (run_task 2) 0 "boom" unknown h1 = Normal tt h2 /\
    futures h2 !! 3 = Some out /\
    state_ out = state.failed /\
    failure_reason out = Returns "error" /\
    (state_ <$> futures h2 !! 1) = Some state.pending.
Proof. eexists _, _, _. repeat split; reflexivity. Qed.

(** C3: when the callback [ok] of [then] throws an exception that is
    neither a [std::runtime_error] nor a [future_exception], no [catch]
    clause of [then] matches: the exception leaves the resolving call
    [done(v)] of the source, and the outer future stays pending. *)
Theorem then_lets_other_exceptions_escape (fuel : nat) (v : Z) (msg : string) :
  exists h1 h2,
    then_ (run_task (S fuel)) 0 (fun _ => throws (other_exception msg)) None one_pending
      = Normal 1 h1 /\
    done (run_task (S fuel)) 0 v h1 = Throws (other_exception msg) h2 /\
    (state_ <$> futures h2 !! 0) = Some state.done /\
    (state_ <$> futures h2 !! 1) = Some state.pending.
Proof. eexists _, _. repeat split; reflexivity. Qed.

(** A [std::runtime_error] is caught and fails the outer future with its
    message, read as a C string. *)
Lemma then_catches_runtime_errors (fuel : nat) (v : Z) (msg : string) :
  exists h1 h2 out,
    then_ (run_task (S fuel)) 0 (fun _ => throws (runtime_error msg)) None one_pending
      = Normal 1 h1 /\
    done (run_task (S fuel)) 0 v h1 = Normal tt h2 /\
    futures h2 !! 1 = Some out /\
    state_ out = state.failed /\
    failure_reason out = Returns (c_str msg).
Proof. eexists _, _, _. repeat split; reflexivity. Qed.

(** *** Continuations of the caller *)

Lemma run_user_returns u o h :
  raises u = None -> run_user u o h = Normal tt (logged (tag u) o h).
Proof. intros Hu. unfold run_user, bind, write_log. now rewrite Hu. Qed.

Lemma raises_none u :
  match raises u with None => true | Some _ => false end = true -> raises u = None.
Proof. now destruct (raises u). Qed.

Lemma run_quiet fuel t self h me :
  returns_normally t = true ->
  futures h !! self = Some me ->
  future_ok me ->
  exists h', run_task (S fuel) t self h = Normal tt h' /\
             futures h' = futures h /\ counters h' = counters h.
Proof.
  intros Hq Hme [_ Hex].
  destruct t as [u | [u | ?] | u | [u | ?] | u | [u | ? | ?] | ? ? ? | ? | ? ?];
    simpl in Hq; try discriminate; apply raises_none in Hq;
    simpl; unfold bind, get_future; rewrite Hme.
  - rewrite run_user_returns by assumption. eauto.
  - unfold is_done, value. destruct (state.eqb (state_ me) state.done); simpl; [| unfold ret; eauto].
    rewrite run_user_returns by assumption. eauto.
  - unfold is_failed, failure. destruct (state.eqb (state_ me) state.failed) eqn:E; simpl;
      [| unfold ret; eauto].
    apply state_eqb_eq in E. specialize (Hex E).
    destruct (ex_ me); [| congruence]. simpl.
    rewrite run_user_returns by assumption. eauto.
  - unfold is_failed, failure_reason. destruct (state.eqb (state_ me) state.failed) eqn:E; simpl;
      [| unfold ret; eauto].
    apply state_eqb_eq in E. specialize (Hex E).
    destruct (ex_ me); [| congruence]. simpl.
    rewrite run_user_returns by assumption. eauto.
  - destruct (is_cancelled me); [| unfold ret; eauto].
    rewrite run_user_returns by assumption. eauto.
  - destruct (is_cancelled me); [| unfold ret; eauto]. simpl.
    rewrite run_user_returns by assumption. eauto.
Qed.

Lemma wrap32_small z : (- 2 ^ 31 <= z < 2 ^ 31)%Z -> wrap32 z = z.
Proof. intros Hz. unfold wrap32. rewrite Z.mod_small; lia. Qed.





(** *** One call of the lambda of [needs_all] *)

Section Deliver.

Variables (f : fid) (cnt : cid) (size : nat).
Hypothesis size_fits : (Z.of_nat size < 2 ^ 31)%Z.



End Deliver.







Section Batch.

Variables (f : fid) (cnt : cid) (size : nat).
Hypothesis size_fits : (Z.of_nat size < 2 ^ 31)%Z.


End Batch.

(** *** Counting the states of the inputs *)



Lemma occurrences_cons i j reg :
  occurrences i (j :: reg) = (if decide (j = i) then 1 else 0) + occurrences i reg.
Proof. unfold occurrences. rewrite filter_cons. now case_decide. Qed.






Lemma occurrences_pos i reg : i ∈ reg -> 0 < occurrences i reg.
Proof.
  induction 1 as [i reg | i j reg _ IH]; rewrite occurrences_cons.
  - rewrite decide_True by reflexivity. lia.
  - lia.
Qed.






Lemma state_of_lookup h i me : futures h !! i = Some me -> state_of h i = state_ me.
Proof. intros H. unfold state_of. now rewrite H. Qed.

Lemma state_of_same h h' j : futures h' !! j = futures h !! j -> state_of h' j = state_of h j.
Proof. intros H. unfold state_of. now rewrite H. Qed.




Section NeedsAll.

Variables (f : fid) (cnt : cid) (size : nat) (first : list fid).
Hypothesis size_fits : (Z.of_nat size < 2 ^ 31)%Z.

Let cb := needs_count_lambda f cnt.




End NeedsAll.

Section NeedsAllEvents.

Variables (f : fid) (cnt : cid) (first : list fid).
Hypothesis size_fits : (Z.of_nat (length first) < 2 ^ 31)%Z.

Let size := length first.
Let cb := needs_count_lambda f cnt.





End NeedsAllEvents.

Lemma lookup_fresh_counter (l : list Z) x : (l ++ [x]) !! length l = Some x.
Proof. now apply list_lookup_middle. Qed.


(** *** Queues of continuations that return *)

Lemma run_quiet_batch fuel self me q :
  forall h,
    Forall (fun t => returns_normally t = true) q ->
    futures h !! self = Some me -> future_ok me ->
    exists h', run_tasks (run_task (S fuel)) q self h = Normal tt h' /\
               futures h' = futures h /\ counters h' = counters h.
Proof.
  induction q as [| t q IH]; intros h Hq Hme Hok.
  - exists h. auto.
  - apply Forall_cons in Hq as [Ht Hq]. cbn [run_tasks]. unfold bind.
    destruct (run_quiet fuel t self h me Ht Hme Hok) as (h1 & -> & Ef & Ec).
    destruct (IH h1 Hq) as (h' & E & Ef' & Ec'); [now rewrite Ef | assumption |].
    exists h'. split; [exact E |]. split; congruence.
Qed.

Lemma resolve_quiet fuel h i me r :
  futures h !! i = Some me ->
  Forall (fun t => returns_normally t = true) (tasks_ me) ->
  exists h',
    resolve (run_task (S fuel)) i r h = Normal tt h' /\
    futures h' = <[i := resolved_future (effect_of r) (target_state r) (clock h) me]> (futures h) /\
    counters h' = counters h.
Proof.
  intros Hme Hq. rewrite (resolve_eq _ _ _ _ _ Hme).
  set (me' := resolved_future _ _ _ me).
  destruct (run_quiet_batch fuel i me' (tasks_ me) (set_future i me' (tick h)) Hq)
    as (h' & E & Ef & Ec).
  - eapply lookup_set_future_eq. simpl. exact Hme.
  - apply resolved_future_ok, effect_of_fits.
  - exists h'. auto.
Qed.

(** *** The lambdas of [then] *)

Lemma run_cancel_inner_skipped fuel f inner out h :
  futures h !! f = Some out -> is_cancelled out = false ->
  run_task (S fuel) (on_cancel_void_lambda (cancel_inner inner)) f h = Normal tt h.
Proof. intros Hout Hc. simpl. unfold bind, get_future. now rewrite Hout, Hc. Qed.

Lemma run_cancel_inner_batch fuel f inner out qf :
  forall h,
    Forall (fun t => t = on_cancel_void_lambda (cancel_inner inner)) qf ->
    futures h !! f = Some out -> is_cancelled out = false ->
    run_tasks (run_task (S fuel)) qf f h = Normal tt h.
Proof.
  induction qf as [| t qf IH]; intros h Hq Hout Hc; [reflexivity |].
  apply Forall_cons in Hq as [-> Hq]. cbn [run_tasks]. unfold bind.
  rewrite (run_cancel_inner_skipped _ _ _ _ _ Hout Hc). now apply IH.
Qed.

(** A resolving call on the outer future, other than [cancel]. *)
Lemma resolve_outer fuel f inner out r h :
  futures h !! f = Some out ->
  Forall (fun t => t = on_cancel_void_lambda (cancel_inner inner)) (tasks_ out) ->
  target_state r <> state.cancelled ->
  resolve (run_task (S fuel)) f r h =
  Normal tt (set_future f (resolved_future (effect_of r) (target_state r) (clock h) out) (tick h)).
Proof.
  intros Hout Hq Hr. rewrite (resolve_eq _ _ _ _ _ Hout).
  eapply run_cancel_inner_batch; [exact Hq | |].
  - eapply lookup_set_future_eq. simpl. exact Hout.
  - unfold is_cancelled. simpl. destruct r; simpl in *; congruence.
Qed.

Lemma forwarded_not_cancelled mg : target_state (forwarded mg) <> state.cancelled.
Proof. unfold forwarded. destruct (state_ mg); simpl; congruence. Qed.

(** The three lambdas called on a resolved inner future make one resolving
    call on the outer future. *)
Lemma forwarders_run fuel f g out mg h :
  f <> g ->
  futures h !! f = Some out ->
  Forall (fun t => t = on_cancel_void_lambda (cancel_inner g)) (tasks_ out) ->
  futures h !! g = Some mg ->
  is_ready mg = true -> future_ok mg ->
  let h' := set_future f (resolved_future (effect_of (forwarded mg))
                                          (target_state (forwarded mg)) (clock h) out) (tick h) in
  run_task (S (S fuel)) (on_done_lambda (forward_done f)) g h =
    (if is_done mg then Normal tt h' else Normal tt h) /\
  (is_done mg = false ->
   run_task (S (S fuel)) (on_fail_reason_lambda (forward_fail f)) g h =
     (if is_failed mg then Normal tt h' else Normal tt h)) /\
  (is_done mg = false -> is_failed mg = false ->
   run_task (S (S fuel)) (on_cancel_void_lambda (forward_cancelled f)) g h = Normal tt h').
Proof.
  intros Hfg Hout Hq Hmg Hr [_ Hex] h'.
  pose proof (resolve_outer fuel f g out (forwarded mg) h Hout Hq (forwarded_not_cancelled mg))
    as Hres.
  fold h' in Hres.
  split; [| split].
  - cbn [run_task task_body]. unfold bind at 1. unfold get_future. rewrite Hmg.
    unfold is_done, value. destruct (state.eqb (state_ mg) state.done) eqn:E; [| reflexivity].
    simpl negb. cbv iota. unfold bind, lift, ret. cbn [run_value_code].
    rewrite <- Hres. unfold forwarded. apply state_eqb_eq in E. now rewrite E.
  - intros _. cbn [run_task task_body]. unfold bind at 1. unfold get_future. rewrite Hmg.
    unfold is_failed, failure_reason.
    destruct (state.eqb (state_ mg) state.failed) eqn:E; [| reflexivity].
    apply state_eqb_eq in E. specialize (Hex E).
    destruct (ex_ mg) as [fe |] eqn:Efe; [| congruence].
    simpl negb. cbv iota. unfold bind, lift, ret. cbn [run_reason_code].
    rewrite <- Hres. unfold forwarded. now rewrite E, Efe.
  - intros Hd Hf. cbn [run_task task_body]. unfold bind at 1. unfold get_future. rewrite Hmg.
    assert (state_ mg = state.cancelled) as E.
    { unfold is_ready, is_done, is_failed in *. destruct (state_ mg); simpl in *; congruence. }
    unfold is_cancelled. rewrite E. simpl. rewrite <- Hres. unfold forwarded. now rewrite E.
Qed.

Lemma forwarders_batch fuel f g out mg h :
  f <> g ->
  futures h !! f = Some out ->
  is_ready out = false ->
  Forall (fun t => t = on_cancel_void_lambda (cancel_inner g)) (tasks_ out) ->
  futures h !! g = Some mg ->
  is_ready mg = true -> future_ok mg ->
  run_tasks (run_task (S (S fuel))) (forwarders f) g h =
  Normal tt (set_future f (resolved_future (effect_of (forwarded mg))
                                           (target_state (forwarded mg)) (clock h) out) (tick h)).
Proof.
  intros Hfg Hout Hp Hq Hmg Hr Hok.
  destruct (forwarders_run fuel f g out mg h Hfg Hout Hq Hmg Hr Hok) as (H1 & H2 & H3).
  set (out' := resolved_future _ _ _ out) in *.
  set (h' := set_future f out' (tick h)) in *.
  assert (futures h' !! f = Some out') as Hout'.
  { eapply lookup_set_future_eq. simpl. exact Hout. }
  assert (futures h' !! g = Some mg) as Hmg'.
  { unfold h'. rewrite lookup_set_future_ne by assumption. exact Hmg. }
  assert (is_ready out' = true) as Hr'.
  { apply is_ready_resolved_future. unfold forwarded. destruct (state_ mg); simpl; congruence. }
  unfold forwarders. cbn [run_tasks]. unfold bind.
  rewrite H1. destruct (is_done mg) eqn:Hd.
  - (* done: the other two lambdas skip *)
    assert (is_failed mg = false /\ is_cancelled mg = false) as [Hf Hc].
    { unfold is_done, is_failed, is_cancelled in *. destruct (state_ mg); simpl in *; auto. }
    assert (run_task (S (S fuel)) (on_fail_reason_lambda (forward_fail f)) g h' = Normal tt h') as ->.
    { cbn [run_task task_body]. unfold bind, get_future. now rewrite Hmg', Hf. }
    assert (run_task (S (S fuel)) (on_cancel_void_lambda (forward_cancelled f)) g h' = Normal tt h') as ->.
    { cbn [run_task task_body]. unfold bind, get_future. now rewrite Hmg', Hc. }
    reflexivity.
  - rewrite (H2 eq_refl). destruct (is_failed mg) eqn:Hf.
    + assert (is_cancelled mg = false) as Hc.
      { unfold is_failed, is_cancelled in *. destruct (state_ mg); simpl in *; auto. }
      assert (run_task (S (S fuel)) (on_cancel_void_lambda (forward_cancelled f)) g h' = Normal tt h') as ->.
      { cbn [run_task task_body]. unfold bind, get_future. now rewrite Hmg', Hc. }
      reflexivity.
    + now rewrite (H3 eq_refl eq_refl).
Qed.

Lemma forwarded_mirrors r t m0 t' out :
  mirrors r (resolved_future
               (effect_of (forwarded (resolved_future (effect_of r) (target_state r) t m0)))
               (target_state (forwarded (resolved_future (effect_of r) (target_state r) t m0)))
               t' out).
Proof.
  destruct r; simpl; auto.
  split; [reflexivity |]. unfold failure_reason. simpl. now rewrite c_str_idem.
Qed.

Lemma resolve_quiet_lookup fuel h i me r :
  futures h !! i = Some me ->
  Forall (fun t => returns_normally t = true) (tasks_ me) ->
  exists h',
    resolve (run_task (S fuel)) i r h = Normal tt h' /\
    futures h' !! i = Some (resolved_future (effect_of r) (target_state r) (clock h) me) /\
    length (futures h') = length (futures h) /\
    (forall j, j <> i -> futures h' !! j = futures h !! j).
Proof.
  intros Hme Hq. destruct (resolve_quiet fuel h i me r Hme Hq) as (h' & E & Ef & _).
  exists h'. split; [exact E |]. rewrite Ef. split; [| split].
  - apply list_lookup_insert_eq. eapply lookup_lt_Some; eauto.
  - apply length_insert.
  - intros j Hj. apply list_lookup_insert_ne. congruence.
Qed.

Section Then.

Variables (a g f : nat) (ok : Z -> callback_result) (err : option (string -> callback_result)).
Variable v : Z.
Hypothesis ok_returns : ok v = returns g.
Hypothesis fg : f <> g.
Hypothesis fa : f <> a.

Let tl := then_lambda f ok err.
Let ci := on_cancel_void_lambda (cancel_inner g).

Lemma tasks_wired mg : tasks_ (wired f mg) = tasks_ mg ++ forwarders f.
Proof. unfold wired, forwarders. simpl. now rewrite <- !app_assoc. Qed.

Lemma propagate_pending fuel out mg h :
  futures h !! f = Some out -> is_ready out = false ->
  futures h !! g = Some mg -> is_ready mg = false ->
  exists h',
    propagate (run_task fuel) f g h = Normal tt h' /\
    futures h' !! g = Some (wired f mg) /\
    futures h' !! f = Some (push_back ci out) /\
    (forall j, j <> f -> j <> g -> futures h' !! j = futures h !! j).
Proof.
  intros Hout Hp Hmg Hpg.
  unfold propagate, on_done, on_fail_reason, on_cancel_void.
  unfold bind at 1. rewrite (call_when_ready_pending _ _ _ _ _ Hmg Hpg).
  set (m1 := push_back _ mg). set (h1 := set_future g m1 h).
  assert (futures h1 !! g = Some m1) as H1 by (eapply lookup_set_future_eq; eauto).
  unfold bind at 1. rewrite (call_when_ready_pending _ _ _ _ _ H1 Hpg).
  set (m2 := push_back _ m1). set (h2 := set_future g m2 h1).
  assert (futures h2 !! g = Some m2) as H2 by (eapply lookup_set_future_eq; eauto).
  unfold bind at 1. rewrite (call_when_ready_pending _ _ _ _ _ H2 Hpg).
  set (m3 := push_back _ m2). set (h3 := set_future g m3 h2).
  assert (futures h3 !! f = Some out) as H3.
  { unfold h3, h2, h1. rewrite !lookup_set_future_ne by congruence. exact Hout. }
  rewrite (call_when_ready_pending _ _ _ _ _ H3 Hp).
  eexists. split; [reflexivity |]. split; [| split].
  - rewrite lookup_set_future_ne by assumption. eapply lookup_set_future_eq; eauto.
  - eapply lookup_set_future_eq; eauto.
  - intros j Hjf Hjg. unfold h3, h2, h1. now rewrite !lookup_set_future_ne by congruence.
Qed.


(** The lambda of [then] called on the source once it is done. *)
Lemma then_lambda_run fuel out ma h h' :
  futures h !! f = Some out -> is_ready out = false ->
  futures h !! a = Some ma -> state_ ma = state.done -> value_ ma = v ->
  propagate (run_task fuel) f g h = Normal tt h' ->
  run_task (S fuel) tl a h = Normal tt h'.
Proof.
  intros Hout Hp Hma Hs Hv Hprop.
  unfold tl. cbn [run_task task_body]. unfold try_catch.
  unfold bind at 1. unfold get_future. rewrite Hout, Hp.
  unfold bind at 1. rewrite Hma. unfold is_done, value. rewrite Hs. simpl.
  unfold bind at 1. unfold ret. unfold bind at 1. unfold call. rewrite Hv, ok_returns.
  unfold ret. now rewrite Hprop.
Qed.

End Then.

Lemma lookup_old_after_create (h : heap) x j :
  j < length (futures h) ->
  futures (tick (add_future x h)) !! j = futures h !! j.
Proof. intros Hj. simpl. now apply lookup_app_l. Qed.

Lemma lookup_new_after_create (h : heap) x :
  futures (tick (add_future x h)) !! length (futures h) = Some x.
Proof. simpl. apply lookup_fresh. Qed.

Lemma then_pending fuel a ok err ma h :
  futures h !! a = Some ma -> is_ready ma = false ->
  exists h',
    then_ (run_task fuel) a ok err h = Normal (length (futures h)) h' /\
    futures h' !! a = Some (push_back (then_lambda (length (futures h)) ok err) ma) /\
    futures h' !! length (futures h) = Some (new_future unlabelled (clock h)) /\
    clock h' = S (clock h) /\
    (forall j, j <> a -> j < length (futures h) -> futures h' !! j = futures h !! j).
Proof.
  intros Hma Hp. pose proof (lookup_lt_Some _ _ _ Hma) as Hlt.
  unfold then_, bind, create_shared.
  set (h0 := tick (add_future _ h)).
  assert (futures h0 !! a = Some ma) as Hma0.
  { unfold h0. now rewrite lookup_old_after_create. }
  rewrite (call_when_ready_pending _ _ _ _ _ Hma0 Hp).
  eexists. split; [reflexivity |]. split; [| split; [| split]].
  - eapply lookup_set_future_eq; eauto.
  - rewrite lookup_set_future_ne by lia. apply lookup_new_after_create.
  - reflexivity.
  - intros j Hja Hj. rewrite lookup_set_future_ne by congruence.
    now apply lookup_old_after_create.
Qed.

Lemma then_ready fuel a ok err ma h h' :
  futures h !! a = Some ma -> is_ready ma = true ->
  run_task fuel (then_lambda (length (futures h)) ok err) a
           (tick (add_future (new_future unlabelled (clock h)) h)) = Normal tt h' ->
  then_ (run_task fuel) a ok err h = Normal (length (futures h)) h'.
Proof.
  intros Hma Hr E. pose proof (lookup_lt_Some _ _ _ Hma) as Hlt.
  unfold then_, bind, create_shared.
  set (h0 := tick (add_future _ h)) in *.
  assert (futures h0 !! a = Some ma) as Hma0.
  { unfold h0. now rewrite lookup_old_after_create. }
  now rewrite (call_when_ready_ready _ _ _ _ _ Hma0 Hr), E.
Qed.

Section ThenMirrors.

Variables (a g f : nat) (ok : Z -> callback_result) (err : option (string -> callback_result)).
Variable v : Z.
Hypothesis ok_returns : ok v = returns g.
Hypothesis fg : f <> g.
Hypothesis fa : f <> a.
Hypothesis ag : a <> g.

Let tl := then_lambda f ok err.
Let ci := on_cancel_void_lambda (cancel_inner g).

(** The lambda of [then] is called while the inner future is pending. *)
Lemma lambda_wires fuel out ma mg h :
  futures h !! f = Some out -> is_ready out = false ->
  futures h !! a = Some ma -> state_ ma = state.done -> value_ ma = v ->
  futures h !! g = Some mg -> is_ready mg = false ->
  exists h',
    run_task (S fuel) tl a h = Normal tt h' /\
    futures h' !! g = Some (wired f mg) /\
    futures h' !! f = Some (push_back ci out).
Proof.
  intros Hout Hp Hma Hs Hv Hmg Hpg.
  destruct (propagate_pending g f fg fuel out mg h Hout Hp Hmg Hpg) as (h' & E & Hg' & Hf' & _).
  exists h'. split; [| split; assumption].
  now apply (then_lambda_run a g f ok err v ok_returns fuel out ma h h').
Qed.


(** The source is resolved while the lambda of [then] waits in its queue. *)
Lemma source_resolves fuel ma h (P : heap -> Prop) :
  futures h !! a = Some ma ->
  (exists qa, tasks_ ma = qa ++ [tl] /\ Forall (fun t => returns_normally t = true) qa) ->
  (forall h1, futures h1 = futures (set_future a
                 (resolved_future (store_value v) state.done (clock h) ma) (tick h)) ->
     exists h', run_task (S fuel) tl a h1 = Normal tt h' /\ P h') ->
  exists h', resolve (run_task (S fuel)) a (by_done v) h = Normal tt h' /\ P h'.
Proof.
  intros Hma (qa & Hq & Hquiet) Hnext.
  rewrite (resolve_eq _ _ _ _ _ Hma). simpl effect_of. simpl target_state.
  set (ma' := resolved_future _ _ _ ma) in *. set (hm := set_future a ma' (tick h)) in *.
  rewrite Hq, run_tasks_app. unfold bind.
  destruct (run_quiet_batch fuel a ma' qa hm Hquiet) as (h1 & -> & Ef & _).
  { eapply lookup_set_future_eq. simpl. exact Hma. }
  { apply resolved_future_ok. split; [congruence | discriminate]. }
  rewrite run_tasks_one. now apply Hnext.
Qed.

(** The inner future is resolved with the three lambdas in its queue. *)
Lemma inner_resolves fuel mg out r h :
  futures h !! g = Some (wired f mg) ->
  Forall (fun t => returns_normally t = true) (tasks_ mg) ->
  futures h !! f = Some (push_back ci out) ->
  is_ready out = false -> tasks_ out = [] ->
  exists h' out',
    resolve (run_task (S (S fuel))) g r h = Normal tt h' /\
    futures h' !! f = Some out' /\ mirrors r out'.
Proof.
  intros Hmg Hquiet Hout Hp Hq.
  rewrite (resolve_eq _ _ _ _ _ Hmg).
  set (mg' := resolved_future _ _ _ (wired f mg)). set (hm := set_future g mg' (tick h)).
  rewrite tasks_wired, run_tasks_app. unfold bind.
  assert (futures hm !! g = Some mg') as Hmg'.
  { eapply lookup_set_future_eq. simpl. exact Hmg. }
  assert (future_ok mg') as Hok' by (apply resolved_future_ok, effect_of_fits).
  destruct (run_quiet_batch (S fuel) g mg' (tasks_ mg) hm Hquiet Hmg' Hok') as (h1 & -> & Ef & _).
  rewrite (forwarders_batch fuel f g (push_back ci out) mg' h1).
  - eexists _, _. split; [reflexivity |]. split.
    + eapply lookup_set_future_eq. simpl. rewrite Ef. unfold hm.
      rewrite lookup_set_future_ne by congruence. exact Hout.
    + apply forwarded_mirrors.
  - exact fg.
  - rewrite Ef. unfold hm. rewrite lookup_set_future_ne by congruence. exact Hout.
  - exact Hp.
  - simpl. rewrite Hq. simpl. constructor; [reflexivity | constructor].
  - now rewrite Ef.
  - apply is_ready_resolved_future, target_state_not_pending.
  - exact Hok'.
Qed.

End ThenMirrors.


Lemma plain_pending h i :
  plain_input h i -> state_of h i = state.pending ->
  exists me, futures h !! i = Some me /\ is_ready me = false /\ future_ok me /\
             Forall (fun t => returns_normally t = true) (tasks_ me).
Proof.
  intros (me & Hme & Hok & Hq) Hs. exists me. repeat split; try assumption; try apply Hok.
  apply is_ready_false. now rewrite <- (state_of_lookup _ _ _ Hme).
Qed.


(** *** States of the futures a node waits for *)

Lemma done_count_cons s ss :
  done_count (s :: ss) = (if state.eqb s state.done then 1 else 0) + done_count ss.
Proof.
  unfold done_count. rewrite filter_cons.
  destruct (state.eqb s state.done); case_decide; simpl; congruence.
Qed.

Lemma done_count_le ss : done_count ss <= length ss.
Proof. unfold done_count. apply length_filter. Qed.

Lemma expected_all_by_counts ss :
  expected_all ss =
  if existsb not_done ss then state.failed
  else if Nat.eqb (done_count ss) (length ss) then state.done
  else state.pending.
Proof.
  unfold expected_all. destruct (existsb not_done ss); [reflexivity |].
  assert (forallb (fun s => state.eqb s state.done) ss = Nat.eqb (done_count ss) (length ss))
    as ->; [| reflexivity].
  induction ss as [| s ss IH]; [reflexivity |].
  simpl forallb. rewrite done_count_cons, IH. simpl length.
  pose proof (done_count_le ss).
  destruct (state.eqb s state.done); simpl; [reflexivity |].
  symmetry. apply Nat.eqb_neq. lia.
Qed.

Lemma hide_same src view i : i <> src -> hide src view i = view i.
Proof. intros H. unfold hide. now rewrite (proj2 (Nat.eqb_neq i src) H). Qed.

Lemma hide_src src view : hide src view src = state.pending.
Proof. unfold hide. now rewrite Nat.eqb_refl. Qed.

Lemma map_hide_other src view srcs :
  src ∉ srcs -> map (hide src view) srcs = map view srcs.
Proof.
  induction srcs as [| i srcs IH]; intros Hn; [reflexivity |].
  apply not_elem_of_cons in Hn as [Hi Hn]. simpl. rewrite IH by assumption.
  now rewrite hide_same by congruence.
Qed.

(** The futures a node waits for, once the one that was hidden is seen. *)
Lemma seen_not_done src view srcs :
  src ∈ srcs ->
  existsb not_done (map view srcs) =
  existsb not_done (map (hide src view) srcs) || not_done (view src).
Proof.
  intros Hin. induction srcs as [| i srcs IH]; [inversion Hin |].
  simpl. destruct (decide (i = src)) as [-> | Hne].
  - rewrite hide_src. simpl.
    destruct (decide (src ∈ srcs)) as [Hin' | Hout].
    + rewrite IH by assumption. destruct (not_done (view src)); simpl;
        [now rewrite orb_true_r | reflexivity].
    + rewrite map_hide_other by assumption. apply orb_comm.
  - rewrite hide_same by assumption. apply elem_of_cons in Hin as [-> | Hin]; [congruence |].
    rewrite IH by assumption. now rewrite orb_assoc.
Qed.

Lemma seen_done_count src view srcs :
  src ∈ srcs -> NoDup srcs ->
  done_count (map view srcs) =
  done_count (map (hide src view) srcs) + (if state.eqb (view src) state.done then 1 else 0) /\
  done_count (map (hide src view) srcs) < length srcs.
Proof.
  intros Hin Hnd. induction srcs as [| i srcs IH]; [inversion Hin |].
  apply NoDup_cons in Hnd as [Hi Hnd]. simpl map. rewrite !done_count_cons. simpl length.
  destruct (decide (i = src)) as [-> | Hne].
  - rewrite hide_src, map_hide_other by assumption. simpl.
    pose proof (done_count_le (map view srcs)). rewrite length_map in *.
    destruct (state.eqb (view src) state.done); lia.
  - rewrite hide_same by assumption. apply elem_of_cons in Hin as [-> | Hin]; [congruence |].
    destruct (IH Hin Hnd) as [-> Hlt].
    destruct (state.eqb (view i) state.done); lia.
Qed.

Lemma decision_expected src view srcs :
  src ∈ srcs -> NoDup srcs ->
  view src <> state.pending ->
  expected_all (map (hide src view) srcs) = state.pending ->
  expected_all (map view srcs) =
  match decision (view src) (done_count (map (hide src view) srcs)) (length srcs) with
  | Some r => target_state r
  | None => state.pending
  end /\
  (state.eqb (view src) state.done = true -> existsb not_done (map view srcs) = false).
Proof.
  intros Hin Hnd Hs Hp.
  destruct (seen_done_count src view srcs Hin Hnd) as [Hd Hlt].
  pose proof (seen_not_done src view srcs Hin) as He.
  rewrite expected_all_by_counts in Hp.
  destruct (existsb not_done (map (hide src view) srcs)); [discriminate |].
  rewrite expected_all_by_counts, He, Hd, !length_map. unfold decision. simpl orb.
  destruct (view src); cbn -[Nat.eqb]; try congruence; split; try congruence.
  rewrite Nat.add_1_r. destruct (Nat.eqb (S _) _); reflexivity.
Qed.

Lemma ready_expected src view srcs :
  src ∈ srcs ->
  expected_all (map (hide src view) srcs) <> state.pending ->
  expected_all (map view srcs) = expected_all (map (hide src view) srcs) /\
  existsb not_done (map view srcs) = true.
Proof.
  intros Hin Hp.
  assert (existsb not_done (map (hide src view) srcs) = true) as He.
  { rewrite expected_all_by_counts in Hp.
    destruct (existsb not_done (map (hide src view) srcs)); [reflexivity |].
    destruct (Nat.eqb _ _) eqn:E; [| congruence].
    apply Nat.eqb_eq in E. exfalso. clear Hp.
    assert (forall l, src ∈ l -> done_count (map (hide src view) l) < length (map (hide src view) l)) as H.
    { clear. induction l as [| i l IH]; intros Hin; [inversion Hin |].
      simpl map. rewrite done_count_cons. simpl length.
      pose proof (done_count_le (map (hide src view) l)).
      destruct (decide (i = src)) as [-> | Hne].
      - rewrite hide_src. simpl. lia.
      - apply elem_of_cons in Hin as [-> | Hin]; [congruence |].
        specialize (IH Hin). destruct (state.eqb _ _); lia. }
    specialize (H srcs Hin). lia. }
  pose proof (seen_not_done src view srcs Hin) as Hr. rewrite He in Hr. simpl in Hr.
  split; [| exact Hr].
  unfold expected_all. now rewrite Hr, He.
Qed.

Section Chain.

Variables (L C : nat) (ins : list nat).
Hypothesis ins_nodup : NoDup ins.
Hypothesis ins_old : forall k x, ins !! k = Some x -> x < L.
Hypothesis ins_some : ins <> [].

Let n := length ins.

Lemma n_pos : 0 < n.
Proof. unfold n. destruct ins; [congruence | simpl; lia]. Qed.

Lemma sources_cases k i :
  i ∈ node_sources L ins k ->
  ins !! k = Some i \/ exists j, k = S j /\ i = L + j.
Proof.
  unfold node_sources. intros Hi. apply elem_of_app in Hi as [Hi | Hi].
  - destruct (ins !! k); [| inversion Hi]. apply list_elem_of_singleton in Hi. left. congruence.
  - destruct k as [| j]; [inversion Hi |]. apply list_elem_of_singleton in Hi. right. eauto.
Qed.

Lemma sources_lt k i : i ∈ node_sources L ins k -> i < L + k.
Proof.
  intros Hi. destruct (sources_cases k i Hi) as [Hx | (j & -> & ->)]; [| lia].
  apply ins_old in Hx. lia.
Qed.

Lemma sources_nodup k : NoDup (node_sources L ins k).
Proof.
  unfold node_sources. destruct (ins !! k) as [x |] eqn:Hx; destruct k as [| j]; simpl.
  - apply NoDup_singleton.
  - apply NoDup_cons. split; [| apply NoDup_singleton].
    intros Hin. apply list_elem_of_singleton in Hin. apply ins_old in Hx. lia.
  - apply NoDup_nil_2.
  - apply NoDup_singleton.
Qed.

Lemma sources_above k j src :
  k < j -> src ∈ node_sources L ins k -> src ∉ node_sources L ins j.
Proof.
  intros Hkj Hk Hj.
  pose proof (sources_cases k src Hk) as Ck. pose proof (sources_cases j src Hj) as Cj.
  destruct Ck as [Hx | (k' & Ek & Ex)]; destruct Cj as [Hy | (j' & Ej & Ey)].
  - pose proof (NoDup_lookup _ _ _ _ ins_nodup Hx Hy). lia.
  - apply ins_old in Hx. lia.
  - apply ins_old in Hy. lia.
  - lia.
Qed.

Lemma child_is_source k : L + k ∈ node_sources L ins (S k).
Proof. unfold node_sources. apply elem_of_app. right. now left. Qed.

Lemma sources_length k :
  k <= n ->
  length (node_sources L ins k) = if (0 <? k) && (k <? n) then 2 else 1.
Proof.
  intros Hk. unfold node_sources. rewrite length_app.
  destruct k as [| j].
  - pose proof n_pos. destruct (ins !! 0) eqn:E; [reflexivity |].
    apply lookup_ge_None in E. fold n in E. lia.
  - simpl (0 <? S j). simpl andb. destruct (S j <? n) eqn:E.
    + apply Nat.ltb_lt in E. destruct (ins !! S j) eqn:E'; [reflexivity |].
      apply lookup_ge_None in E'. fold n in E'. lia.
    + apply Nat.ltb_ge in E. assert (ins !! S j = None) as -> by (apply lookup_ge_None; fold n; lia).
      reflexivity.
Qed.

Lemma node_ok_transfer p v v' h h' j :
  futures h' !! (L + j) = futures h !! (L + j) ->
  (forall jj, j = S jj -> counters h' !! (C + jj) = counters h !! (C + jj)) ->
  (forall i, i ∈ node_sources L ins j -> v' i = v i) ->
  node_ok L C ins p v h j -> node_ok L C ins p v' h' j.
Proof.
  intros Ef Ec Ev (out & Hout & Hst & Hex & Hq & Hcnt).
  assert (map v' (node_sources L ins j) = map v (node_sources L ins j)) as Em.
  { apply map_ext_in. intros i Hi. apply Ev. now apply list_elem_of_In. }
  exists out. rewrite Ef, Em. repeat split; try assumption.
  intros jj -> Hlt He. rewrite Ec by reflexivity. now apply Hcnt.
Qed.

(** The lambda of a node finds the node resolved. *)
Lemma node_cb_skips fuel k src out h :
  futures h !! (L + k) = Some out -> is_ready out = true ->
  run_task (S fuel) (node_cb L C ins k) src h = Normal tt h.
Proof.
  intros Hout Hr. unfold node_cb.
  destruct k as [| j]; [| destruct (S j <? length ins)];
    cbn [run_task task_body]; unfold bind, get_future;
    rewrite ?Nat.add_0_r in Hout; now rewrite Hout, Hr.
Qed.

(** The lambda of a node finds the node pending. *)
Lemma node_cb_run fuel k src me out d h :
  k <= n ->
  futures h !! (L + k) = Some out -> is_ready out = false ->
  futures h !! src = Some me -> is_ready me = true ->
  d < length (node_sources L ins k) ->
  (forall j, k = S j -> k < n -> counters h !! (C + j) = Some (2 - Z.of_nat d)%Z) ->
  exists h0,
    futures h0 = futures h /\ clock h0 = clock h /\
    (forall c, (forall j, k = S j -> c <> C + j) -> counters h0 !! c = counters h !! c) /\
    (forall j, k = S j -> k < n -> is_done me = true ->
       counters h0 !! (C + j) = Some (2 - Z.of_nat (S d))%Z) /\
    run_task (S fuel) (node_cb L C ins k) src h =
    match decision (state_ me) d (length (node_sources L ins k)) with
    | Some r => resolve (run_task fuel) (L + k) r h0
    | None => Normal tt h0
    end.
Proof.
  intros Hk Hout Hp Hme Hr Hd Hcnt.
  rewrite sources_length in * by assumption.
  assert (state_ me <> state.pending) as Hs by (now apply is_ready_true).
  unfold node_cb, decision. fold n.
  destruct k as [| j].
  - (* the bottom node *)
    simpl in Hd. assert (d = 0) as -> by lia.
    exists h. repeat split; try (intros; lia).
    cbn [run_task task_body]. unfold bind, get_future.
    rewrite Nat.add_0_r in Hout. rewrite Hout, Hp, Hme.
    unfold is_done. rewrite Nat.add_0_r.
    destruct (state.eqb (state_ me) state.done); reflexivity.
  - simpl (0 <? S j) in *. simpl andb in *. destruct (S j <? n) eqn:E.
    + (* a counting node *)
      apply Nat.ltb_lt in E. specialize (Hcnt j eq_refl E).
      cbn [run_task task_body]. unfold bind at 1. unfold get_future. rewrite Hout, Hp.
      unfold bind at 1. rewrite Hme. unfold is_done.
      destruct (state.eqb (state_ me) state.done) eqn:Hdone; cbn [negb]; cbv beta iota.
      * unfold bind at 1. unfold pre_decrement. rewrite Hcnt.
        assert (wrap32 (2 - Z.of_nat d - 1) = (2 - Z.of_nat (S d))%Z) as ->
            by (rewrite wrap32_small; lia).
        exists (set_counter (C + j) (2 - Z.of_nat (S d))%Z h).
        split; [reflexivity |]. split; [reflexivity |]. split; [| split].
        -- intros c Hc. simpl. apply list_lookup_insert_ne. specialize (Hc j eq_refl). lia.
        -- intros j' [= <-] _ _. simpl. apply list_lookup_insert_eq.
           eapply lookup_lt_Some; eauto.
        -- assert (d = 0 \/ d = 1) as [-> | ->] by lia; reflexivity.
      * exists h. repeat split; discriminate.
    + (* the result of needs_any *)
      assert (d = 0) as -> by lia.
      exists h. repeat split; try (intros; apply Nat.ltb_ge in E; lia).
      cbn [run_task task_body]. unfold bind, get_future. rewrite Hout, Hp, Hme.
      unfold is_done. destruct (state.eqb (state_ me) state.done); reflexivity.
Qed.

End Chain.

Lemma decision_shape s d size r :
  decision s d size = Some r ->
  (r = by_done 0%Z /\ state.eqb s state.done = true) \/
  (r = by_fail "error" unknown /\ state.eqb s state.done = false).
Proof.
  unfold decision. destruct (state.eqb s state.done).
  - destruct (Nat.eqb (S d) size); [| discriminate]. intros [= <-]. auto.
  - intros [= <-]. auto.
Qed.

Lemma decision_none s d size :
  decision s d size = None -> state.eqb s state.done = true.
Proof. unfold decision. destruct (state.eqb s state.done); [auto | discriminate]. Qed.

Lemma state_of_futures h h' i : futures h' !! i = futures h !! i -> state_of h' i = state_of h i.
Proof. apply state_of_same. Qed.

Lemma not_done_of_ready s :
  s <> state.pending -> state.eqb s state.done = false -> not_done s = true.
Proof. unfold not_done. destruct s; simpl; intros; congruence. Qed.

Section Cascade.

Variables (L C : nat) (ins : list nat).
Hypothesis ins_nodup : NoDup ins.
Hypothesis ins_old : forall k x, ins !! k = Some x -> x < L.
Hypothesis ins_some : ins <> [].

Let n := length ins.



End Cascade.

Section ChainEvents.

Variables (L C : nat) (ins : list nat).
Hypothesis ins_nodup : NoDup ins.
Hypothesis ins_old : forall k x, ins !! k = Some x -> x < L.
Hypothesis ins_some : ins <> [].

Let n := length ins.

Lemma input_is_source k x : ins !! k = Some x -> x ∈ node_sources L ins k.
Proof. intros Hx. unfold node_sources. rewrite Hx. apply elem_of_app. left. now left. Qed.

Lemma input_not_source_elsewhere k x j :
  ins !! k = Some x -> j <> k -> x ∉ node_sources L ins j.
Proof.
  intros Hx Hne Hin.
  destruct (sources_cases L ins j x Hin) as [Hy | (j' & _ & Hy)].
  - pose proof (NoDup_lookup _ _ _ _ ins_nodup Hx Hy). congruence.
  - apply ins_old in Hx. lia.
Qed.



End ChainEvents.

Lemma on_ready_pending invoke i cb me h :
  futures h !! i = Some me -> is_ready me = false ->
  on_ready invoke i cb h = Normal tt (set_future i (push_back cb me) h).
Proof. apply call_when_ready_pending. Qed.

Lemma expected_all_pending ss :
  ss <> [] -> Forall (fun s => s = state.pending) ss -> expected_all ss = state.pending.
Proof.
  intros Hne Hall. rewrite expected_all_by_counts.
  assert (existsb not_done ss = false /\ done_count ss = 0) as [-> ->].
  { induction Hall as [| s ss -> _ IH]; [auto |].
    simpl existsb. rewrite done_count_cons. simpl.
    destruct ss; [auto |]. apply IH. congruence. }
  destruct ss; [congruence | reflexivity].
Qed.

Section Build.

Variables (L C : nat) (ins : list nat).
Hypothesis ins_nodup : NoDup ins.
Hypothesis ins_old : forall k x, ins !! k = Some x -> x < L.
Hypothesis ins_some : ins <> [].

Let n := length ins.

(** Nothing is built yet. *)
Lemma built_nothing h :
  length (futures h) = L -> length (counters h) = C ->
  (forall x, x ∈ ins -> plain_input h x /\ state_of h x = state.pending) ->
  built L C ins 0 h.
Proof.
  intros HL HC Hplain. split; [lia |]. split; [intros; lia |]. split; [intros; lia |].
  split; [intros; lia |].
  intros k x Hx. destruct (Hplain x) as [Hp Hs]; [apply list_elem_of_lookup; eauto |].
  destruct (plain_pending h x Hp Hs) as (me & Hme & Hr & Hok & Hq).
  exists me, (tasks_ me). simpl. rewrite app_nil_r. auto.
Qed.

(** The store once a node was added: a new future, the lambda of the node
    pushed on its argument [x] and on the node below. *)
Lemma built_next p h h' x cb :
  built L C ins p h ->
  p <= n ->
  cb = node_cb L C ins p ->
  (p < n -> ins !! p = Some x) ->
  futures h' !! (L + p) = Some (new_future unlabelled (clock h)) ->
  length (futures h') = L + S p ->
  (S p <= n -> length (counters h') = C + (S p - 1)) ->
  (forall j, S j < p -> counters h' !! (C + j) = counters h !! (C + j)) ->
  (forall j, S j = p -> S j < n -> counters h' !! (C + j) = Some 2%Z) ->
  (forall j out, S j = p -> futures h !! (L + j) = Some out ->
     futures h' !! (L + j) = Some (push_back cb out)) ->
  (forall me, p < n -> futures h !! x = Some me -> futures h' !! x = Some (push_back cb me)) ->
  (forall i, i < L + p -> i ∈ ins \/ L <= i ->
     (p < n -> i <> x) -> (forall j, S j = p -> i <> L + j) ->
     futures h' !! i = futures h !! i) ->
  built L C ins (S p) h'.
Proof.
  intros (HL & HC & Hnodes & Hcnt & Hins) Hpn -> Hx Hnew HL' HC' Hcold Hcnew Hchild Hinput Hframe.
  split; [exact HL' |]. split; [exact HC' |]. split; [| split].
  - intros k Hk. unfold node_queue.
    destruct (decide (k = p)) as [-> | Hne].
    + exists (new_future unlabelled (clock h)). split; [exact Hnew |]. split; [reflexivity |].
      replace (S p <? S p) with false by (symmetry; apply Nat.ltb_ge; lia). reflexivity.
    + destruct (Hnodes k) as (out & Hout & Hst & Hq); [lia |].
      destruct (decide (S k = p)) as [E | Hne'].
      * exists (push_back (node_cb L C ins p) out).
        split; [now apply Hchild |]. split; [exact Hst |].
        cbn [tasks_ push_back]. rewrite Hq. unfold node_queue.
        replace (S k <? p) with false by (symmetry; apply Nat.ltb_ge; lia).
        replace (S k <? S p) with true by (symmetry; apply Nat.ltb_lt; lia).
        rewrite E. reflexivity.
      * assert (futures h' !! (L + k) = futures h !! (L + k)) as Hsame.
        { apply Hframe; [lia | right; lia | |].
          - intros Hlt E. specialize (Hx Hlt). apply ins_old in Hx. lia.
          - intros j Hj. lia. }
        exists out. rewrite Hsame.
        split; [exact Hout |]. split; [exact Hst |]. rewrite Hq. unfold node_queue.
        replace (S k <? p) with true by (symmetry; apply Nat.ltb_lt; lia).
        replace (S k <? S p) with true by (symmetry; apply Nat.ltb_lt; lia). reflexivity.
  - intros j Hj Hjn. destruct (decide (S j = p)) as [E | Hne].
    + apply Hcnew; [exact E | exact Hjn].
    + rewrite Hcold by lia. apply Hcnt; [lia | exact Hjn].
  - intros k y Hy. destruct (Hins k y Hy) as (me & q & Hme & Hok & Hr & Hq & Hquiet).
    pose proof (lookup_lt_Some _ _ _ Hy) as Hkn. fold n in Hkn.
    destruct (decide (k = p)) as [-> | Hne].
    + specialize (Hx Hkn). assert (y = x) as -> by congruence.
      exists (push_back (node_cb L C ins p) me), q.
      split; [now apply Hinput |]. split; [now apply push_back_ok |]. split; [exact Hr |].
      split; [| exact Hquiet]. cbn [tasks_ push_back]. rewrite Hq.
      replace (p <? p) with false by (symmetry; apply Nat.ltb_ge; lia).
      replace (p <? S p) with true by (symmetry; apply Nat.ltb_lt; lia).
      now rewrite app_nil_r.
    + assert (futures h' !! y = futures h !! y) as Hsame.
      { apply Hframe.
        - apply ins_old in Hy. lia.
        - left. apply list_elem_of_lookup. eauto.
        - intros Hlt E. subst y. specialize (Hx Hlt).
          pose proof (NoDup_lookup _ _ _ _ ins_nodup Hx Hy). congruence.
        - intros j Hj. apply ins_old in Hy. lia. }
      exists me, q. rewrite Hsame.
      split; [exact Hme |]. split; [exact Hok |]. split; [exact Hr |].
      split; [| exact Hquiet]. rewrite Hq.
      destruct (k <? p) eqn:E.
      * apply Nat.ltb_lt in E.
        replace (k <? S p) with true by (symmetry; apply Nat.ltb_lt; lia). reflexivity.
      * apply Nat.ltb_ge in E.
        replace (k <? S p) with false by (symmetry; apply Nat.ltb_ge; lia). reflexivity.
Qed.


End Build.

(** The lambda of a combinator registered on two pending futures. *)
Lemma two_registrations invoke a b cb ma mb (f : nat) h :
  a <> b ->
  futures h !! a = Some ma -> is_ready ma = false ->
  futures h !! b = Some mb -> is_ready mb = false ->
  exists h',
    (on_ready invoke a cb ;;; on_ready invoke b cb ;;; ret f) h = Normal f h' /\
    futures h' !! a = Some (push_back cb ma) /\
    futures h' !! b = Some (push_back cb mb) /\
    (forall i, i <> a -> i <> b -> futures h' !! i = futures h !! i) /\
    length (futures h') = length (futures h) /\
    counters h' = counters h.
Proof.
  intros Hab Ha Hra Hb Hrb.
  unfold bind at 1. rewrite (on_ready_pending _ _ _ _ _ Ha Hra).
  set (h1 := set_future a (push_back cb ma) h).
  assert (futures h1 !! b = Some mb) as Hb1.
  { unfold h1. now rewrite lookup_set_future_ne by congruence. }
  unfold bind. rewrite (on_ready_pending _ _ _ _ _ Hb1 Hrb). unfold ret.
  eexists. split; [reflexivity |]. split; [| split; [| split; [| split]]].
  - rewrite lookup_set_future_ne by congruence. eapply lookup_set_future_eq; eauto.
  - eapply lookup_set_future_eq; eauto.
  - intros i Hia Hib. unfold h1. now rewrite !lookup_set_future_ne by congruence.
  - simpl. now rewrite !length_insert.
  - reflexivity.
Qed.

Lemma needs_all_pair invoke x y rest :
  needs_all invoke (x :: y :: rest) =
  (remainder <- needs_all invoke (y :: rest) ;;
   f <- create_shared unlabelled ;;
   pending <- new_counter 2 ;;
   on_ready invoke x (needs_count_lambda f pending) ;;;
   on_ready invoke remainder (needs_count_lambda f pending) ;;;
   ret f).
Proof. reflexivity. Qed.

Lemma rev_take_S {A} (l : list A) p x :
  l !! p = Some x -> rev (take (S p) l) = x :: rev (take p l).
Proof. intros H. rewrite (take_S_r l p x H), rev_app_distr. reflexivity. Qed.

Section BuildAll.

Variables (L C : nat) (ins : list nat).
Hypothesis ins_nodup : NoDup ins.
Hypothesis ins_old : forall k x, ins !! k = Some x -> x < L.
Hypothesis ins_some : ins <> [].

Let n := length ins.

Variable invoke : task -> nat -> M unit.
Variable h0 : heap.

(** [needs_all(first, rest...)] adds a counting node to the chain. *)
Lemma build_counting p h x :
  built L C ins p h -> untouched L ins h0 h ->
  0 < p -> p < n -> ins !! p = Some x ->
  exists h',
    (f <- create_shared unlabelled ;;
     pending <- new_counter 2 ;;
     on_ready invoke x (needs_count_lambda f pending) ;;;
     on_ready invoke (L + (p - 1)) (needs_count_lambda f pending) ;;;
     ret f) h = Normal (L + p) h' /\
    built L C ins (S p) h' /\ untouched L ins h0 h'.
Proof.
  intros Hb Hun Hp Hpn Hx. pose proof Hb as (HL & HC & Hnodes & Hcnt & Hins).
  destruct p as [| j]; [lia |]. simpl (S j - 1) in *. rewrite Nat.sub_0_r in *.
  destruct (Hins (S j) x Hx) as (me & q & Hme & Hok & Hr & Hq & Hquiet).
  destruct (Hnodes j ltac:(lia)) as (out & Hout & Hst & Hqo).
  pose proof (ins_old _ _ Hx) as HxL.
  unfold bind at 1. unfold create_shared. rewrite HL.
  set (ha := tick (add_future (new_future unlabelled (clock h)) h)).
  unfold bind at 1. unfold new_counter.
  assert (length (counters ha) = C + j) as ->.
  { apply HC. fold n. lia. }
  set (hb := add_counter (wrap32 2) ha).
  set (cb := needs_count_lambda (L + S j) (C + j)).
  assert (forall i, i < L + S j -> futures hb !! i = futures h !! i) as Hold.
  { intros i Hi. unfold hb, ha. simpl. apply lookup_app_l. lia. }
  destruct (two_registrations invoke x (L + j) cb me out (L + S j) hb)
    as (h' & E & Hx' & Hc' & Hfr & Hlen & Hcs); try (rewrite Hold by lia; assumption).
  { lia. }
  { exact Hr. }
  { now apply is_ready_false. }
  exists h'. split; [exact E |].
  assert (cb = node_cb L C ins (S j)) as Hcb.
  { unfold node_cb. fold n. now replace (S j <? n) with true by (symmetry; apply Nat.ltb_lt; lia). }
  split.
  - apply (built_next L C ins ins_nodup ins_old (S j) h h' x cb Hb); try assumption; try lia.
    + auto.
    + rewrite Hfr by lia. unfold hb, ha. simpl. rewrite <- HL. apply lookup_fresh.
    + rewrite Hlen. unfold hb, ha. simpl. rewrite length_app. simpl. lia.
    + intros _. rewrite Hcs. unfold hb, ha. simpl. rewrite length_app. simpl.
      specialize (HC ltac:(fold n; lia)). lia.
    + intros j' Hj'. rewrite Hcs. unfold hb, ha. simpl. apply lookup_app_l. lia.
    + intros j' [= ->] _. rewrite Hcs. unfold hb, ha. simpl.
      specialize (HC ltac:(fold n; lia)).
      rewrite <- HC. apply lookup_fresh_counter.
    + intros j' out' [= ->] Hout'. assert (out' = out) as -> by congruence. exact Hc'.
    + intros me' _ Hme'. assert (me' = me) as -> by congruence. exact Hx'.
    + intros i Hi _ Hix Hij. rewrite Hfr; [apply Hold; lia | auto | apply Hij; reflexivity].
  - intros i Hi Hni. rewrite Hfr, Hold by (try lia; intros ->; apply Hni, list_elem_of_lookup; eauto).
    now apply Hun.
Qed.

(** [needs_all(first)] starts the chain. *)
Lemma build_bottom x :
  built L C ins 0 h0 -> ins !! 0 = Some x ->
  exists h',
    needs_all_one invoke x h0 = Normal L h' /\
    built L C ins 1 h' /\ untouched L ins h0 h'.
Proof.
  intros Hb Hx. pose proof Hb as (HL & HC & Hnodes & Hcnt & Hins).
  destruct (Hins 0 x Hx) as (me & q & Hme & Hok & Hr & Hq & Hquiet).
  pose proof (ins_old _ _ Hx) as HxL.
  assert (length (futures h0) = L) as HL' by lia.
  unfold needs_all_one. unfold bind at 1. unfold create_shared. rewrite HL'.
  set (ha := tick (add_future (new_future unlabelled (clock h0)) h0)).
  assert (forall i, i < L -> futures ha !! i = futures h0 !! i) as Hold.
  { intros i Hi. unfold ha. simpl. apply lookup_app_l. lia. }
  assert (futures ha !! x = Some me) as Hme' by (rewrite Hold by lia; exact Hme).
  unfold bind. rewrite (on_ready_pending _ _ _ _ _ Hme' Hr). unfold ret.
  eexists. split; [reflexivity |].
  assert (Hn : 0 < n) by (unfold n; destruct ins; [congruence | simpl; lia]).
  split.
  - apply (built_next L C ins ins_nodup ins_old 0 h0 _ x (needs_first_lambda L) Hb);
      try lia; try reflexivity.
    + auto.
    + rewrite Nat.add_0_r, lookup_set_future_ne by lia. unfold ha. simpl. rewrite <- HL'.
      apply lookup_fresh.
    + simpl. rewrite length_insert, length_app. simpl. lia.
    + intros _. simpl. specialize (HC ltac:(lia)). simpl in HC. lia.
    + intros me' _ Hme''. assert (me' = me) as -> by congruence.
      eapply lookup_set_future_eq; eauto.
    + intros i Hi _ Hix _. rewrite lookup_set_future_ne by (specialize (Hix Hn); congruence).
      apply Hold. lia.
  - intros i Hi Hni. rewrite lookup_set_future_ne.
    + now apply Hold.
    + intros ->. apply Hni, list_elem_of_lookup. eauto.
Qed.

Hypothesis base : built L C ins 0 h0.

Lemma build_all p :
  0 < p -> p <= n ->
  exists h',
    needs_all invoke (rev (take p ins)) h0 = Normal (L + (p - 1)) h' /\
    built L C ins p h' /\ untouched L ins h0 h'.
Proof.
  induction p as [| p IH]; intros Hp Hpn; [lia |].
  assert (exists x, ins !! p = Some x) as [x Hx].
  { apply lookup_lt_is_Some. fold n. lia. }
  rewrite (rev_take_S _ _ _ Hx).
  destruct p as [| p].
  - simpl. rewrite Nat.add_0_r. now apply build_bottom.
  - destruct IH as (h1 & E1 & Hb1 & Hu1); [lia | lia |].
    assert (exists y l, rev (take (S p) ins) = y :: l) as (y & l & Hyl).
    { destruct (rev (take (S p) ins)) as [| y l] eqn:E; [| eauto].
      apply (f_equal (@length nat)) in E. rewrite length_rev, length_take in E.
      change (length (@nil nat)) with 0 in E. unfold n in Hpn. lia. }
    rewrite Hyl in *. rewrite needs_all_pair. unfold bind at 1. rewrite E1.
    simpl (S p - 0). simpl (S (S p) - 1).
    apply (build_counting (S p) h1 x Hb1 Hu1); [lia | lia | exact Hx].
Qed.

End BuildAll.

Lemma expected_all_nest s ss :
  expected_all [s; expected_all ss] = expected_all (s :: ss).
Proof.
  unfold expected_all. simpl.
  destruct (existsb not_done ss), (forallb (fun s0 => state.eqb s0 state.done) ss), s; reflexivity.
Qed.






Section Result.

Variables (L C : nat) (ins : list nat).
Hypothesis ins_nodup : NoDup ins.
Hypothesis ins_old : forall k x, ins !! k = Some x -> x < L.
Hypothesis ins_some : ins <> [].

Let n := length ins.




End Result.

(** *** The collection form of [needs_any] *)

Lemma register_on_pending invoke cb l :
  forall h,
    NoDup l ->
    (forall i, i ∈ l -> exists me, futures h !! i = Some me /\ is_ready me = false) ->
    exists h',
      register_all invoke l cb h = Normal tt h' /\
      (forall i me, i ∈ l -> futures h !! i = Some me ->
         futures h' !! i = Some (push_back cb me)) /\
      (forall i, i ∉ l -> futures h' !! i = futures h !! i).
Proof.
  induction l as [| a l IH]; intros h Hnd Hpend.
  - exists h. split; [reflexivity |]. split; [| auto]. intros i me Hi. inversion Hi.
  - apply NoDup_cons in Hnd as [Ha Hnd].
    destruct (Hpend a ltac:(left)) as (ma & Hma & Hra).
    cbn [register_all]. unfold bind. rewrite (on_ready_pending _ _ _ _ _ Hma Hra).
    set (h1 := set_future a (push_back cb ma) h).
    assert (forall i, i <> a -> futures h1 !! i = futures h !! i) as H1.
    { intros i Hi. unfold h1. now rewrite lookup_set_future_ne by congruence. }
    destruct (IH h1 Hnd) as (h' & E & Hin & Hout).
    { intros i Hi. rewrite H1 by (intros ->; contradiction). apply Hpend. now right. }
    exists h'. split; [exact E |]. split.
    + intros i me Hi Hme. apply elem_of_cons in Hi as [-> | Hi].
      * rewrite Hout by assumption. assert (me = ma) as -> by congruence.
        eapply lookup_set_future_eq; eauto.
      * apply Hin; [exact Hi |]. rewrite H1; [exact Hme |]. intros ->. contradiction.
    + intros i Hi. apply not_elem_of_cons in Hi as [Hia Hi]. rewrite Hout, H1; auto.
Qed.

(** The collection form of [needs_any]: the first input to be resolved
    decides. *)
Lemma needs_any_vector_first fuel h l x r :
  NoDup l ->
  (forall i, i ∈ l -> plain_input h i /\ state_of h i = state.pending) ->
  x ∈ l ->
  exists h1 h2 out,
    needs_any_vector (run_task (S fuel)) l h = Normal (length (futures h)) h1 /\
    resolve (run_task (S fuel)) x r h1 = Normal tt h2 /\
    futures h2 !! length (futures h) = Some out /\
    state_ out = (if state.eqb (target_state r) state.done
                  then state.done else state.failed) /\
    (state_ out = state.failed -> failure_reason out = Returns "error") /\
    (forall i, i ∈ l -> i <> x -> state_of h2 i = state.pending).
Proof.
  intros Hnd Hplain Hx.
  set (f := length (futures h)).
  set (cb := needs_first_lambda f).
  set (ha := tick (add_future (new_future unlabelled (clock h)) h)).
  assert (forall i, i ∈ l -> i < f /\ futures ha !! i = futures h !! i) as Hold.
  { intros i Hi. destruct (Hplain i Hi) as [(me & Hme & _) _].
    pose proof (lookup_lt_Some _ _ _ Hme). split; [assumption |].
    unfold ha. simpl. now apply lookup_app_l. }
  destruct (register_on_pending (run_task (S fuel)) cb l ha Hnd) as (h1 & E1 & Hin & Hout).
  { intros i Hi. destruct (Hplain i Hi) as [Hp Hs].
    destruct (plain_pending h i Hp Hs) as (me & Hme & Hr & _).
    exists me. destruct (Hold i Hi) as [_ ->]. auto. }
  destruct (Hplain x Hx) as [Hp Hs].
  destruct (plain_pending h x Hp Hs) as (me & Hme & Hr & Hok & Hq).
  destruct (Hold x Hx) as [Hxf Hxa].
  assert (futures h1 !! x = Some (push_back cb me)) as Hx1.
  { apply Hin; [exact Hx |]. now rewrite Hxa. }
  assert (futures h1 !! f = Some (new_future unlabelled (clock h))) as Hf1.
  { rewrite Hout.
    - unfold ha, f. apply lookup_new_after_create.
    - intros Hfl. apply Hold in Hfl. lia. }
  assert (needs_any_vector (run_task (S fuel)) l h = Normal f h1) as Hbuild.
  { unfold needs_any_vector, bind, create_shared. fold f. fold cb. fold ha.
    now rewrite E1. }
  assert (forall i, i ∈ l -> i <> x -> state_of h1 i = state.pending) as Hothers.
  { intros i Hi Hne. destruct (Hplain i Hi) as [Hpi Hsi].
    destruct (plain_pending h i Hpi Hsi) as (mi & Hmi & Hri & _).
    destruct (Hold i Hi) as [_ Hia].
    rewrite (state_of_lookup h1 i (push_back cb mi)).
    - simpl. now apply is_ready_false.
    - apply Hin; [exact Hi |]. now rewrite Hia. }
  exists h1. rewrite Hbuild. clear Hbuild.
  rewrite (resolve_eq _ _ _ _ _ Hx1).
  set (me' := resolved_future _ _ _ (push_back cb me)).
  set (hm := set_future x me' (tick h1)).
  cbn [tasks_ push_back]. rewrite run_tasks_app. unfold bind.
  assert (futures hm !! x = Some me') as Hxm.
  { eapply lookup_set_future_eq. simpl. exact Hx1. }
  destruct (run_quiet_batch fuel x me' (tasks_ me) hm Hq Hxm) as (hq & -> & Ef & _).
  { apply resolved_future_ok, effect_of_fits. }
  rewrite run_tasks_one.
  assert (futures hq !! f = Some (new_future unlabelled (clock h))) as Hfq.
  { rewrite Ef. unfold hm. rewrite lookup_set_future_ne by lia. exact Hf1. }
  assert (futures hq !! x = Some me') as Hxq by (now rewrite Ef).
  assert (forall hz out, futures hz = <[f := out]> (futures hq) ->
            forall i, i ∈ l -> i <> x -> state_of hz i = state.pending) as Hrest.
  { intros hz out Ez i Hi Hne. rewrite <- (Hothers i Hi Hne).
    apply state_of_futures. rewrite Ez, Ef.
    destruct (Hold i Hi) as [Hlt _].
    rewrite list_lookup_insert_ne by lia.
    unfold hm. now rewrite lookup_set_future_ne by congruence. }
  unfold cb. cbn [run_task task_body]. unfold bind at 1. unfold get_future. rewrite Hfq.
  change (is_ready (new_future unlabelled (clock h))) with false. cbv iota.
  unfold bind at 1. rewrite Hxq.
  assert (is_done me' = state.eqb (target_state r) state.done) as -> by reflexivity.
  destruct (state.eqb (target_state r) state.done); cbn [negb]; cbv iota.
  - unfold done. rewrite (apply_state_eq _ _ _ _ _ _ Hfq) by discriminate.
    cbn [tasks_ new_future run_tasks]. unfold ret.
    eexists _, _. split; [reflexivity |]. split; [reflexivity |]. split.
    + eapply lookup_set_future_eq. simpl. exact Hfq.
    + split; [reflexivity |]. split; [discriminate |].
      eapply Hrest. reflexivity.
  - unfold fail. rewrite (apply_state_eq _ _ _ _ _ _ Hfq) by discriminate.
    cbn [tasks_ new_future run_tasks]. unfold ret.
    eexists _, _. split; [reflexivity |]. split; [reflexivity |]. split.
    + eapply lookup_set_future_eq. simpl. exact Hfq.
    + split; [reflexivity |]. split; [reflexivity |].
      eapply Hrest. reflexivity.
Qed.


(** *** The inputs of the examples *)

Lemma two_pending_plain i :
  i ∈ [0; 1] -> plain_input two_pending i /\ state_of two_pending i = state.pending.
Proof.
  intros Hi. apply elem_of_cons in Hi as [-> | Hi];
    [| apply elem_of_cons in Hi as [-> | Hi]; [| inversion Hi]].
  - split; [| reflexivity]. eexists. split; [reflexivity |].
    split; [split; discriminate | constructor].
  - split; [| reflexivity]. eexists. split; [reflexivity |].
    split; [split; discriminate | constructor].
Defined.

Lemma two_pending_nodup : NoDup [0; 1].
Proof.
  apply NoDup_cons. split.
  - intros H. apply elem_of_cons in H as [H | H]; [discriminate | inversion H].
  - apply NoDup_cons. split; [intros H; inversion H | apply NoDup_nil_2].
Defined.

(** C2: the collection form of [needs_any] over pending inputs fails with
    reason "error" when the first input to be resolved is failed or
    cancelled, the other inputs being still pending. *)
Theorem needs_any_fails_with_first_failure fuel h l x r :
  NoDup l ->
  (forall i, i ∈ l -> plain_input h i /\ state_of h i = state.pending) ->
  x ∈ l ->
  target_state r <> state.done ->
  exists h1 h2 out,
    needs_any_vector (run_task (S fuel)) l h = Normal (length (futures h)) h1 /\
    resolve (run_task (S fuel)) x r h1 = Normal tt h2 /\
    futures h2 !! length (futures h) = Some out /\
    state_ out = state.failed /\
    failure_reason out = Returns "error" /\
    (forall i, i ∈ l -> i <> x -> state_of h2 i = state.pending).
Proof.
  intros Hnd Hplain Hx Hr.
  destruct (needs_any_vector_first fuel h l x r Hnd Hplain Hx)
    as (h1 & h2 & out & E1 & E2 & Hout & Hst & Hreason & Hrest).
  assert (state_ out = state.failed) as Hfailed.
  { rewrite Hst. destruct r; simpl in *; congruence. }
  exists h1, h2, out. auto 10.
Qed.

Lemma needs_any_fails_with_first_failure_witness :
  exists h1 h2 out,
    needs_any_vector (run_task 1) [0; 1] two_pending = Normal 2 h1 /\
    resolve (run_task 1) 0 by_cancel h1 = Normal tt h2 /\
    futures h2 !! 2 = Some out /\
    state_ out = state.failed /\
    failure_reason out = Returns "error" /\
    (forall i, i ∈ [0; 1] -> i <> 0 -> state_of h2 i = state.pending).
Proof.
  apply (needs_any_fails_with_first_failure 0 two_pending [0; 1] 0 by_cancel).
  - exact two_pending_nodup.
  - exact two_pending_plain.
  - apply elem_of_cons. left. reflexivity.
  - simpl. discriminate.
Defined.

(** *** The theorems at the examples *)





Lemma accessors_check_the_state_witness :
  value (resolved_future (store_value 1%Z) state.done 1 (new_future unlabelled 0)) = Returns 1%Z /\
  failure (resolved_future (store_value 1%Z) state.done 1 (new_future unlabelled 0)) =
    Raises (runtime_error "future is not failed").
Proof.
  assert (heap_ok resolved_once) as Hok.
  { repeat constructor; simpl; congruence. }
  destruct (accessors_check_the_state resolved_once 0 _ Hok eq_refl)
    as (Hv & _ & _ & Hf).
  split.
  - apply Hv. reflexivity.
  - apply Hf. discriminate.
Defined.

Lemma three_pending_plain i :
  i ∈ [0; 1; 2] -> plain_input three_pending i /\ state_of three_pending i = state.pending.
Proof.
  intros Hi. apply elem_of_cons in Hi as [-> | Hi];
    [| apply elem_of_cons in Hi as [-> | Hi];
       [| apply elem_of_cons in Hi as [-> | Hi]; [| inversion Hi]]];
    (split; [| reflexivity]); eexists; (split; [reflexivity |]);
    (split; [split; discriminate | constructor]).
Defined.


(** ** What every operation keeps *)

Section RespectsApi.

Variable invoke : task -> nat -> M unit.
Hypothesis invoke_respects : forall t self, respects (invoke t self).

Lemma respects_then self ok err : respects (then_ invoke self ok err).
Proof.
  unfold then_.
  apply respects_bind; [apply respects_create_shared | intros f].
  apply respects_bind; [now apply respects_call_when_ready | intros _].
  apply respects_ret.
Qed.

Lemma respects_register_all first code : respects (register_all invoke first code).
Proof.
  induction first as [| it rest IH]; simpl; [apply respects_ret |].
  apply respects_bind; [now apply respects_call_when_ready | intros _; exact IH].
Qed.

Lemma respects_needs_all_one first : respects (needs_all_one invoke first).
Proof.
  unfold needs_all_one.
  apply respects_bind; [apply respects_create_shared | intros f].
  apply respects_bind; [now apply respects_call_when_ready | intros _].
  apply respects_ret.
Qed.

Lemma respects_needs_all_vector first : respects (needs_all_vector invoke first).
Proof.
  unfold needs_all_vector.
  apply respects_bind; [apply respects_create_shared | intros f].
  apply respects_bind; [apply respects_new_counter | intros c].
  apply respects_bind; [apply respects_register_all | intros _].
  apply respects_ret.
Qed.

Lemma respects_needs_all args : respects (needs_all invoke args).
Proof.
  induction args as [| first rest IH].
  - simpl. unfold needs_all_none.
    apply respects_bind; [apply respects_create_shared | intros f].
    apply respects_bind; [now apply respects_done | intros _]. apply respects_ret.
  - destruct rest as [| y l]; [apply respects_needs_all_one |].
    rewrite needs_all_pair.
    apply respects_bind; [exact IH | intros remainder].
    apply respects_bind; [apply respects_create_shared | intros f].
    apply respects_bind; [apply respects_new_counter | intros c].
    apply respects_bind; [now apply respects_call_when_ready | intros _].
    apply respects_bind; [now apply respects_call_when_ready | intros _].
    apply respects_ret.
Qed.

Lemma respects_needs_any_vector first : respects (needs_any_vector invoke first).
Proof.
  unfold needs_any_vector.
  apply respects_bind; [apply respects_create_shared | intros f].
  apply respects_bind; [apply respects_register_all | intros _].
  apply respects_ret.
Qed.

Lemma respects_needs_any args : respects (needs_any invoke args).
Proof.
  destruct args as [| first rest].
  - simpl. unfold needs_any_none.
    apply respects_bind; [apply respects_create_shared | intros f].
    apply respects_bind; [now apply respects_fail | intros _]. apply respects_ret.
  - destruct rest as [| y l]; [apply respects_needs_all_one |].
    unfold needs_any.
    apply respects_bind; [apply respects_needs_all | intros remainder].
    apply respects_bind; [apply respects_create_shared | intros f].
    apply respects_bind; [now apply respects_call_when_ready | intros _].
    apply respects_bind; [now apply respects_call_when_ready | intros _].
    apply respects_ret.
Qed.

Lemma respects_run_events evs : respects (run_events invoke evs).
Proof.
  induction evs as [| [self r] rest IH]; simpl; [apply respects_ret |].
  apply respects_bind; [now apply respects_resolve | intros _; exact IH].
Qed.

End RespectsApi.

(** X1: whatever an operation of the header does, whether it returns or
    lets an exception out: no future disappears from the store, no future
    that has left [pending] becomes pending again, and if every resolved
    future had an empty queue and every failed future its failure record
    before, the same holds after. *)
Theorem operations_keep_the_store fuel :
  (forall self r, respects (resolve (run_task fuel) self r)) /\
  (forall self code, respects (call_when_ready (run_task fuel) self code)) /\
  (forall self ok err, respects (then_ (run_task fuel) self ok err)) /\
  (forall args, respects (needs_all (run_task fuel) args)) /\
  (forall first, respects (needs_all_vector (run_task fuel) first)) /\
  (forall args, respects (needs_any (run_task fuel) args)) /\
  (forall first, respects (needs_any_vector (run_task fuel) first)) /\
  (forall evs, respects (run_events (run_task fuel) evs)).
Proof.
  pose proof (respects_run_task fuel) as H.
  repeat split; intros.
  - now apply respects_resolve.
  - now apply respects_call_when_ready.
  - now apply respects_then.
  - now apply respects_needs_all.
  - now apply respects_needs_all_vector.
  - now apply respects_needs_any.
  - now apply respects_needs_any_vector.
  - now apply respects_run_events.
Qed.

(** ** The filtered registrations *)




(** *** The theorem at an example, for each resolving call *)



(** ** A continuation that throws *)

(** X5: when a continuation of the queue throws while the resolving call
    dispatches, the exception leaves the resolving call; the future is
    resolved and its queue is empty, so the continuations queued behind
    the one that threw are not called, now or later. *)
Theorem throwing_continuation_discards_the_rest fuel h self me q1 u e q2 r :
  futures h !! self = Some me ->
  tasks_ me = q1 ++ ready_code u :: q2 ->
  Forall (fun t => returns_normally t = true) q1 ->
  raises u = Some e ->
  exists hq me',
    run_tasks (run_task (S fuel)) q1 self
      (set_future self (resolved_future (effect_of r) (target_state r) (clock h) me) (tick h))
      = Normal tt hq /\
    resolve (run_task (S fuel)) self r h =
      Throws e (logged (tag u) (saw_future self (target_state r)) hq) /\
    futures hq !! self = Some me' /\
    state_ me' = target_state r /\
    tasks_ me' = [].
Proof.
  intros Hme Hq Hquiet Hu.
  rewrite (resolve_eq _ _ _ _ _ Hme).
  set (me' := resolved_future (effect_of r) (target_state r) (clock h) me).
  set (hm := set_future self me' (tick h)).
  assert (futures hm !! self = Some me') as Hme'.
  { eapply lookup_set_future_eq. simpl. exact Hme. }
  assert (future_ok me') as Hok' by (apply resolved_future_ok, effect_of_fits).
  destruct (run_quiet_batch fuel self me' q1 hm Hquiet Hme' Hok') as (hq & E & Ef & _).
  exists hq, me'. split; [exact E |].
  rewrite Hq, run_tasks_app. unfold bind at 1. rewrite E.
  cbn [run_tasks]. unfold bind at 1.
  cbn [run_task task_body]. unfold bind at 1. unfold get_future. rewrite Ef, Hme'.
  unfold run_user, bind, write_log. rewrite Hu. unfold throw.
  repeat split.
Qed.

(** ** The order of the calls *)

Lemma on_ready_each_pending invoke self us :
  forall me h,
    futures h !! self = Some me -> is_ready me = false ->
    exists me',
      on_ready_each invoke self us h = Normal tt (set_future self me' h) /\
      tasks_ me' = tasks_ me ++ map ready_code us /\
      is_ready me' = false /\
      (forall code s t, resolved_future code s t me' = resolved_future code s t me).
Proof.
  induction us as [| u us IH]; intros me h Hme Hr.
  - exists me. cbn [on_ready_each]. unfold ret, set_future.
    rewrite list_insert_id by assumption. destruct h. simpl.
    split; [reflexivity |]. rewrite app_nil_r. auto.
  - cbn [on_ready_each]. unfold bind. rewrite (on_ready_pending _ _ _ _ _ Hme Hr).
    destruct (IH (push_back (ready_code u) me) (set_future self (push_back (ready_code u) me) h))
      as (me' & E & Hq & Hr' & Hres).
    { eapply lookup_set_future_eq. exact Hme. }
    { exact Hr. }
    exists me'. rewrite E, set_future_twice. split; [reflexivity |].
    split; [| split; [exact Hr' |]].
    + rewrite Hq. cbn [tasks_ push_back map]. now rewrite <- app_assoc.
    + intros. rewrite Hres. apply resolved_future_push_back.
Qed.

Lemma run_ready_codes fuel self me us :
  forall h,
    futures h !! self = Some me ->
    Forall (fun u => raises u = None) us ->
    exists h',
      run_tasks (run_task (S fuel)) (map ready_code us) self h = Normal tt h' /\
      futures h' = futures h /\
      log h' = log h ++ map (fun u => (tag u, saw_future self (state_ me))) us.
Proof.
  induction us as [| u us IH]; intros h Hme Hus.
  - exists h. simpl. rewrite app_nil_r. auto.
  - apply Forall_cons in Hus as [Hu Hus].
    cbn [map run_tasks]. unfold bind at 1.
    cbn [run_task task_body]. unfold bind at 1. unfold get_future. rewrite Hme.
    rewrite (run_user_returns _ _ _ Hu).
    destruct (IH (logged (tag u) (saw_future self (state_ me)) h) Hme Hus) as (h' & E & Ef & El).
    exists h'. split; [exact E |]. split; [exact Ef |].
    rewrite El. simpl. now rewrite <- app_assoc.
Qed.

(** X6: on a pending future whose queue holds continuations of the caller
    that return, continuations that return are registered with [on_ready],
    one after the other.  The resolving call then returns, and it calls
    them in the order of their registration, each one once with the
    resolved future, after the continuations that were queued before
    them: the trace is the trace of the resolving call alone followed by
    their entries in that order, and the futures are the same. *)
Theorem continuations_run_in_registration_order fuel h self us r :
  plain_input h self -> state_of h self = state.pending ->
  Forall (fun u => raises u = None) us ->
  exists h0 h1,
    resolve (run_task (S fuel)) self r h = Normal tt h0 /\
    (on_ready_each (run_task (S fuel)) self us ;;;
     resolve (run_task (S fuel)) self r) h = Normal tt h1 /\
    futures h1 = futures h0 /\
    log h1 = log h0 ++ map (fun u => (tag u, saw_future self (target_state r))) us.
Proof.
  intros Hp Hs Hus.
  destruct (plain_pending h self Hp Hs) as (me & Hme & Hr & Hok & Hq).
  destruct (on_ready_each_pending (run_task (S fuel)) self us me h Hme Hr)
    as (me' & E & Hq' & Hr' & Hres).
  rewrite (resolve_eq _ _ _ _ _ Hme).
  unfold bind at 1. rewrite E.
  rewrite (resolve_eq _ _ _ _ me') by (eapply lookup_set_future_eq; exact Hme).
  rewrite Hres, tick_set_future, set_future_twice, Hq', run_tasks_app.
  set (m1 := resolved_future (effect_of r) (target_state r) (clock h) me).
  change (clock (set_future self me' h)) with (clock h). fold m1.
  set (hm := set_future self m1 (tick h)).
  assert (futures hm !! self = Some m1) as Hm1.
  { eapply lookup_set_future_eq. simpl. exact Hme. }
  assert (future_ok m1) as Hok1 by (apply resolved_future_ok, effect_of_fits).
  destruct (run_quiet_batch fuel self m1 (tasks_ me) hm Hq Hm1 Hok1) as (h0 & E0 & Ef0 & _).
  unfold bind. rewrite E0.
  destruct (run_ready_codes fuel self m1 us h0) as (h1 & E1 & Ef1 & El1);
    [now rewrite Ef0 | exact Hus |].
  exists h0, h1. auto.
Qed.

(** ** More on [then] *)

(** The resolving call on a future whose queue ends with [t], the
    continuations before it returning. *)
Lemma resolve_runs_last fuel a ma q t r h :
  futures h !! a = Some ma ->
  tasks_ ma = q ++ [t] ->
  Forall (fun t => returns_normally t = true) q ->
  exists hq,
    futures hq = <[a := resolved_future (effect_of r) (target_state r) (clock h) ma]> (futures h) /\
    counters hq = counters h /\
    resolve (run_task (S fuel)) a r h = run_task (S fuel) t a hq.
Proof.
  intros Hma Hq Hquiet. rewrite (resolve_eq _ _ _ _ _ Hma).
  set (ma' := resolved_future _ _ _ ma). set (hm := set_future a ma' (tick h)).
  rewrite Hq, run_tasks_app. unfold bind.
  destruct (run_quiet_batch fuel a ma' q hm Hquiet) as (hq & -> & Ef & Ec).
  { eapply lookup_set_future_eq. simpl. exact Hma. }
  { apply resolved_future_ok, effect_of_fits. }
  exists hq. split; [exact Ef |]. split; [exact Ec |]. apply run_tasks_one.
Qed.

(** A resolving call on a pending future with an empty queue. *)
Lemma resolve_fresh invoke f out r h :
  futures h !! f = Some out -> tasks_ out = [] ->
  resolve invoke f r h =
  Normal tt (set_future f (resolved_future (effect_of r) (target_state r) (clock h) out) (tick h)).
Proof. intros Hout Hq. rewrite (resolve_eq _ _ _ _ _ Hout), Hq. reflexivity. Qed.

(** The reason [then] gives the outer future when the source is not done
    and there is no callback for it. *)
Lemma then_lambda_gives_up fuel f a ok out ma h :
  futures h !! f = Some out -> is_ready out = false -> tasks_ out = [] ->
  futures h !! a = Some ma -> future_ok ma ->
  is_ready ma = true -> is_done ma = false ->
  exists msg component,
    (if is_failed ma
     then failure_reason ma = Returns msg /\ component = "chained future"
     else msg = "cancelled" /\ component = unknown) /\
    run_task (S fuel) (then_lambda f ok None) a h =
      Normal tt (set_future f (resolved_future (store_failure (fail_exception msg) component)
                                 state.failed (clock h) out) (tick h)).
Proof.
  intros Hout Hp Hq Hma [_ Hex] Hr Hd.
  cbn [run_task task_body]. unfold try_catch, bind, get_future.
  rewrite Hout, Hp, Hma, Hd.
  destruct (is_failed ma) eqn:Hf.
  - unfold is_failed in Hf. apply state_eqb_eq in Hf. specialize (Hex Hf).
    destruct (ex_ ma) as [fe |] eqn:Hfe; [| congruence].
    exists (future_exception.reason fe), "chained future".
    unfold failure_reason. rewrite Hf, Hfe. simpl negb. cbv iota.
    split; [split; reflexivity |].
    cbn [lift ret]. unfold fail.
    rewrite (apply_state_eq _ _ _ _ _ _ Hout) by discriminate. rewrite Hq. reflexivity.
  - assert (is_cancelled ma = true) as ->.
    { unfold is_ready, is_done, is_failed, is_cancelled in *.
      destruct (state_ ma); simpl in *; congruence. }
    exists "cancelled", unknown. split; [split; reflexivity |].
    unfold fail.
    rewrite (apply_state_eq _ _ _ _ _ _ Hout) by discriminate. rewrite Hq. reflexivity.
Qed.

(** X7: [then] without a callback for failures, on a pending source whose
    queue holds continuations of the caller that return; the source is
    resolved by [fail] or [cancel], after the call of [then] or before it,
    and nothing is registered on the outer future.  Every call returns
    and the outer future fails, with the reason of the source (the reason
    given to [fail] up to its first NUL) when the source failed and with
    reason "cancelled" when it was cancelled; [ok] is not consulted. *)
Theorem then_passes_a_failure_on fuel h a ok r :
  plain_input h a -> state_of h a = state.pending ->
  target_state r <> state.done ->
  (exists h1 h2 out,
     then_ (run_task (S fuel)) a ok None h = Normal (length (futures h)) h1 /\
     resolve (run_task (S fuel)) a r h1 = Normal tt h2 /\
     futures h2 !! length (futures h) = Some out /\
     state_ out = state.failed /\
     failure_reason out =
       Returns (match r with by_fail m _ => c_str m | _ => "cancelled" end)) /\
  (exists h1 h2 out,
     resolve (run_task (S fuel)) a r h = Normal tt h1 /\
     then_ (run_task (S fuel)) a ok None h1 = Normal (length (futures h)) h2 /\
     futures h2 !! length (futures h) = Some out /\
     state_ out = state.failed /\
     failure_reason out =
       Returns (match r with by_fail m _ => c_str m | _ => "cancelled" end)).
Proof.
  intros Hp Hs Hr.
  destruct (plain_pending h a Hp Hs) as (ma & Hma & Hra & Hoka & Hqa).
  pose proof (lookup_lt_Some _ _ _ Hma) as Hlt.
  set (f := length (futures h)) in *.
  set (ma' := fun t m => resolved_future (effect_of r) (target_state r) t m).
  assert (forall t m, future_ok (ma' t m) /\ is_ready (ma' t m) = true /\
                      is_done (ma' t m) = false) as Hres.
  { intros. split; [apply resolved_future_ok, effect_of_fits |].
    split; [apply is_ready_resolved_future, target_state_not_pending |].
    unfold is_done, ma'. simpl. destruct r; simpl in *; congruence. }
  assert (forall t m msg component,
            (if is_failed (ma' t m)
             then failure_reason (ma' t m) = Returns msg /\ component = "chained future"
             else msg = "cancelled" /\ component = unknown) ->
            c_str msg = match r with by_fail m _ => c_str m | _ => "cancelled" end) as Hmsg.
  { intros t m msg component. unfold ma', is_failed, failure_reason.
    destruct r; simpl in *; try congruence.
    - intros [H _]. injection H as <-. apply c_str_idem.
    - intros [-> _]. reflexivity. }
  split.
  - destruct (then_pending (S fuel) a ok None ma h Hma Hra) as (h1 & E1 & Ha1 & Hf1 & _ & _).
    fold f in E1, Ha1, Hf1.
    destruct (resolve_runs_last fuel a _ (tasks_ ma) _ r h1 Ha1 eq_refl Hqa)
      as (hq & Ef & _ & E2).
    destruct (then_lambda_gives_up fuel f a ok (new_future unlabelled (clock h))
                (ma' (clock h1) (push_back (then_lambda f ok None) ma)) hq)
      as (msg & component & Hm & E3); try apply Hres; try reflexivity.
    { rewrite Ef, list_lookup_insert_ne by lia. exact Hf1. }
    { rewrite Ef. apply list_lookup_insert_eq. exact (lookup_lt_Some _ _ _ Ha1). }
    apply Hmsg in Hm.
    exists h1. eexists _, _. split; [exact E1 |]. split; [rewrite E2; exact E3 |].
    split.
    + eapply lookup_set_future_eq. simpl. rewrite Ef, list_lookup_insert_ne by lia. exact Hf1.
    + split; [reflexivity |]. unfold failure_reason. simpl. now rewrite Hm.
  - destruct (resolve_quiet_lookup fuel h a ma r Hma Hqa) as (h1 & E1 & Ha1 & Hlen1 & _).
    set (h0 := tick (add_future (new_future unlabelled (clock h1)) h1)).
    destruct (then_lambda_gives_up fuel f a ok (new_future unlabelled (clock h1))
                (ma' (clock h) ma) h0)
      as (msg & component & Hm & E3); try apply Hres; try reflexivity.
    { unfold f. rewrite <- Hlen1. apply lookup_new_after_create. }
    { unfold h0. rewrite lookup_old_after_create by lia. exact Ha1. }
    apply Hmsg in Hm.
    exists h1. eexists _, _. split; [exact E1 |]. split.
    { unfold f. rewrite <- Hlen1. apply (then_ready _ a ok None _ h1 _ Ha1).
      - apply Hres.
      - rewrite Hlen1. exact E3. }
    split.
    + eapply lookup_set_future_eq. simpl. unfold f. rewrite <- Hlen1.
      apply (lookup_new_after_create h1).
    + split; [reflexivity |]. unfold failure_reason. simpl. now rewrite Hm.
Qed.

(** ** Exceptions and recovery in [then] *)

(** The lambda of [then] when the callback it calls throws an exception
    that one of the two [catch] clauses matches. *)
Lemma then_lambda_catches fuel f a ok err out ma h e k :
  futures h !! f = Some out -> is_ready out = false ->
  futures h !! a = Some ma -> future_ok ma ->
  (is_done ma = true /\ ok (value_ ma) = throws e \/
   is_failed ma = true /\
   exists err' fe, err = Some err' /\ ex_ ma = Some fe /\
                   err' (future_exception.reason fe) = throws e) ->
  then_handler (run_task fuel) f e = Some k ->
  run_task (S fuel) (then_lambda f ok err) a h = k h.
Proof.
  intros Hout Hp Hma Hok Hcase Hk.
  cbn [run_task task_body]. unfold try_catch, bind, get_future.
  rewrite Hout, Hp, Hma.
  destruct Hcase as [[Hd Hthrow] | (Hf & err' & fe & -> & Hfe & Hthrow)].
  - rewrite Hd. unfold value. unfold is_done in Hd. rewrite Hd. simpl negb. cbv iota.
    cbn [lift ret]. unfold call. rewrite Hthrow. unfold throw. now rewrite Hk.
  - assert (is_done ma = false) as ->.
    { unfold is_done, is_failed in *. destruct (state_ ma); simpl in *; congruence. }
    rewrite Hf. unfold failure_reason. unfold is_failed in Hf. rewrite Hf, Hfe.
    simpl negb. cbv iota. cbn [lift ret]. unfold call. rewrite Hthrow. unfold throw.
    now rewrite Hk.
Qed.

(** X8: [then] on a pending source whose queue holds continuations of the
    caller that return, nothing being registered on the outer future.
    When the callback [ok], called with the value of the source, throws a
    [std::runtime_error] or a [future_exception], the resolving call
    [done(v)] of the source returns normally and the outer future is
    failed with the message of the exception up to its first NUL.  The
    same holds when the source is resolved by [fail(m)] and the callback
    [err], called with the reason of the source, which is [m] up to its
    first NUL, throws such an exception. *)
Theorem then_turns_a_caught_exception_into_a_failure fuel h a ok err e msg :
  plain_input h a -> state_of h a = state.pending ->
  (e = runtime_error msg \/
   exists fe, e = thrown_failure fe /\ future_exception.reason fe = msg) ->
  (forall v, ok v = throws e ->
     exists h1 h2 out,
       then_ (run_task (S fuel)) a ok err h = Normal (length (futures h)) h1 /\
       done (run_task (S fuel)) a v h1 = Normal tt h2 /\
       futures h2 !! length (futures h) = Some out /\
       state_ out = state.failed /\
       failure_reason out = Returns (c_str msg)) /\
  (forall m component err', err = Some err' -> err' (c_str m) = throws e ->
     exists h1 h2 out,
       then_ (run_task (S fuel)) a ok err h = Normal (length (futures h)) h1 /\
       fail (run_task (S fuel)) a m component h1 = Normal tt h2 /\
       futures h2 !! length (futures h) = Some out /\
       state_ out = state.failed /\
       failure_reason out = Returns (c_str msg)).
Proof.
  intros Hp Hs He.
  destruct (plain_pending h a Hp Hs) as (ma & Hma & Hra & Hoka & Hqa).
  pose proof (lookup_lt_Some _ _ _ Hma) as Hlt.
  set (f := length (futures h)) in *.
  destruct (then_pending (S fuel) a ok err ma h Hma Hra) as (h1 & E1 & Ha1 & Hf1 & _ & _).
  fold f in E1, Ha1, Hf1.
  assert (then_handler (run_task fuel) f e = Some (fail (run_task fuel) f msg unknown)) as Hk.
  { destruct He as [-> | (fe & -> & <-)]; reflexivity. }
  assert (forall r,
            (is_done (resolved_future (effect_of r) (target_state r) (clock h1)
                        (push_back (then_lambda f ok err) ma)) = true /\
             ok (value_ (resolved_future (effect_of r) (target_state r) (clock h1)
                           (push_back (then_lambda f ok err) ma))) = throws e \/
             is_failed (resolved_future (effect_of r) (target_state r) (clock h1)
                          (push_back (then_lambda f ok err) ma)) = true /\
             exists err' fe, err = Some err' /\
               ex_ (resolved_future (effect_of r) (target_state r) (clock h1)
                      (push_back (then_lambda f ok err) ma)) = Some fe /\
               err' (future_exception.reason fe) = throws e) ->
            exists h2 out,
              resolve (run_task (S fuel)) a r h1 = Normal tt h2 /\
              futures h2 !! f = Some out /\
              state_ out = state.failed /\
              failure_reason out = Returns (c_str msg)) as Hrun.
  { intros r Hcase.
    destruct (resolve_runs_last fuel a _ (tasks_ ma) _ r h1 Ha1 eq_refl Hqa)
      as (hq & Ef & _ & E2).
    assert (futures hq !! f = Some (new_future unlabelled (clock h))) as Hfq.
    { rewrite Ef, list_lookup_insert_ne by lia. exact Hf1. }
    rewrite E2.
    rewrite (then_lambda_catches fuel f a ok err _
               (resolved_future (effect_of r) (target_state r) (clock h1)
                  (push_back (then_lambda f ok err) ma))
               hq e (fail (run_task fuel) f msg unknown) Hfq eq_refl).
    - unfold fail. rewrite (apply_state_eq _ _ _ _ _ _ Hfq) by discriminate.
      eexists _, _. split; [reflexivity |]. split.
      + eapply lookup_set_future_eq. simpl. exact Hfq.
      + split; reflexivity.
    - rewrite Ef. apply list_lookup_insert_eq. exact (lookup_lt_Some _ _ _ Ha1).
    - apply resolved_future_ok, effect_of_fits.
    - exact Hcase.
    - exact Hk. }
  split.
  - intros v Hv. destruct (Hrun (by_done v)) as (h2 & out & E2 & H2).
    { left. split; [reflexivity | exact Hv]. }
    exists h1, h2, out. auto.
  - intros m component err' -> Hthrow.
    destruct (Hrun (by_fail m component)) as (h2 & out & E2 & H2).
    { right. split; [reflexivity |]. eexists _, _. split; [reflexivity |].
      split; [reflexivity | exact Hthrow]. }
    exists h1, h2, out. auto.
Qed.

(** The lambda of [then] when the callback for failures returns [g]. *)
Lemma then_lambda_recovers fuel f a g ok err' out ma fe h h' :
  futures h !! f = Some out -> is_ready out = false ->
  futures h !! a = Some ma -> state_ ma = state.failed -> ex_ ma = Some fe ->
  err' (future_exception.reason fe) = returns g ->
  propagate (run_task fuel) f g h = Normal tt h' ->
  run_task (S fuel) (then_lambda f ok (Some err')) a h = Normal tt h'.
Proof.
  intros Hout Hp Hma Hs Hfe Herr Hprop.
  cbn [run_task task_body]. unfold try_catch.
  unfold bind at 1. unfold get_future. rewrite Hout, Hp.
  unfold bind at 1. rewrite Hma. unfold is_done, is_failed, failure_reason. rewrite Hs, Hfe.
  simpl. unfold bind at 1. unfold ret. unfold bind at 1. unfold call. rewrite Herr.
  unfold ret. now rewrite Hprop.
Qed.

(** X9: the source [a] and the future [g] are distinct pending futures
    whose queues hold continuations of the caller that return; [then] is
    called on [a] with a callback [err] for failures, [a] fails with
    reason [m], [err] called with [m] up to its first NUL returns [g],
    and [g] is then resolved by [r]; nothing is registered on the outer
    future.  Every call returns and the outer future ends as [g] does:
    done with the value of [g], failed with the reason of [g] up to its
    first NUL, or failed with reason "cancelled". *)
Theorem then_recovers_through_the_failure_callback fuel h a g m component r ok err' :
  a <> g ->
  plain_input h a -> state_of h a = state.pending ->
  plain_input h g -> state_of h g = state.pending ->
  err' (c_str m) = returns g ->
  exists h1 h2 h3 out,
    then_ (run_task (S (S fuel))) a ok (Some err') h = Normal (length (futures h)) h1 /\
    fail (run_task (S (S fuel))) a m component h1 = Normal tt h2 /\
    resolve (run_task (S (S fuel))) g r h2 = Normal tt h3 /\
    futures h3 !! length (futures h) = Some out /\
    mirrors r out.
Proof.
  intros Hag Hpa Hsa Hpg Hsg Herr.
  destruct (plain_pending h a Hpa Hsa) as (ma & Hma & Hra & Hoka & Hqa).
  destruct (plain_pending h g Hpg Hsg) as (mg & Hmg & Hrg & Hokg & Hqg).
  pose proof (lookup_lt_Some _ _ _ Hma) as Hlta.
  pose proof (lookup_lt_Some _ _ _ Hmg) as Hltg.
  set (f := length (futures h)) in *.
  assert (f <> g) as Hfg by lia.
  destruct (then_pending (S (S fuel)) a ok (Some err') ma h Hma Hra)
    as (h1 & E1 & Ha1 & Hf1 & _ & Hfr1).
  fold f in E1, Ha1, Hf1, Hfr1.
  change (fail (run_task (S (S fuel))) a m component)
    with (resolve (run_task (S (S fuel))) a (by_fail m component)).
  destruct (resolve_runs_last (S fuel) a _ (tasks_ ma) _ (by_fail m component) h1 Ha1 eq_refl Hqa)
    as (hq & Ef & _ & E2).
  assert (futures hq !! f = Some (new_future unlabelled (clock h))) as Hfq.
  { rewrite Ef, list_lookup_insert_ne by lia. exact Hf1. }
  assert (futures hq !! g = Some mg) as Hgq.
  { rewrite Ef, list_lookup_insert_ne by congruence. rewrite Hfr1 by lia. exact Hmg. }
  destruct (propagate_pending g f Hfg (S fuel) _ mg hq Hfq eq_refl Hgq Hrg)
    as (h2 & Eprop & Hg2 & Hf2 & _).
  assert (run_task (S (S fuel)) (then_lambda f ok (Some err')) a hq = Normal tt h2) as E3.
  { eapply then_lambda_recovers; try eassumption; try reflexivity.
    - rewrite Ef. apply list_lookup_insert_eq. exact (lookup_lt_Some _ _ _ Ha1).
    - reflexivity.
    - reflexivity.
    - exact Herr. }
  destruct (inner_resolves g f Hfg fuel mg (new_future unlabelled (clock h)) r h2 Hg2 Hqg Hf2)
    as (h3 & out & E4 & Hout & Hm); [reflexivity | reflexivity |].
  exists h1, h2, h3, out. split; [exact E1 |]. split; [rewrite E2; exact E3 |].
  split; [exact E4 |]. split; assumption.
Qed.

(** ** Resolving the outer future of [then] by hand *)

Lemma run_task_S n t self : run_task (S n) t self = task_body (run_task n) t self.
Proof. reflexivity. Qed.

(** X10: the source [a] and the future [g] are distinct pending futures
    whose queues hold continuations of the caller that return; [then] is
    called on [a], [a] is resolved by [done(v)] and [ok v] returns [g],
    so that [then] has wired the outer future to [g]; nothing else is
    registered on the outer future.  Cancelling the outer future then
    returns and cancels [g]; but the lambda [then] registered on [g] for
    cancellation then fails the outer future, which [apply_state] does
    not guard: the outer future ends failed with reason "cancelled", not
    cancelled. *)
Theorem cancelling_the_outer_future_cancels_the_inner fuel h a g v ok err :
  a <> g ->
  plain_input h a -> state_of h a = state.pending ->
  plain_input h g -> state_of h g = state.pending ->
  ok v = returns g ->
  exists h1 h2 h3 out,
    then_ (run_task (S (S (S fuel)))) a ok err h = Normal (length (futures h)) h1 /\
    done (run_task (S (S (S fuel)))) a v h1 = Normal tt h2 /\
    cancel (run_task (S (S (S fuel)))) (length (futures h)) h2 = Normal tt h3 /\
    state_of h3 g = state.cancelled /\
    futures h3 !! length (futures h) = Some out /\
    state_ out = state.failed /\
    failure_reason out = Returns "cancelled".
Proof.
  intros Hag Hpa Hsa Hpg Hsg Hok.
  destruct (plain_pending h a Hpa Hsa) as (ma & Hma & Hra & Hoka & Hqa).
  destruct (plain_pending h g Hpg Hsg) as (mg & Hmg & Hrg & Hokg & Hqg).
  pose proof (lookup_lt_Some _ _ _ Hma) as Hlta.
  pose proof (lookup_lt_Some _ _ _ Hmg) as Hltg.
  set (f := length (futures h)) in *.
  assert (f <> g) as Hfg by lia. assert (f <> a) as Hfa by lia.
  set (tl := then_lambda f ok err).
  set (ci := on_cancel_void_lambda (cancel_inner g)).
  set (new := new_future unlabelled (clock h)).
  destruct (then_pending (S (S (S fuel))) a ok err ma h Hma Hra)
    as (h1 & E1 & Ha1 & Hf1 & _ & Hfr1).
  fold f in E1, Ha1, Hf1, Hfr1. fold tl in Ha1. fold new in Hf1.
  destruct (source_resolves a f ok err v (S (S fuel)) (push_back tl ma) h1
              (fun h' => futures h' !! g = Some (wired f mg) /\
                         futures h' !! f = Some (push_back ci new))
              Ha1) as (h2 & E2 & Hg2 & Hf2).
  { exists (tasks_ ma). auto. }
  { intros hx Ef.
    apply (lambda_wires a g f ok err v Hok Hfg (S (S fuel)) new
             (resolved_future (store_value v) state.done (clock h1) (push_back tl ma)) mg hx).
    - rewrite Ef, lookup_set_future_ne by congruence. exact Hf1.
    - reflexivity.
    - rewrite Ef. eapply lookup_set_future_eq. simpl. exact Ha1.
    - reflexivity.
    - reflexivity.
    - rewrite Ef, lookup_set_future_ne by congruence. simpl. rewrite Hfr1 by lia. exact Hmg.
    - exact Hrg. }
  exists h1, h2.
  cut (exists h3 out,
         cancel (run_task (S (S (S fuel)))) f h2 = Normal tt h3 /\
         state_of h3 g = state.cancelled /\
         futures h3 !! f = Some out /\
         state_ out = state.failed /\
         failure_reason out = Returns "cancelled").
  { intros (h3 & out & H). exists h3, out. auto. }
  clear E1 E2.
  (* the outer future is cancelled: its queue holds the lambda cancelling [g] *)
  change (cancel (run_task (S (S (S fuel)))) f) with
    (resolve (run_task (S (S (S fuel)))) f by_cancel).
  rewrite (resolve_eq _ _ _ _ _ Hf2).
  set (fc := resolved_future (effect_of by_cancel) (target_state by_cancel) (clock h2)
               (push_back ci new)).
  set (hc := set_future f fc (tick h2)).
  assert (futures hc !! f = Some fc) as Hfc.
  { eapply lookup_set_future_eq. simpl. exact Hf2. }
  assert (futures hc !! g = Some (wired f mg)) as Hgc.
  { unfold hc. rewrite lookup_set_future_ne by congruence. exact Hg2. }
  change (tasks_ (push_back ci new)) with [ci]. rewrite run_tasks_one.
  unfold ci. rewrite run_task_S. cbn [task_body]. unfold bind at 1. unfold get_future.
  rewrite Hfc.
  change (is_cancelled fc) with true. cbv iota. cbn [run_cancel_code].
  (* the inner future is cancelled: its queue ends with the three lambdas *)
  change (cancel (run_task (S (S fuel))) g) with (resolve (run_task (S (S fuel))) g by_cancel).
  rewrite (resolve_eq _ _ _ _ _ Hgc).
  set (gc := resolved_future (effect_of by_cancel) (target_state by_cancel) (clock hc)
               (wired f mg)).
  set (hg := set_future g gc (tick hc)).
  assert (futures hg !! g = Some gc) as Hgg.
  { eapply lookup_set_future_eq. simpl. exact Hgc. }
  assert (future_ok gc) as Hokgc by (apply resolved_future_ok, effect_of_fits).
  rewrite tasks_wired, run_tasks_app. unfold bind at 1.
  destruct (run_quiet_batch (S fuel) g gc (tasks_ mg) hg Hqg Hgg Hokgc) as (hq & -> & Ef & _).
  assert (futures hq !! g = Some gc) as Hgq by (now rewrite Ef).
  assert (futures hq !! f = Some fc) as Hfq.
  { rewrite Ef. unfold hg. rewrite lookup_set_future_ne by congruence. exact Hfc. }
  unfold forwarders. cbn [run_tasks]. rewrite !run_task_S. cbn [task_body].
  unfold bind at 1. unfold bind at 1. unfold get_future at 1.
  rewrite Hgq. change (is_done gc) with false. cbv iota. unfold ret at 1.
  unfold bind at 1. unfold bind at 1. unfold get_future at 1.
  rewrite Hgq. change (is_failed gc) with false. cbv iota. unfold ret at 1.
  unfold bind at 1. unfold bind at 1. unfold get_future at 1.
  rewrite Hgq. change (is_cancelled gc) with true. cbv iota. cbn [run_cancel_code].
  unfold fail. rewrite (apply_state_eq _ _ _ _ _ _ Hfq) by discriminate.
  change (tasks_ fc) with (@nil task). cbn [run_tasks]. unfold ret.
  eexists _, _. split; [reflexivity |].
  split.
  - erewrite state_of_lookup.
    2: { rewrite lookup_set_future_ne by congruence. simpl. exact Hgq. }
    reflexivity.
  - split.
    + eapply lookup_set_future_eq. simpl. exact Hfq.
    + split; reflexivity.
Qed.

(** X11: when the outer future of [then] is resolved before the source
    is, the lambda of [then] finds it resolved and returns: the callbacks
    are not called, whatever they would return or throw, and the outer
    future stays as it was resolved. *)
Theorem resolving_the_outer_future_first_disables_then fuel h a ok err r0 r :
  plain_input h a -> state_of h a = state.pending ->
  exists h1 h2 h3 out,
    then_ (run_task (S fuel)) a ok err h = Normal (length (futures h)) h1 /\
    resolve (run_task (S fuel)) (length (futures h)) r0 h1 = Normal tt h2 /\
    resolve (run_task (S fuel)) a r h2 = Normal tt h3 /\
    futures h2 !! length (futures h) = Some out /\
    futures h3 !! length (futures h) = Some out /\
    state_ out = target_state r0 /\
    state_of h3 a = target_state r /\
    length (futures h3) = S (length (futures h)).
Proof.
  intros Hp Hs.
  destruct (plain_pending h a Hp Hs) as (ma & Hma & Hra & Hoka & Hqa).
  pose proof (lookup_lt_Some _ _ _ Hma) as Hlt.
  set (f := length (futures h)) in *.
  set (tl := then_lambda f ok err).
  destruct (then_pending (S fuel) a ok err ma h Hma Hra) as (h1 & E1 & Ha1 & Hf1 & _ & _).
  fold f in E1, Ha1, Hf1. fold tl in Ha1.
  assert (length (futures h1) = S f) as Hlen1.
  { revert E1. unfold then_, bind, create_shared.
    rewrite (call_when_ready_pending _ a _ _ ma).
    - unfold ret. intros [= <-]. simpl. rewrite length_insert, length_app. simpl. lia.
    - simpl. rewrite lookup_app_l by lia. exact Hma.
    - exact Hra. }
  exists h1.
  rewrite (resolve_fresh _ f _ r0 h1 Hf1 eq_refl).
  set (out := resolved_future (effect_of r0) (target_state r0) (clock h1)
                (new_future unlabelled (clock h))).
  set (h2 := set_future f out (tick h1)).
  assert (futures h2 !! f = Some out) as Hf2.
  { eapply lookup_set_future_eq. simpl. exact Hf1. }
  assert (futures h2 !! a = Some (push_back tl ma)) as Ha2.
  { unfold h2. rewrite lookup_set_future_ne by lia. exact Ha1. }
  destruct (resolve_runs_last fuel a _ (tasks_ ma) _ r h2 Ha2 eq_refl Hqa)
    as (hq & Ef & _ & E3).
  assert (futures hq !! f = Some out) as Hfq.
  { rewrite Ef, list_lookup_insert_ne by lia. exact Hf2. }
  assert (run_task (S fuel) tl a hq = Normal tt hq) as E4.
  { unfold tl. cbn [run_task task_body]. unfold try_catch, bind, get_future. rewrite Hfq.
    assert (is_ready out = true) as ->
        by (apply is_ready_resolved_future, target_state_not_pending).
    reflexivity. }
  exists h2, hq, out. split; [exact E1 |]. split; [reflexivity |].
  split; [now rewrite E3 |]. split; [exact Hf2 |]. split; [exact Hfq |].
  split; [reflexivity |]. split.
  - erewrite state_of_lookup.
    2: { rewrite Ef. apply list_lookup_insert_eq. exact (lookup_lt_Some _ _ _ Ha2). }
    reflexivity.
  - rewrite Ef, length_insert. unfold h2. simpl. rewrite length_insert. exact Hlen1.
Qed.

(** ** The combinators over one future and over none *)

(** The lambda of [needs_all(first)] called on a resolved future while the
    result is pending. *)
Lemma needs_first_decides fuel f self out me h :
  futures h !! f = Some out -> is_ready out = false -> tasks_ out = [] ->
  futures h !! self = Some me ->
  exists out',
    run_task (S fuel) (needs_first_lambda f) self h =
      Normal tt (set_future f out' (tick h)) /\
    tasks_ out' = [] /\
    state_ out' = (if is_done me then state.done else state.failed) /\
    (state_ out' = state.failed -> ex_ out' = Some error_record) /\
    (state_ out' = state.done -> value_ out' = 0%Z).
Proof.
  intros Hout Hp Hq Hme.
  cbn [run_task task_body]. unfold bind, get_future. rewrite Hout, Hp, Hme.
  destruct (is_done me); cbn [negb]; cbv iota.
  - unfold done. rewrite (apply_state_eq _ _ _ _ _ _ Hout) by discriminate.
    rewrite Hq. eexists. split; [reflexivity |]. repeat split. discriminate.
  - unfold fail. rewrite (apply_state_eq _ _ _ _ _ _ Hout) by discriminate.
    rewrite Hq. eexists. split; [reflexivity |]. repeat split. discriminate.
Qed.

(** X12: [needs_all] of a single future, and [needs_any] of a single
    future, which is the same function, on a pending future whose queue
    holds continuations of the caller that return, nothing else being
    registered on the result.  Whether the input is resolved after the
    call or before it, the resolving call returns and the result is done
    with value 0 when the input is done and failed with reason "error"
    when the input is failed or cancelled. *)
Theorem needs_all_of_one_future_follows_it fuel h x r :
  plain_input h x -> state_of h x = state.pending ->
  needs_any (run_task (S fuel)) [x] h = needs_all (run_task (S fuel)) [x] h /\
  (exists h1 h2 out,
     needs_all (run_task (S fuel)) [x] h = Normal (length (futures h)) h1 /\
     resolve (run_task (S fuel)) x r h1 = Normal tt h2 /\
     futures h2 !! length (futures h) = Some out /\
     state_ out = (if state.eqb (target_state r) state.done
                   then state.done else state.failed) /\
     (state_ out = state.failed -> failure_reason out = Returns "error") /\
     (state_ out = state.done -> value out = Returns 0%Z)) /\
  (exists h1 h2 out,
     resolve (run_task (S fuel)) x r h = Normal tt h1 /\
     needs_all (run_task (S fuel)) [x] h1 = Normal (length (futures h)) h2 /\
     futures h2 !! length (futures h) = Some out /\
     state_ out = (if state.eqb (target_state r) state.done
                   then state.done else state.failed) /\
     (state_ out = state.failed -> failure_reason out = Returns "error") /\
     (state_ out = state.done -> value out = Returns 0%Z)).
Proof.
  intros Hp Hs. split; [reflexivity |].
  destruct (plain_pending h x Hp Hs) as (me & Hme & Hr & Hok & Hq).
  pose proof (lookup_lt_Some _ _ _ Hme) as Hlt.
  set (f := length (futures h)) in *.
  set (cb := needs_first_lambda f).
  assert (forall out', tasks_ out' = [] ->
            (state_ out' = state.failed -> ex_ out' = Some error_record) ->
            (state_ out' = state.done -> value_ out' = 0%Z) ->
            (state_ out' = state.failed -> failure_reason out' = Returns "error") /\
            (state_ out' = state.done -> value out' = Returns 0%Z)) as Hacc.
  { intros out' _ Hf Hd. split; intros Hst.
    - unfold failure_reason. rewrite Hst, (Hf Hst). reflexivity.
    - unfold value. rewrite Hst, (Hd Hst). reflexivity. }
  split.
  - set (ha := tick (add_future (new_future unlabelled (clock h)) h)).
    assert (futures ha !! x = Some me) as Hxa.
    { unfold ha. rewrite lookup_old_after_create by lia. exact Hme. }
    assert (needs_all (run_task (S fuel)) [x] h =
            Normal f (set_future x (push_back cb me) ha)) as E1.
    { cbn [needs_all]. unfold needs_all_one, bind, create_shared. fold f. fold ha. fold cb.
      now rewrite (on_ready_pending _ _ _ _ _ Hxa Hr). }
    set (h1 := set_future x (push_back cb me) ha) in *.
    assert (futures h1 !! x = Some (push_back cb me)) as Hx1.
    { eapply lookup_set_future_eq. exact Hxa. }
    destruct (resolve_runs_last fuel x _ (tasks_ me) cb r h1 Hx1 eq_refl Hq)
      as (hq & Ef & _ & E2).
    destruct (needs_first_decides fuel f x (new_future unlabelled (clock h))
                (resolved_future (effect_of r) (target_state r) (clock h1) (push_back cb me)) hq)
      as (out' & E3 & Hq' & Hst & Hf & Hd); try reflexivity.
    { rewrite Ef, list_lookup_insert_ne by lia. unfold h1.
      rewrite lookup_set_future_ne by lia. apply lookup_new_after_create. }
    { rewrite Ef. apply list_lookup_insert_eq. exact (lookup_lt_Some _ _ _ Hx1). }
    exists h1. eexists _, out'. split; [exact E1 |]. split; [rewrite E2; exact E3 |].
    split.
    { eapply lookup_set_future_eq. simpl. rewrite Ef, list_lookup_insert_ne by lia.
      unfold h1. rewrite lookup_set_future_ne by lia. apply lookup_new_after_create. }
    split; [exact Hst |]. now apply Hacc.
  - destruct (resolve_quiet_lookup fuel h x me r Hme Hq) as (h1 & E1 & Hx1 & Hlen1 & _).
    set (ha := tick (add_future (new_future unlabelled (clock h1)) h1)).
    assert (futures ha !! x = Some (resolved_future (effect_of r) (target_state r) (clock h) me))
      as Hxa.
    { unfold ha. rewrite lookup_old_after_create by lia. exact Hx1. }
    assert (futures ha !! f = Some (new_future unlabelled (clock h1))) as Hfa.
    { unfold ha, f. rewrite <- Hlen1. apply lookup_new_after_create. }
    destruct (needs_first_decides fuel f x _ _ ha Hfa eq_refl eq_refl Hxa)
      as (out' & E3 & Hq' & Hst & Hf & Hd).
    exists h1. eexists _, out'. split; [exact E1 |]. split.
    { cbn [needs_all]. unfold needs_all_one, bind, create_shared. rewrite Hlen1.
      fold f. fold ha. unfold on_ready.
      rewrite (call_when_ready_ready _ _ _ _ _ Hxa)
        by (apply is_ready_resolved_future, target_state_not_pending).
      rewrite E3. reflexivity. }
    split.
    { eapply lookup_set_future_eq. simpl. exact Hfa. }
    split; [exact Hst |]. now apply Hacc.
Qed.

(** X13: without inputs the two forms of [needs_any] differ: [needs_any()]
    returns a future that is failed with reason "no elements", whereas
    [needs_any] of the empty vector returns a future that is pending and
    has nothing in its queue, so that nothing will resolve it. *)
Theorem needs_any_without_inputs invoke h :
  (exists h' out,
     needs_any invoke [] h = Normal (length (futures h)) h' /\
     futures h' !! length (futures h) = Some out /\
     state_ out = state.failed /\
     failure_reason out = Returns "no elements") /\
  (exists h' out,
     needs_any_vector invoke [] h = Normal (length (futures h)) h' /\
     futures h' !! length (futures h) = Some out /\
     state_ out = state.pending /\
     tasks_ out = []).
Proof.
  split.
  - cbn [needs_any]. unfold needs_any_none, bind, create_shared.
    unfold fail. erewrite apply_state_eq; [| apply lookup_new_after_create | congruence].
    cbn [tasks_ new_future run_tasks]. unfold ret.
    eexists _, _. split; [reflexivity |]. split.
    + eapply lookup_set_future_eq. simpl. apply lookup_fresh.
    + split; reflexivity.
  - eexists _, _. split; [reflexivity |]. split; [apply lookup_fresh |].
    split; reflexivity.
Qed.

(** ** [needs_any] over a vector and a sequence of resolving calls *)

Section NeedsAny.

Variable f : nat.
Let cb := needs_first_lambda f.

Lemma any_batch_after fuel self me q :
  forall h out,
    futures h !! self = Some me -> future_ok me ->
    futures h !! f = Some out -> is_ready out = true ->
    any_queue_ok f q ->
    exists h', run_tasks (run_task (S fuel)) q self h = Normal tt h' /\
               futures h' = futures h.
Proof.
  induction q as [| t q IH]; intros h out Hme Hok Hout Hr Hq.
  - exists h. auto.
  - apply Forall_cons in Hq as [Ht Hq]. cbn [run_tasks]. unfold bind.
    destruct Ht as [Ht | ->].
    + destruct (run_quiet fuel t self h me Ht Hme Hok) as (h1 & -> & Ef & _).
      destruct (IH h1 out) as (h' & E & Ef'); try (rewrite Ef; assumption); try assumption.
      exists h'. split; [exact E | congruence].
    + assert (run_task (S fuel) (needs_first_lambda f) self h = Normal tt h) as ->.
      { cbn [run_task task_body]. unfold bind, get_future. now rewrite Hout, Hr. }
      now apply (IH h out).
Qed.

Lemma any_batch_decides fuel self me q :
  forall h out,
    self <> f ->
    futures h !! self = Some me -> future_ok me ->
    futures h !! f = Some out -> is_ready out = false -> tasks_ out = [] ->
    any_queue_ok f q -> cb ∈ q ->
    exists h' out',
      run_tasks (run_task (S fuel)) q self h = Normal tt h' /\
      futures h' = <[f := out']> (futures h) /\
      tasks_ out' = [] /\
      state_ out' = (if is_done me then state.done else state.failed) /\
      (state_ out' = state.failed -> ex_ out' = Some error_record) /\
      (state_ out' = state.done -> value_ out' = 0%Z).
Proof.
  induction q as [| t q IH]; intros h out Hne Hme Hok Hout Hp Hempty Hq Hin.
  - inversion Hin.
  - apply Forall_cons in Hq as [Ht Hq]. cbn [run_tasks]. unfold bind.
    destruct Ht as [Ht | ->].
    + destruct (run_quiet fuel t self h me Ht Hme Hok) as (h1 & -> & Ef & _).
      apply elem_of_cons in Hin as [Heq | Hin];
        [subst t; unfold cb in Ht; discriminate Ht |].
      destruct (IH h1 out) as (h' & out' & E & Ef' & H');
        try (rewrite Ef; assumption); try assumption.
      exists h', out'. split; [exact E |]. split; [congruence | exact H'].
    + destruct (needs_first_decides fuel f self out me h Hout Hp Hempty Hme)
        as (out' & -> & Hq' & Hst & Hex & Hval).
      set (h1 := set_future f out' (tick h)).
      destruct (any_batch_after fuel self me q h1 out') as (h' & E & Ef); try assumption.
      * unfold h1. rewrite lookup_set_future_ne by congruence. exact Hme.
      * eapply lookup_set_future_eq. simpl. exact Hout.
      * unfold is_ready. rewrite Hst. now destruct (is_done me).
      * exists h', out'. split; [exact E |]. split; [exact Ef |]. auto.
Qed.

Lemma register_any invoke l :
  forall h,
    (forall i, i ∈ l ->
       i <> f /\ exists me, futures h !! i = Some me /\ future_ok me /\
                            is_ready me = false /\ any_queue_ok f (tasks_ me)) ->
    exists h',
      register_all invoke l cb h = Normal tt h' /\
      length (futures h') = length (futures h) /\
      (forall j, j ∉ l -> futures h' !! j = futures h !! j) /\
      (forall i, i ∈ l ->
         exists me, futures h' !! i = Some me /\ future_ok me /\
                    is_ready me = false /\ any_queue_ok f (tasks_ me) /\
                    cb ∈ tasks_ me).
Proof.
  induction l as [| a l IH]; intros h Hl.
  - exists h. split; [reflexivity |]. split; [reflexivity |]. split; [auto |].
    intros i Hi. inversion Hi.
  - destruct (Hl a ltac:(left)) as (Haf & ma & Hma & Hoka & Hra & Hqa).
    cbn [register_all]. unfold bind. rewrite (on_ready_pending _ _ _ _ _ Hma Hra).
    set (ma' := push_back cb ma). set (h1 := set_future a ma' h).
    assert (futures h1 !! a = Some ma') as Ha1 by (eapply lookup_set_future_eq; eauto).
    assert (any_queue_ok f (tasks_ ma')) as Hqa'.
    { unfold ma'. cbn [tasks_ push_back]. apply Forall_app. split; [exact Hqa |].
      constructor; [now right | constructor]. }
    assert (future_ok ma') as Hoka' by (now apply push_back_ok).
    destruct (IH h1) as (h' & E & Hlen & Hout & Hin).
    { intros i Hi. destruct (Hl i ltac:(now right)) as (Hif & mi & Hmi & Hoki & Hri & Hqi).
      split; [exact Hif |]. destruct (decide (i = a)) as [-> | Hne].
      - exists ma'. auto.
      - exists mi. unfold h1. rewrite lookup_set_future_ne by congruence. auto. }
    exists h'. split; [exact E |]. split.
    { rewrite Hlen. unfold h1. simpl. apply length_insert. }
    split.
    { intros j Hj. apply not_elem_of_cons in Hj as [Hja Hj].
      rewrite Hout by assumption. unfold h1. now rewrite lookup_set_future_ne by congruence. }
    intros i Hi. destruct (decide (i ∈ l)) as [Hil | Hil]; [now apply Hin |].
    apply elem_of_cons in Hi as [-> | Hi]; [| contradiction].
    exists ma'. rewrite Hout by assumption. split; [exact Ha1 |].
    split; [exact Hoka' |]. split; [exact Hra |]. split; [exact Hqa' |].
    unfold ma'. cbn [tasks_ push_back]. apply elem_of_app. right. now left.
Qed.

Variable l : list nat.

Lemma any_event fuel h x r out :
  (forall i, i ∈ l -> any_input f h i) ->
  futures h !! f = Some out -> tasks_ out = [] ->
  x ∈ l -> state_of h x = state.pending ->
  exists h' out',
    resolve (run_task (S fuel)) x r h = Normal tt h' /\
    (forall i, i ∈ l -> any_input f h' i) /\
    futures h' !! f = Some out' /\ tasks_ out' = [] /\
    (is_ready out = true -> out' = out) /\
    (is_ready out = false ->
       state_ out' = first_decides [(x, r)] /\
       (state_ out' = state.failed -> ex_ out' = Some error_record) /\
       (state_ out' = state.done -> value_ out' = 0%Z)) /\
    state_of h' x = target_state r /\
    (forall j, j <> x -> j <> f -> futures h' !! j = futures h !! j).
Proof.
  intros Hinv Hout Hempty Hx Hpend.
  destruct (Hinv x Hx) as (Hxf & me & Hme & Hok & Hq & Hcb).
  assert (is_ready me = false) as Hrme.
  { apply is_ready_false. now rewrite <- (state_of_lookup _ _ _ Hme). }
  specialize (Hcb Hrme).
  rewrite (resolve_eq _ _ _ _ _ Hme).
  set (me' := resolved_future (effect_of r) (target_state r) (clock h) me).
  set (hm := set_future x me' (tick h)).
  assert (futures hm !! x = Some me') as Hme'.
  { eapply lookup_set_future_eq. simpl. exact Hme. }
  assert (futures hm !! f = Some out) as Houtm.
  { unfold hm. rewrite lookup_set_future_ne by congruence. exact Hout. }
  assert (future_ok me') as Hok' by (apply resolved_future_ok, effect_of_fits).
  assert (is_ready me' = true) as Hr'
      by (apply is_ready_resolved_future, target_state_not_pending).
  assert (forall h' out',
            futures h' = <[f := out']> (futures hm) ->
            (forall i, i ∈ l -> any_input f h' i) /\
            state_of h' x = target_state r /\
            (forall j, j <> x -> j <> f -> futures h' !! j = futures h !! j)) as Hkeep.
  { intros h' out' Ef. split; [| split].
    - intros i Hi. destruct (Hinv i Hi) as (Hif & mi & Hmi & Hoki & Hqi & Hcbi).
      split; [exact Hif |]. rewrite Ef, list_lookup_insert_ne by congruence.
      destruct (decide (i = x)) as [-> | Hne].
      + exists me'. split; [exact Hme' |]. split; [exact Hok' |].
        split; [constructor | congruence].
      + exists mi. unfold hm. rewrite lookup_set_future_ne by congruence. auto.
    - rewrite (state_of_lookup h' x me'); [reflexivity |].
      rewrite Ef, list_lookup_insert_ne by congruence. exact Hme'.
    - intros j Hjx Hjf. rewrite Ef, list_lookup_insert_ne by congruence.
      unfold hm. now rewrite lookup_set_future_ne by congruence. }
  destruct (is_ready out) eqn:Hro.
  - destruct (any_batch_after fuel x me' (tasks_ me) hm out Hme' Hok' Houtm Hro Hq)
      as (h' & E & Ef).
    destruct (Hkeep h' out) as (H1 & H2 & H3).
    { rewrite Ef. symmetry. now apply list_insert_id. }
    exists h', out. split; [exact E |]. split; [exact H1 |].
    split; [now rewrite Ef |]. split; [exact Hempty |]. split; [auto |].
    split; [discriminate |]. split; assumption.
  - destruct (any_batch_decides fuel x me' (tasks_ me) hm out Hxf Hme' Hok' Houtm Hro Hempty Hq Hcb)
      as (h' & out' & E & Ef & Hq' & Hst & Hex).
    destruct (Hkeep h' out' Ef) as (H1 & H2 & H3).
    exists h', out'. split; [exact E |]. split; [exact H1 |].
    split.
    { rewrite Ef. apply list_lookup_insert_eq. exact (lookup_lt_Some _ _ _ Houtm). }
    split; [exact Hq' |]. split; [discriminate |].
    split; [| split; assumption].
    intros _. split; [| exact Hex]. rewrite Hst. reflexivity.
Qed.

Lemma any_events fuel evs :
  forall h out,
    (forall i, i ∈ l -> any_input f h i) ->
    futures h !! f = Some out -> tasks_ out = [] ->
    NoDup (map fst evs) ->
    Forall (fun ev => fst ev ∈ l /\ state_of h (fst ev) = state.pending) evs ->
    exists h' out',
      run_events (run_task (S fuel)) evs h = Normal tt h' /\
      futures h' !! f = Some out' /\ tasks_ out' = [] /\
      (is_ready out = true -> out' = out) /\
      (is_ready out = false ->
         state_ out' = first_decides evs /\
         (state_ out' = state.failed -> ex_ out' = Some error_record) /\
         (state_ out' = state.done -> value_ out' = 0%Z)) /\
      (forall i r, (i, r) ∈ evs -> state_of h' i = target_state r) /\
      (forall j, j ∉ map fst evs -> j <> f -> futures h' !! j = futures h !! j).
Proof.
  induction evs as [| [x r] evs IH]; intros h out Hinv Hout Hempty Hnd Hevs.
  - exists h, out. split; [reflexivity |]. split; [exact Hout |]. split; [exact Hempty |].
    split; [auto |]. split.
    { intros Hp. apply is_ready_false in Hp. simpl.
      split; [exact Hp |]. split; intros Hf; congruence. }
    split; [| auto]. intros i r Hin. inversion Hin.
  - apply Forall_cons in Hevs as [[Hx Hpend] Hevs]. simpl in Hx, Hpend.
    simpl map in Hnd. apply NoDup_cons in Hnd as [Hfresh Hnd].
    destruct (any_event fuel h x r out Hinv Hout Hempty Hx Hpend)
      as (h1 & out1 & E1 & Hinv1 & Hout1 & Hempty1 & Hkeep1 & Hdec1 & Hsx & Hfr1).
    assert (forall i, i ∈ l -> i <> f) as Hlf by (intros i Hi; apply (Hinv i Hi)).
    destruct (IH h1 out1 Hinv1 Hout1 Hempty1 Hnd)
      as (h2 & out2 & E2 & Hout2 & Hempty2 & Hkeep2 & Hdec2 & Hres & Hfr2).
    { rewrite Forall_forall in *. intros ev Hev. destruct (Hevs ev Hev) as [Hev1 Hev2].
      split; [exact Hev1 |]. rewrite <- Hev2. apply state_of_futures, Hfr1.
      - intros Heq. apply Hfresh. rewrite <- Heq. apply list_elem_of_fmap. eauto.
      - now apply Hlf. }
    exists h2, out2. cbn [run_events]. unfold bind. rewrite E1.
    split; [exact E2 |]. split; [exact Hout2 |]. split; [exact Hempty2 |].
    split.
    { intros Hr. rewrite <- (Hkeep1 Hr). apply Hkeep2. now rewrite (Hkeep1 Hr). }
    split.
    { intros Hp. destruct (Hdec1 Hp) as [Hst1 Hex1].
      assert (is_ready out1 = true) as Hr1.
      { unfold is_ready. rewrite Hst1. simpl.
        destruct (state.eqb (target_state r) state.done); reflexivity. }
      rewrite (Hkeep2 Hr1). split; [exact Hst1 | exact Hex1]. }
    split.
    + intros j s Hjs. apply elem_of_cons in Hjs as [[= -> ->] | Hjs]; [| eauto].
      rewrite <- Hsx. apply state_of_futures, Hfr2; [exact Hfresh | now apply Hlf].
    + intros j Hj Hjf. simpl map in Hj. apply not_elem_of_cons in Hj as [Hjx Hj].
      rewrite Hfr2, Hfr1; auto.
Qed.

End NeedsAny.

(** X14: [needs_any] over a vector of pending futures whose queues hold
    continuations of the caller that return; the producers then resolve
    inputs, each one once, in any order and any number of them, and
    nothing else is registered on the result.  Every call returns, and
    the first resolving call decides the result for good: done with value
    0 if that input is done, failed with reason "error" if it is failed
    or cancelled; later resolving calls on the inputs leave the result as
    it is.  The vector may hold a future more than once. *)
Theorem needs_any_vector_first_resolution_decides fuel h l evs :
  (forall i, i ∈ l -> plain_input h i /\ state_of h i = state.pending) ->
  resolves_once h l evs ->
  exists h1 h2 out,
    needs_any_vector (run_task (S fuel)) l h = Normal (length (futures h)) h1 /\
    run_events (run_task (S fuel)) evs h1 = Normal tt h2 /\
    futures h2 !! length (futures h) = Some out /\
    state_ out = first_decides evs /\
    (state_ out = state.failed -> failure_reason out = Returns "error") /\
    (state_ out = state.done -> value out = Returns 0%Z) /\
    (forall i r, (i, r) ∈ evs -> state_of h2 i = target_state r) /\
    (forall i, i ∈ l -> i ∉ map fst evs -> state_of h2 i = state.pending).
Proof.
  intros Hplain [Hnd Hevs].
  set (f := length (futures h)).
  set (ha := tick (add_future (new_future unlabelled (clock h)) h)).
  assert (forall i, i ∈ l -> i < f /\ futures ha !! i = futures h !! i) as Hold.
  { intros i Hi. destruct (Hplain i Hi) as [(me & Hme & _) _].
    pose proof (lookup_lt_Some _ _ _ Hme). split; [assumption |].
    unfold ha. simpl. now apply lookup_app_l. }
  destruct (register_any f (run_task (S fuel)) l ha) as (h1 & E1 & Hlen1 & Hout1 & Hin1).
  { intros i Hi. destruct (Hplain i Hi) as [Hp Hs].
    destruct (plain_pending h i Hp Hs) as (me & Hme & Hr & Hok & Hq).
    destruct (Hold i Hi) as [Hlt Heq]. split; [lia |].
    exists me. rewrite Heq. split; [exact Hme |]. split; [exact Hok |]. split; [exact Hr |].
    eapply Forall_impl; [exact Hq |]. intros t Ht. now left. }
  assert (futures h1 !! f = Some (new_future unlabelled (clock h))) as Hf1.
  { rewrite Hout1.
    - unfold ha, f. apply lookup_new_after_create.
    - intros Hfl. apply Hold in Hfl. lia. }
  assert (needs_any_vector (run_task (S fuel)) l h = Normal f h1) as Hbuild.
  { unfold needs_any_vector, bind, create_shared. fold f. fold ha. now rewrite E1. }
  assert (forall i, i ∈ l -> state_of h1 i = state.pending) as Hpend1.
  { intros i Hi. destruct (Hin1 i Hi) as (me & Hme & _ & Hr & _).
    rewrite (state_of_lookup _ _ _ Hme). now apply is_ready_false. }
  destruct (any_events f l fuel evs h1 (new_future unlabelled (clock h)))
    as (h2 & out & E2 & Hout2 & Hempty2 & _ & Hdec & Hres & Hfr); try assumption.
  { intros i Hi. destruct (Hin1 i Hi) as (me & Hme & Hok & Hr & Hq & Hcb).
    destruct (Hold i Hi) as [Hlt _]. split; [lia |]. exists me. auto. }
  { reflexivity. }
  { rewrite Forall_forall in *. intros ev Hev. destruct (Hevs ev Hev) as [Hev1 _].
    split; [exact Hev1 | now apply Hpend1]. }
  destruct (Hdec eq_refl) as (Hst & Hex & Hval).
  exists h1, h2, out. split; [exact Hbuild |]. split; [exact E2 |]. split; [exact Hout2 |].
  split; [exact Hst |]. split.
  { intros Hf. unfold failure_reason. rewrite Hf, (Hex Hf). reflexivity. }
  split.
  { intros Hd. unfold value. rewrite Hd, (Hval Hd). reflexivity. }
  split; [exact Hres |].
  intros i Hi Hni. rewrite <- (Hpend1 i Hi). apply state_of_futures, Hfr; [exact Hni |].
  destruct (Hold i Hi). lia.
Qed.

(** ** The chain of [needs_all(first, rest...)]

    The first [p] nodes of the chain: with [p = length ins] they are the
    futures [needs_all] builds over the arguments [ins], the last argument
    first. *)

Section ChainUpTo.

Variables (L C : nat) (ins : list nat).
Hypothesis ins_nodup : NoDup ins.
Hypothesis ins_old : forall k x, ins !! k = Some x -> x < L.
Hypothesis ins_some : ins <> [].

Let n := length ins.

Variable p : nat.
Hypothesis p_le : p <= S n.
Hypothesis p_ge : n <= p.

Lemma cascade_step_upto fuel k h src me :
  k < p ->
  src ∈ node_sources L ins k ->
  futures h !! src = Some me -> is_ready me = true ->
  (forall j, k <= j -> j < p -> node_ok L C ins p (hide src (state_of h)) h j) ->
  (forall h1 out1,
     futures h1 !! (L + k) = Some out1 -> is_ready out1 = true ->
     (forall j, k < j -> j < p -> node_ok L C ins p (hide (L + k) (state_of h1)) h1 j) ->
     exists h',
       run_tasks (run_task fuel) (node_queue L C ins p k) (L + k) h1 = Normal tt h' /\
       (forall j, k < j -> j < p -> node_ok L C ins p (state_of h') h' j) /\
       (forall i, i < L + S k -> futures h' !! i = futures h1 !! i) /\
       (forall c, c + 1 < C + S k -> counters h' !! c = counters h1 !! c)) ->
  exists h',
    run_task (S fuel) (node_cb L C ins k) src h = Normal tt h' /\
    (forall j, k <= j -> j < p -> node_ok L C ins p (state_of h') h' j) /\
    (forall i, i < L + k -> futures h' !! i = futures h !! i) /\
    (forall c, c + 1 < C + k -> counters h' !! c = counters h !! c).
Proof.
  intros Hk Hsrc Hme Hr Hnodes Hup.
  assert (k <= n) as Hkn by lia.
  set (srcs := node_sources L ins k) in *.
  set (v := state_of h).
  pose proof (sources_lt L ins ins_old k src Hsrc) as Hsrc_lt.
  pose proof (sources_nodup L ins ins_old k) as Hnd. fold srcs in Hnd.
  assert (v src = state_ me) as Hvsrc by (apply state_of_lookup; exact Hme).
  assert (v src <> state.pending) as Hs by (rewrite Hvsrc; now apply is_ready_true).
  destruct (Hnodes k (le_n k) Hk) as (out & Hout & Hst & Hex & Hq & Hcnt). fold srcs in Hst, Hcnt.
  fold v in Hst, Hcnt.
  (* the nodes above do not wait for [src] *)
  assert (forall j, k < j -> j < p ->
            node_ok L C ins p (state_of h) h j) as Habove.
  { intros j Hkj Hjn. apply (node_ok_transfer L C ins p (hide src (state_of h)) _ h h j).
    - reflexivity.
    - reflexivity.
    - intros i Hi. symmetry. apply hide_same. intros ->.
      now apply (sources_above L ins ins_nodup ins_old k j src Hkj Hsrc).
    - apply Hnodes; lia. }
  destruct (is_ready out) eqn:Hrout.
  - (* the node is resolved already *)
    exists h. split; [now apply node_cb_skips with out |]. split; [| split; reflexivity].
    intros j Hkj Hjn. destruct (decide (j = k)) as [-> | Hne]; [| apply Habove; lia].
    destruct (ready_expected src v srcs Hsrc) as [Heq Hnot].
    { rewrite <- Hst. now apply is_ready_true. }
    exists out. fold srcs. fold v. rewrite Heq, Hrout. repeat split; try assumption.
    intros j' _ _ Hfalse. congruence.
  - (* the node is pending *)
    assert (expected_all (map (hide src v) srcs) = state.pending) as Hpend.
    { rewrite <- Hst. now apply is_ready_false. }
    set (d := done_count (map (hide src v) srcs)) in *.
    destruct (seen_done_count src v srcs Hsrc Hnd) as [Hdone_count Hd]. fold d in Hdone_count, Hd.
    destruct (decision_expected src v srcs Hsrc Hnd Hs Hpend) as [Hexp Hclean]. fold d in Hexp.
    assert (existsb not_done (map (hide src v) srcs) = false) as Hhidden.
    { rewrite expected_all_by_counts in Hpend.
      destruct (existsb not_done (map (hide src v) srcs)); [discriminate | reflexivity]. }
    destruct (node_cb_run L C ins ins_nodup ins_old ins_some fuel k src me out d h Hkn Hout Hrout Hme Hr Hd)
      as (h0 & Ef0 & Eclk0 & Ec0 & Edec0 & Erun).
    { intros j Hj Hlt. now apply Hcnt. }
    fold srcs in Erun. rewrite <- Hvsrc in Erun.
    assert (forall i, state_of h0 i = state_of h i) as Hst0.
    { intros i. apply state_of_futures. now rewrite Ef0. }
    destruct (decision (v src) d (length srcs)) as [r |] eqn:Hdec.
    + (* the node is resolved by this call *)
      assert (futures h0 !! (L + k) = Some out) as Hout0 by (now rewrite Ef0).
      rewrite (resolve_eq _ _ _ _ _ Hout0) in Erun.
      set (out1 := resolved_future (effect_of r) (target_state r) (clock h0) out) in *.
      set (h1 := set_future (L + k) out1 (tick h0)) in *.
      assert (futures h1 !! (L + k) = Some out1) as Hout1.
      { eapply lookup_set_future_eq. simpl. exact Hout0. }
      assert (forall i, i <> L + k -> futures h1 !! i = futures h !! i) as Hf1.
      { intros i Hi. unfold h1. rewrite lookup_set_future_ne by congruence. simpl. now rewrite Ef0. }
      assert (is_ready out1 = true) as Hr1
          by (apply is_ready_resolved_future, target_state_not_pending).
      assert (state_ out = state.pending) as Hout_pending by (now apply is_ready_false).
      destruct (Hup h1 out1 Hout1 Hr1) as (h' & Erun' & Hn' & Hf' & Hc').
      { intros j Hkj Hjn.
        apply (node_ok_transfer L C ins p (hide src (state_of h)) _ h h1 j).
        - apply Hf1. lia.
        - intros jj -> . simpl. apply Ec0. intros j' ->. lia.
        - intros i Hi. destruct (decide (i = L + k)) as [-> | Hne].
          + rewrite hide_src, hide_same by lia. now rewrite (state_of_lookup _ _ _ Hout).
          + rewrite !hide_same; try assumption.
            * apply state_of_futures. now apply Hf1.
            * intros ->. now apply (sources_above L ins ins_nodup ins_old k j src Hkj Hsrc).
        - apply Hnodes; lia. }
      rewrite Hq in Erun. rewrite Erun' in Erun.
      assert (forall i, i < L + k -> futures h' !! i = futures h !! i) as Hframe.
      { intros i Hi. rewrite Hf' by lia. apply Hf1. lia. }
      exists h'. split; [exact Erun |]. split; [| split; [exact Hframe |]].
      * intros j Hkj Hjn. destruct (decide (j = k)) as [-> | Hne]; [| apply Hn'; lia].
        assert (map (state_of h') srcs = map v srcs) as Emap.
        { apply map_ext_in. intros i Hi. apply list_elem_of_In in Hi.
          apply state_of_futures, Hframe. now apply (sources_lt L ins ins_old k). }
        exists out1. fold srcs. rewrite Emap, Hexp, Hr1.
        split; [rewrite Hf' by lia; exact Hout1 |].
        split; [reflexivity |]. split; [| split; [reflexivity |]].
        -- destruct (decision_shape _ _ _ _ Hdec) as [[-> _] | [-> _]]; [discriminate | reflexivity].
        -- intros j' -> Hlt Hclean'.
           destruct (decision_shape _ _ _ _ Hdec) as [[_ Hd1] | [_ Hd1]].
           ++ rewrite Hdone_count, Hd1, Hc' by lia. simpl. rewrite Nat.add_1_r.
              apply Edec0; auto. unfold is_done. now rewrite <- Hvsrc.
           ++ rewrite (seen_not_done src v srcs Hsrc) in Hclean'.
              rewrite (not_done_of_ready _ Hs Hd1), orb_true_r in Hclean'. discriminate.
      * intros c Hc. rewrite Hc' by lia. simpl. apply Ec0. intros j' ->. lia.
    + (* the node keeps waiting *)
      pose proof (decision_none _ _ _ Hdec) as Hd1.
      exists h0. split; [exact Erun |]. split; [| split].
      * intros j Hkj Hjn. destruct (decide (j = k)) as [-> | Hne].
        -- assert (map (state_of h0) srcs = map v srcs) as Emap.
           { apply map_ext_in. intros i _. apply Hst0. }
           exists out. fold srcs. rewrite Emap, Hexp, Hrout, Ef0.
           split; [exact Hout |]. split; [now apply is_ready_false |].
           split; [exact Hex |]. split; [exact Hq |].
           intros j' -> Hlt _. rewrite Hdone_count, Hd1, Nat.add_1_r.
           apply Edec0; auto. unfold is_done. now rewrite <- Hvsrc.
        -- apply (node_ok_transfer L C ins p (state_of h) _ h h0 j).
           ++ now rewrite Ef0.
           ++ intros jj ->. apply Ec0. intros j' ->. lia.
           ++ intros i _. apply Hst0.
           ++ apply Habove; lia.
      * intros i _. now rewrite Ef0.
      * intros c Hc. apply Ec0. intros j' ->. lia.
Qed.

Lemma cascade_upto m :
  forall fuel k h src me,
    m < fuel -> S (k + m) = p ->
    src ∈ node_sources L ins k ->
    futures h !! src = Some me -> is_ready me = true ->
    (forall j, k <= j -> j < p -> node_ok L C ins p (hide src (state_of h)) h j) ->
    exists h',
      run_task fuel (node_cb L C ins k) src h = Normal tt h' /\
      (forall j, k <= j -> j < p -> node_ok L C ins p (state_of h') h' j) /\
      (forall i, i < L + k -> futures h' !! i = futures h !! i) /\
      (forall c, c + 1 < C + k -> counters h' !! c = counters h !! c).
Proof.
  induction m as [| m IH]; intros fuel k h src me Hfuel Hkm Hsrc Hme Hr Hnodes;
    (destruct fuel as [| fuel]; [lia |]);
    apply (cascade_step_upto fuel k h src me); try assumption; try lia.
  - (* the last node: nothing waits for it *)
    intros h1 out1 Hout1 Hr1 _. exists h1.
    unfold node_queue. replace (S k <? p) with false
      by (symmetry; apply Nat.ltb_ge; lia).
    split; [reflexivity |]. split; [intros; lia |]. auto.
  - intros h1 out1 Hout1 Hr1 Hn1.
    unfold node_queue. replace (S k <? p) with true
      by (symmetry; apply Nat.ltb_lt; lia).
    rewrite run_tasks_one.
    apply (IH fuel (S k) h1 (L + k) out1); try assumption; try lia.
    apply child_is_source.
Qed.

Lemma chain_event_upto fuel h k x r :
  n < fuel ->
  chain_inv L C ins p (state_of h) h ->
  ins !! k = Some x ->
  state_of h x = state.pending ->
  exists h',
    resolve (run_task fuel) x r h = Normal tt h' /\
    chain_inv L C ins p (state_of h') h' /\
    state_of h' x = target_state r /\
    (forall i, i < L -> i <> x -> futures h' !! i = futures h !! i).
Proof.
  intros Hfuel [Hnodes Hins] Hx Hpend.
  destruct fuel as [| fuel]; [lia |].
  pose proof (lookup_lt_Some _ _ _ Hx) as Hkn. fold n in Hkn.
  destruct (Hins k x Hx) as (HxL & me & Hme & Hok & Hqueue).
  assert (is_ready me = false) as Hrme.
  { apply is_ready_false. now rewrite <- (state_of_lookup _ _ _ Hme). }
  destruct (Hqueue Hrme) as (q & Hq & Hquiet).
  replace (k <? p) with true in Hq by (symmetry; apply Nat.ltb_lt; lia).
  rewrite (resolve_eq _ _ _ _ _ Hme).
  set (me' := resolved_future (effect_of r) (target_state r) (clock h) me).
  set (hm := set_future x me' (tick h)).
  assert (futures hm !! x = Some me') as Hme'.
  { eapply lookup_set_future_eq. simpl. exact Hme. }
  assert (forall i, i <> x -> futures hm !! i = futures h !! i) as Hfm.
  { intros i Hi. unfold hm. now rewrite lookup_set_future_ne by congruence. }
  assert (future_ok me') as Hok' by (apply resolved_future_ok, effect_of_fits).
  assert (is_ready me' = true) as Hr'
      by (apply is_ready_resolved_future, target_state_not_pending).
  rewrite Hq, run_tasks_app. unfold bind.
  destruct (run_quiet_batch fuel x me' q hm Hquiet Hme' Hok') as (h1 & -> & Ef1 & Ec1).
  rewrite run_tasks_one.
  destruct (cascade_upto (p - 1 - k) (S fuel) k h1 x me')
    as (h' & E & Hn' & Hf' & Hc'); try lia.
  { now apply (input_is_source L ins). }
  { now rewrite Ef1. }
  { exact Hr'. }
  { intros j Hkj Hjn.
    apply (node_ok_transfer L C ins p (state_of h) _ h h1 j).
    - rewrite Ef1. apply Hfm. lia.
    - intros jj _. now rewrite Ec1.
    - intros i Hi. destruct (decide (i = x)) as [-> | Hne].
      + now rewrite hide_src.
      + rewrite hide_same by assumption. apply state_of_futures. rewrite Ef1. now apply Hfm.
    - apply Hnodes. lia. }
  assert (forall i, i < L + k -> i <> x -> futures h' !! i = futures h !! i) as Hframe.
  { intros i Hi Hne. rewrite Hf', Ef1 by assumption. now apply Hfm. }
  assert (futures h' !! x = Some me') as Hx'.
  { rewrite Hf', Ef1 by lia. exact Hme'. }
  exists h'. split; [exact E |]. split; [split |].
  - intros j Hj. destruct (le_lt_dec k j) as [Hkj | Hjk]; [apply Hn'; lia |].
    apply (node_ok_transfer L C ins p (state_of h) _ h h' j).
    + apply Hframe; lia.
    + intros jj ->. rewrite Hc' by lia. now rewrite Ec1.
    + intros i Hi. apply state_of_futures, Hframe.
      * pose proof (sources_lt L ins ins_old j i Hi). lia.
      * intros ->. apply (input_not_source_elsewhere L ins ins_nodup ins_old k x j Hx); [lia | exact Hi].
    + apply Hnodes. lia.
  - intros k' x' Hx''. destruct (Hins k' x' Hx'') as (Hx'L & m' & Hm' & Hokm & Hqm).
    split; [exact Hx'L |].
    destruct (decide (x' = x)) as [-> | Hne].
    + exists me'. split; [exact Hx' |]. split; [exact Hok' |]. congruence.
    + exists m'. rewrite Hframe by (assumption || lia). auto.
  - split.
    + now rewrite (state_of_lookup _ _ _ Hx').
    + intros i Hi Hne. apply Hframe; [lia | exact Hne].
Qed.

Lemma chain_events_upto fuel evs :
  forall h,
    n < fuel ->
    chain_inv L C ins p (state_of h) h ->
    NoDup (map fst evs) ->
    Forall (fun ev => fst ev ∈ ins /\ state_of h (fst ev) = state.pending) evs ->
    exists h2,
      run_events (run_task fuel) evs h = Normal tt h2 /\
      chain_inv L C ins p (state_of h2) h2 /\
      (forall i r, (i, r) ∈ evs -> state_of h2 i = target_state r) /\
      (forall i, i < L -> i ∉ map fst evs -> futures h2 !! i = futures h !! i).
Proof.
  induction evs as [| [x r] evs IH]; intros h Hfuel Hinv Hnd Hevs.
  - exists h. split; [reflexivity |]. split; [exact Hinv |]. split; [| auto].
    intros i r Hin. inversion Hin.
  - apply Forall_cons in Hevs as [[Hx Hpend] Hevs]. simpl in Hx, Hpend.
    simpl map in Hnd. apply NoDup_cons in Hnd as [Hfresh Hnd].
    apply list_elem_of_lookup in Hx as [k Hk].
    destruct (chain_event_upto fuel h k x r Hfuel Hinv Hk Hpend) as (h1 & E1 & Hinv1 & Hsx & Hfr1).
    destruct (IH h1 Hfuel Hinv1 Hnd) as (h2 & E2 & Hinv2 & Hres & Hrest).
    { rewrite Forall_forall in *. intros ev Hev. destruct (Hevs ev Hev) as [Hev1 Hev2].
      split; [exact Hev1 |]. rewrite <- Hev2. apply state_of_futures, Hfr1.
      - apply list_elem_of_lookup in Hev1 as [k' Hk']. now apply (ins_old k').
      - intros Heq. apply Hfresh. rewrite <- Heq. apply list_elem_of_fmap. eauto. }
    exists h2. cbn [run_events]. unfold bind. rewrite E1.
    split; [exact E2 |]. split; [exact Hinv2 |]. split.
    + intros j s Hjs. apply elem_of_cons in Hjs as [[= -> ->] | Hjs]; [| eauto].
      rewrite <- Hsx. apply state_of_futures, Hrest; [now apply (ins_old k) | exact Hfresh].
    + intros j HjL Hj. simpl map in Hj. apply not_elem_of_cons in Hj as [Hjx Hj].
      rewrite Hrest, Hfr1; auto.
Qed.

Lemma built_chain_upto h :
  built L C ins p h -> chain_inv L C ins p (state_of h) h.
Proof.
  intros (HL & HC & Hnodes & Hcnt & Hins).
  assert (forall k i, k < p -> i ∈ node_sources L ins k -> state_of h i = state.pending) as Hsrc.
  { intros k i Hk Hi. destruct (sources_cases L ins k i Hi) as [Hx | (j & -> & ->)].
    - destruct (Hins k i Hx) as (me & q & Hme & _ & Hr & _).
      rewrite (state_of_lookup _ _ _ Hme). now apply is_ready_false.
    - destruct (Hnodes j) as (out & Hout & Hst & _); [lia |].
      now rewrite (state_of_lookup _ _ _ Hout). }
  split.
  - intros k Hk. destruct (Hnodes k Hk) as (out & Hout & Hst & Hq).
    assert (Forall (fun s => s = state.pending) (map (state_of h) (node_sources L ins k))) as Hall.
    { apply Forall_forall. intros s Hs. apply list_elem_of_fmap in Hs as (i & -> & Hi).
      apply (Hsrc k); [lia | exact Hi]. }
    assert (node_sources L ins k <> []) as Hne.
    { intros E. pose proof (sources_length L ins ins_nodup ins_old ins_some k ltac:(lia)) as Hlen.
      rewrite E in Hlen. simpl in Hlen. destruct (_ && _); discriminate. }
    exists out. split; [exact Hout |]. split.
    { rewrite Hst. symmetry. apply expected_all_pending; [| exact Hall].
      intros E. apply Hne. now apply map_eq_nil in E. }
    split; [congruence |]. split.
    { assert (is_ready out = false) as -> by (now apply is_ready_false). exact Hq. }
    intros j -> Hlt _.
    assert (done_count (map (state_of h) (node_sources L ins (S j))) = 0) as ->.
    { clear -Hall. induction Hall as [| s ss -> _ IH]; [reflexivity |].
      rewrite done_count_cons. simpl. exact IH. }
    simpl. apply Hcnt; [lia | exact Hlt].
  - intros k x Hx. split; [now apply (ins_old k) |].
    destruct (Hins k x Hx) as (me & q & Hme & Hok & Hr & Hq & Hquiet).
    exists me. split; [exact Hme |]. split; [exact Hok |]. intros _. exists q. auto.
Qed.

Lemma node_states_upto h k :
  chain_inv L C ins p (state_of h) h ->
  k < n ->
  state_of h (L + k) = expected_all (map (state_of h) (rev (take (S k) ins))).
Proof.
  intros [Hnodes _] Hk. induction k as [| j IH].
  - destruct (Hnodes 0 ltac:(lia)) as (out & Hout & Hst & _).
    rewrite (state_of_lookup _ _ _ Hout), Hst. unfold node_sources.
    destruct (ins !! 0) as [x |] eqn:Hx.
    + rewrite (rev_take_S _ _ _ Hx). reflexivity.
    + apply lookup_ge_None in Hx. fold n in Hx. lia.
  - destruct (Hnodes (S j) ltac:(lia)) as (out & Hout & Hst & _).
    rewrite (state_of_lookup _ _ _ Hout), Hst. unfold node_sources.
    destruct (ins !! S j) as [x |] eqn:Hx.
    + rewrite (rev_take_S _ _ _ Hx). simpl map. rewrite IH by lia. apply expected_all_nest.
    + apply lookup_ge_None in Hx. fold n in Hx. lia.
Qed.

End ChainUpTo.

(** X15: [needs_all] over one or more futures given as separate arguments,
    all distinct and pending with queues that hold continuations of the
    caller that return; the producers then resolve arguments, each one
    once, in any order and any number of them, and nothing else is
    registered on the futures [needs_all] creates.  Every call returns,
    and the result is failed with reason "error" if an argument is failed
    or cancelled, done if every argument is done, and pending otherwise. *)
Theorem needs_all_of_arguments_resolution fuel h args evs :
  length args < fuel ->
  args <> [] ->
  NoDup args ->
  (forall x, x ∈ args -> plain_input h x /\ state_of h x = state.pending) ->
  resolves_once h args evs ->
  exists h1 h2 out,
    needs_all (run_task fuel) args h =
      Normal (length (futures h) + (length args - 1)) h1 /\
    run_events (run_task fuel) evs h1 = Normal tt h2 /\
    futures h2 !! (length (futures h) + (length args - 1)) = Some out /\
    state_ out = expected_all (map (state_of h2) args) /\
    (state_ out = state.failed -> failure_reason out = Returns "error") /\
    (forall i r, (i, r) ∈ evs -> state_of h2 i = target_state r) /\
    (forall i, i ∈ args -> i ∉ map fst evs -> state_of h2 i = state.pending).
Proof.
  intros Hfuel Hne Hnd Hplain [Hev_nd Hevs].
  set (L := length (futures h)). set (C := length (counters h)).
  set (ins := rev args).
  assert (length ins = length args) as Hlen by (unfold ins; apply length_rev).
  assert (rev ins = args) as Hrev by (unfold ins; apply rev_involutive).
  assert (forall x, x ∈ ins <-> x ∈ args) as Hmem.
  { intros x. unfold ins. rewrite !list_elem_of_In. symmetry. apply in_rev. }
  assert (NoDup ins) as ins_nodup
      by (unfold ins; now apply NoDup_ListNoDup, List.NoDup_rev, NoDup_ListNoDup).
  assert (forall k x, ins !! k = Some x -> x < L) as ins_old.
  { intros k x Hx. destruct (Hplain x) as [(me & Hme & _) _].
    - apply Hmem, list_elem_of_lookup. eauto.
    - exact (lookup_lt_Some _ _ _ Hme). }
  assert (ins <> []) as ins_some.
  { intros E. apply Hne. rewrite <- Hrev, E. reflexivity. }
  assert (0 < length ins) as Hpos by (destruct ins; [congruence | simpl; lia]).
  assert (built L C ins 0 h) as Hbase.
  { apply built_nothing; [reflexivity | reflexivity |].
    intros x Hx. apply Hplain. now apply Hmem. }
  destruct (build_all L C ins ins_nodup ins_old ins_some (run_task fuel) h Hbase (length ins))
    as (h1 & E1 & Hb1 & _); [lia | lia |].
  rewrite firstn_all, Hrev in E1.
  pose proof (built_chain_upto L C ins ins_nodup ins_old ins_some (length ins)
                ltac:(lia) ltac:(lia) h1 Hb1) as Hinv1.
  destruct (chain_events_upto L C ins ins_nodup ins_old ins_some (length ins)
              ltac:(lia) ltac:(lia) fuel evs h1)
    as (h2 & E2 & Hinv2 & Hres & Hframe); [lia | exact Hinv1 | exact Hev_nd | |].
  { rewrite Forall_forall in *. intros ev Hev. destruct (Hevs ev Hev) as [Hin _].
    split; [now apply Hmem |].
    apply Hmem, list_elem_of_lookup in Hin as [k Hk].
    destruct Hb1 as (_ & _ & _ & _ & Hins).
    destruct (Hins k _ Hk) as (me & q & Hme & _ & Hr & _).
    rewrite (state_of_lookup _ _ _ Hme). now apply is_ready_false. }
  pose proof (node_states_upto L C ins (length ins) ltac:(lia) ltac:(lia) h2 (length ins - 1) Hinv2
                ltac:(lia)) as Hst.
  replace (S (length ins - 1)) with (length ins) in Hst by lia.
  rewrite firstn_all, Hrev in Hst.
  destruct Hinv2 as [Hnodes2 _].
  destruct (Hnodes2 (length ins - 1) ltac:(lia)) as (out & Hout & _ & Hex & _).
  rewrite (state_of_lookup _ _ _ Hout) in Hst.
  rewrite Hlen in *.
  exists h1, h2, out. split; [exact E1 |]. split; [exact E2 |]. split; [exact Hout |].
  split; [exact Hst |]. split.
  { intros Hf. unfold failure_reason. rewrite Hf, (Hex Hf). reflexivity. }
  split; [exact Hres |].
  intros i Hi Hni.
  assert (state_of h1 i = state.pending) as <-.
  { apply Hmem, list_elem_of_lookup in Hi as [k Hk].
    destruct Hb1 as (_ & _ & _ & _ & Hins).
    destruct (Hins k _ Hk) as (me & q & Hme & _ & Hr & _).
    rewrite (state_of_lookup _ _ _ Hme). now apply is_ready_false. }
  apply state_of_futures, Hframe; [| exact Hni].
  apply Hmem, list_elem_of_lookup in Hi as [k Hk]. now apply (ins_old k).
Qed.

(** ** The further theorems at the examples *)

Lemma one_pending_plain :
  plain_input one_pending 0 /\ state_of one_pending 0 = state.pending.
Proof.
  split; [| reflexivity]. eexists. split; [reflexivity |].
  split; [split; discriminate | constructor].
Defined.

Lemma in_two_0 : 0 ∈ [0; 1].
Proof. apply elem_of_cons. left. reflexivity. Defined.

Lemma in_two_1 : 1 ∈ [0; 1].
Proof. apply elem_of_cons. right. apply elem_of_cons. left. reflexivity. Defined.

Lemma two_events_once :
  resolves_once two_pending [0; 1] [(1, by_done 7%Z); (0, by_fail "boom" unknown)].
Proof.
  split.
  - simpl. apply NoDup_cons. split.
    + intros H. apply elem_of_cons in H as [H | H]; [discriminate | inversion H].
    + apply NoDup_cons. split; [intros H; inversion H | apply NoDup_nil_2].
  - constructor; [split; [exact in_two_1 | reflexivity] |].
    constructor; [split; [exact in_two_0 | reflexivity] | constructor].
Defined.

Lemma throwing_continuation_discards_the_rest_witness :
  exists hq me',
    run_tasks (run_task 1) [ready_code {| tag := 1; raises := None |}] 0
      (set_future 0
         (resolved_future (store_value 5%Z) state.done 1
            (push_back (ready_code {| tag := 3; raises := None |})
               (push_back (ready_code {| tag := 2; raises := Some (other_exception "boom") |})
                  (push_back (ready_code {| tag := 1; raises := None |})
                     (new_future "source" 0)))))
         (tick queued_three))
      = Normal tt hq /\
    resolve (run_task 1) 0 (by_done 5%Z) queued_three =
      Throws (other_exception "boom") (logged 2 (saw_future 0 state.done) hq) /\
    futures hq !! 0 = Some me' /\
    state_ me' = state.done /\
    tasks_ me' = [].
Proof.
  apply (throwing_continuation_discards_the_rest 0 queued_three 0 _
           [ready_code {| tag := 1; raises := None |}]
           {| tag := 2; raises := Some (other_exception "boom") |}
           (other_exception "boom")
           [ready_code {| tag := 3; raises := None |}]
           (by_done 5%Z)).
  - reflexivity.
  - reflexivity.
  - constructor; [reflexivity | constructor].
  - reflexivity.
Defined.

Lemma continuations_run_in_registration_order_witness :
  exists h0 h1,
    resolve (run_task 1) 0 by_cancel one_pending = Normal tt h0 /\
    (on_ready_each (run_task 1) 0
       [{| tag := 1; raises := None |}; {| tag := 2; raises := None |}] ;;;
     resolve (run_task 1) 0 by_cancel) one_pending = Normal tt h1 /\
    futures h1 = futures h0 /\
    log h1 = log h0 ++ [(1, saw_future 0 state.cancelled); (2, saw_future 0 state.cancelled)].
Proof.
  apply (continuations_run_in_registration_order 0 one_pending 0
           [{| tag := 1; raises := None |}; {| tag := 2; raises := None |}] by_cancel).
  - exact (proj1 one_pending_plain).
  - exact (proj2 one_pending_plain).
  - constructor; [reflexivity |]. constructor; [reflexivity | constructor].
Defined.

Lemma then_passes_a_failure_on_witness :
  exists h1 h2 out,
    then_ (run_task 1) 0 (fun _ => returns 0) None one_pending = Normal 1 h1 /\
    resolve (run_task 1) 0 (by_fail reason_with_nul "db") h1 = Normal tt h2 /\
    futures h2 !! 1 = Some out /\
    state_ out = state.failed /\
    failure_reason out = Returns "a".
Proof.
  exact (proj1 (then_passes_a_failure_on 0 one_pending 0 (fun _ => returns 0)
                  (by_fail reason_with_nul "db")
                  (proj1 one_pending_plain) (proj2 one_pending_plain)
                  ltac:(discriminate))).
Defined.

Lemma then_turns_a_caught_exception_into_a_failure_witness :
  exists h1 h2 out,
    then_ (run_task 1) 0 (fun _ => throws (runtime_error "bad")) None one_pending
      = Normal 1 h1 /\
    done (run_task 1) 0 5%Z h1 = Normal tt h2 /\
    futures h2 !! 1 = Some out /\
    state_ out = state.failed /\
    failure_reason out = Returns "bad".
Proof.
  apply (proj1 (then_turns_a_caught_exception_into_a_failure 0 one_pending 0
                  (fun _ => throws (runtime_error "bad")) None (runtime_error "bad") "bad"
                  (proj1 one_pending_plain) (proj2 one_pending_plain)
                  (or_introl eq_refl)) 5%Z).
  reflexivity.
Defined.

Lemma then_recovers_through_the_failure_callback_witness :
  exists h1 h2 h3 out,
    then_ (run_task 2) 0 (fun _ => returns 0) (Some (fun _ => returns 1)) two_pending
      = Normal 2 h1 /\
    fail (run_task 2) 0 "boom" "db" h1 = Normal tt h2 /\
    resolve (run_task 2) 1 (by_done 9%Z) h2 = Normal tt h3 /\
    futures h3 !! 2 = Some out /\
    mirrors (by_done 9%Z) out.
Proof.
  apply (then_recovers_through_the_failure_callback 0 two_pending 0 1 "boom" "db"
           (by_done 9%Z) (fun _ => returns 0) (fun _ => returns 1)).
  - discriminate.
  - exact (proj1 (two_pending_plain 0 in_two_0)).
  - reflexivity.
  - exact (proj1 (two_pending_plain 1 in_two_1)).
  - reflexivity.
  - reflexivity.
Defined.

Lemma cancelling_the_outer_future_cancels_the_inner_witness :
  exists h1 h2 h3 out,
    then_ (run_task 3) 0 (fun _ => returns 1) None two_pending = Normal 2 h1 /\
    done (run_task 3) 0 5%Z h1 = Normal tt h2 /\
    cancel (run_task 3) 2 h2 = Normal tt h3 /\
    state_of h3 1 = state.cancelled /\
    futures h3 !! 2 = Some out /\
    state_ out = state.failed /\
    failure_reason out = Returns "cancelled".
Proof.
  apply (cancelling_the_outer_future_cancels_the_inner 0 two_pending 0 1 5%Z
           (fun _ => returns 1) None).
  - discriminate.
  - exact (proj1 (two_pending_plain 0 in_two_0)).
  - reflexivity.
  - exact (proj1 (two_pending_plain 1 in_two_1)).
  - reflexivity.
  - reflexivity.
Defined.

Lemma resolving_the_outer_future_first_disables_then_witness :
  exists h1 h2 h3 out,
    then_ (run_task 1) 0 (fun _ => throws (other_exception "bad")) None one_pending
      = Normal 1 h1 /\
    resolve (run_task 1) 1 by_cancel h1 = Normal tt h2 /\
    resolve (run_task 1) 0 (by_done 5%Z) h2 = Normal tt h3 /\
    futures h2 !! 1 = Some out /\
    futures h3 !! 1 = Some out /\
    state_ out = state.cancelled /\
    state_of h3 0 = state.done /\
    length (futures h3) = 2.
Proof.
  exact (resolving_the_outer_future_first_disables_then 0 one_pending 0
           (fun _ => throws (other_exception "bad")) None by_cancel (by_done 5%Z)
           (proj1 one_pending_plain) (proj2 one_pending_plain)).
Defined.

Lemma needs_all_of_one_future_follows_it_witness :
  exists h1 h2 out,
    needs_all (run_task 1) [0] one_pending = Normal 1 h1 /\
    resolve (run_task 1) 0 by_cancel h1 = Normal tt h2 /\
    futures h2 !! 1 = Some out /\
    state_ out = state.failed /\
    (state_ out = state.failed -> failure_reason out = Returns "error") /\
    (state_ out = state.done -> value out = Returns 0%Z).
Proof.
  exact (proj1 (proj2 (needs_all_of_one_future_follows_it 0 one_pending 0 by_cancel
                         (proj1 one_pending_plain) (proj2 one_pending_plain)))).
Defined.

Lemma needs_any_vector_first_resolution_decides_witness :
  exists h1 h2 out,
    needs_any_vector (run_task 1) [0; 1] two_pending = Normal 2 h1 /\
    run_events (run_task 1) [(1, by_done 7%Z); (0, by_fail "boom" unknown)] h1
      = Normal tt h2 /\
    futures h2 !! 2 = Some out /\
    state_ out = state.done /\
    (state_ out = state.failed -> failure_reason out = Returns "error") /\
    (state_ out = state.done -> value out = Returns 0%Z) /\
    (forall i r, (i, r) ∈ [(1, by_done 7%Z); (0, by_fail "boom" unknown)] ->
       state_of h2 i = target_state r) /\
    (forall i, i ∈ [0; 1] -> i ∉ map fst [(1, by_done 7%Z); (0, by_fail "boom" unknown)] ->
       state_of h2 i = state.pending).
Proof.
  exact (needs_any_vector_first_resolution_decides 0 two_pending [0; 1]
           [(1, by_done 7%Z); (0, by_fail "boom" unknown)]
           two_pending_plain two_events_once).
Defined.

Lemma needs_all_of_arguments_resolution_witness :
  exists h1 h2 out,
    needs_all (run_task 3) [0; 1] two_pending = Normal 3 h1 /\
    run_events (run_task 3) [(1, by_done 7%Z); (0, by_fail "boom" unknown)] h1
      = Normal tt h2 /\
    futures h2 !! 3 = Some out /\
    state_ out = expected_all (map (state_of h2) [0; 1]) /\
    (state_ out = state.failed -> failure_reason out = Returns "error") /\
    (forall i r, (i, r) ∈ [(1, by_done 7%Z); (0, by_fail "boom" unknown)] ->
       state_of h2 i = target_state r) /\
    (forall i, i ∈ [0; 1] -> i ∉ map fst [(1, by_done 7%Z); (0, by_fail "boom" unknown)] ->
       state_of h2 i = state.pending).
Proof.
  apply (needs_all_of_arguments_resolution 3 two_pending [0; 1]
           [(1, by_done 7%Z); (0, by_fail "boom" unknown)]).
  - simpl. lia.
  - discriminate.
  - exact two_pending_nodup.
  - exact two_pending_plain.
  - exact two_events_once.
Defined.

(** ** Relations kept by every step *)

Section Preserves.

Variable R : heap -> heap -> Prop.
Hypothesis R_refl : forall h, R h h.
Hypothesis R_trans : forall h1 h2 h3, R h1 h2 -> R h2 h3 -> R h1 h3.
Hypothesis R_tick : forall h, R h (tick h).
Hypothesis R_logged : forall n o h, R h (logged n o h).
Hypothesis R_add_counter : forall z h, R h (add_counter z h).
Hypothesis R_set_counter : forall c z h, R h (set_counter c z h).
Hypothesis R_create : forall label h,
  R h (tick (add_future (new_future label (clock h)) h)).
Hypothesis R_push : forall self code me h,
  futures h !! self = Some me -> is_ready me = false ->
  R h (set_future self (push_back code me) h).
Hypothesis R_resolve : forall self code s me h,
  futures h !! self = Some me -> s <> state.pending ->
  R h (set_future self (resolved_future code s (clock h) me) (tick h)).

Lemma preserves_ret {A} (a : A) : preserves R (ret a).
Proof. intros h. apply R_refl. Qed.

Lemma preserves_throw {A} e : preserves R (@throw A e).
Proof. intros h. apply R_refl. Qed.

Lemma preserves_bind {A B} (m : M A) (k : A -> M B) :
  preserves R m -> (forall a, preserves R (k a)) -> preserves R (bind m k).
Proof.
  intros Hm Hk h. unfold bind. specialize (Hm h).
  destruct (m h) as [a h1 | e h1 | |]; try exact I; try assumption.
  specialize (Hk a h1). destruct (k a h1); try exact I; eapply R_trans; eauto.
Qed.

Lemma preserves_try_catch {A} (m : M A) handler :
  preserves R m -> (forall e k, handler e = Some k -> preserves R k) ->
  preserves R (try_catch m handler).
Proof.
  intros Hm Hh h. unfold try_catch. specialize (Hm h).
  destruct (m h) as [a h1 | e h1 | |]; try exact I; try assumption.
  destruct (handler e) as [k |] eqn:E; [| assumption].
  specialize (Hh e k E h1). destruct (k h1); try exact I; eapply R_trans; eauto.
Qed.

Lemma preserves_get_future id : preserves R (get_future id).
Proof. intros h. unfold get_future. destruct (futures h !! id); [apply R_refl | exact I]. Qed.

Lemma preserves_lift {A} (r : result A) : preserves R (lift r).
Proof. destruct r; [apply preserves_ret | apply preserves_throw | intros h; exact I]. Qed.

Lemma preserves_run_user u o : preserves R (run_user u o).
Proof.
  apply preserves_bind; [intros h; apply R_logged |].
  intros _. destruct (raises u); [apply preserves_throw | apply preserves_ret].
Qed.

Lemma preserves_call {A} (cb : A -> callback_result) a : preserves R (call cb a).
Proof. unfold call. destruct (cb a); [apply preserves_ret | apply preserves_throw]. Qed.

Lemma preserves_create_shared label : preserves R (create_shared label).
Proof. intros h. apply R_create. Qed.

Lemma preserves_new_counter z : preserves R (new_counter z).
Proof. intros h. apply R_add_counter. Qed.

Lemma preserves_pre_decrement c : preserves R (pre_decrement c).
Proof.
  intros h. unfold pre_decrement. destruct (counters h !! c); [apply R_set_counter | exact I].
Qed.

Section Dispatching.

Variable invoke : task -> nat -> M unit.
Hypothesis invoke_preserves : forall t self, preserves R (invoke t self).

Lemma preserves_run_tasks pending self : preserves R (run_tasks invoke pending self).
Proof.
  induction pending as [| v rest IH]; simpl.
  - apply preserves_ret.
  - apply preserves_bind; [apply invoke_preserves | intros _; exact IH].
Qed.

Lemma preserves_call_when_ready self code : preserves R (call_when_ready invoke self code).
Proof.
  intros h. unfold call_when_ready, bind, get_future.
  destruct (futures h !! self) as [me |] eqn:Hme; [| exact I].
  destruct (is_ready me) eqn:Hr.
  - apply invoke_preserves.
  - now apply R_push.
Qed.

Lemma preserves_apply_state self code s : preserves R (apply_state invoke self code s).
Proof.
  intros h.
  assert (s <> state.pending ->
          match (me <- get_future self ;; t <- now ;;
                 put_future self (resolved_future code s t me) ;;;
                 run_tasks invoke (tasks_ (run_effect code me)) self) h with
          | Normal _ h' | Throws _ h' => R h h'
          | _ => True
          end) as H.
  { intros Hs. unfold bind at 1. unfold get_future.
    destruct (futures h !! self) as [me |] eqn:Hme; [| exact I].
    unfold bind at 1. unfold now. unfold bind at 1. unfold put_future.
    set (h1 := set_future _ _ _).
    pose proof (preserves_run_tasks (tasks_ (run_effect code me)) self h1) as Hrun.
    assert (R h h1) as Hg by (now apply R_resolve).
    destruct (run_tasks _ _ _ h1); try exact I; eapply R_trans; eauto. }
  unfold apply_state. destruct s; try (apply H; discriminate). exact I.
Qed.

Lemma preserves_resolve self r : preserves R (resolve invoke self r).
Proof. destruct r; apply preserves_apply_state. Qed.

Lemma preserves_propagate f inner : preserves R (propagate invoke f inner).
Proof.
  unfold propagate, on_done, on_fail_reason, on_cancel_void.
  repeat (apply preserves_bind; [apply preserves_call_when_ready | intros _]).
  apply preserves_call_when_ready.
Qed.

Lemma preserves_task_body t self : preserves R (task_body invoke t self).
Proof.
  destruct t as [u | code | u | code | u | code | f ok err | f | f pending]; simpl.
  - apply preserves_bind; [apply preserves_get_future | intros me]. apply preserves_run_user.
  - apply preserves_bind; [apply preserves_get_future | intros me].
    destruct (is_done me); [| apply preserves_ret].
    apply preserves_bind; [apply preserves_lift | intros v].
    destruct code; simpl; [apply preserves_run_user | apply preserves_apply_state].
  - apply preserves_bind; [apply preserves_get_future | intros me].
    destruct (is_failed me); [| apply preserves_ret].
    apply preserves_bind; [apply preserves_lift | intros v]. apply preserves_run_user.
  - apply preserves_bind; [apply preserves_get_future | intros me].
    destruct (is_failed me); [| apply preserves_ret].
    apply preserves_bind; [apply preserves_lift | intros v].
    destruct code; simpl; [apply preserves_run_user | apply preserves_apply_state].
  - apply preserves_bind; [apply preserves_get_future | intros me].
    destruct (is_cancelled me); [| apply preserves_ret]. apply preserves_run_user.
  - apply preserves_bind; [apply preserves_get_future | intros me].
    destruct (is_cancelled me); [| apply preserves_ret].
    destruct code; simpl;
      [apply preserves_run_user | apply preserves_apply_state | apply preserves_apply_state].
  - apply preserves_try_catch.
    + apply preserves_bind; [apply preserves_get_future | intros out].
      destruct (is_ready out); [apply preserves_ret |].
      apply preserves_bind; [apply preserves_get_future | intros me].
      destruct (is_done me).
      { apply preserves_bind; [apply preserves_lift | intros v].
        apply preserves_bind; [apply preserves_call | intros inner].
        apply preserves_propagate. }
      destruct (is_failed me).
      { destruct err as [err |].
        - apply preserves_bind; [apply preserves_lift | intros v].
          apply preserves_bind; [apply preserves_call | intros inner].
          apply preserves_propagate.
        - apply preserves_bind; [apply preserves_lift | intros v].
          apply preserves_apply_state. }
      destruct (is_cancelled me); [apply preserves_apply_state | apply preserves_ret].
    + intros e k. destruct e; simpl; intros [= <-]; apply preserves_apply_state.
  - apply preserves_bind; [apply preserves_get_future | intros out].
    destruct (is_ready out); [apply preserves_ret |].
    apply preserves_bind; [apply preserves_get_future | intros me].
    destruct (negb (is_done me)); apply preserves_apply_state.
  - apply preserves_bind; [apply preserves_get_future | intros out].
    destruct (is_ready out); [apply preserves_ret |].
    apply preserves_bind; [apply preserves_get_future | intros me].
    destruct (negb (is_done me)); [apply preserves_apply_state |].
    apply preserves_bind; [apply preserves_pre_decrement | intros c].
    destruct (c =? 0)%Z; [apply preserves_apply_state | apply preserves_ret].
Qed.

Lemma preserves_then self ok err : preserves R (then_ invoke self ok err).
Proof.
  unfold then_.
  apply preserves_bind; [apply preserves_create_shared | intros f].
  apply preserves_bind; [apply preserves_call_when_ready | intros _].
  apply preserves_ret.
Qed.

Lemma preserves_register_all first code : preserves R (register_all invoke first code).
Proof.
  induction first as [| it rest IH]; simpl; [apply preserves_ret |].
  apply preserves_bind; [apply preserves_call_when_ready | intros _; exact IH].
Qed.

Lemma preserves_needs_all_one first : preserves R (needs_all_one invoke first).
Proof.
  unfold needs_all_one.
  apply preserves_bind; [apply preserves_create_shared | intros f].
  apply preserves_bind; [apply preserves_call_when_ready | intros _].
  apply preserves_ret.
Qed.

Lemma preserves_needs_all_vector first : preserves R (needs_all_vector invoke first).
Proof.
  unfold needs_all_vector.
  apply preserves_bind; [apply preserves_create_shared | intros f].
  apply preserves_bind; [apply preserves_new_counter | intros c].
  apply preserves_bind; [apply preserves_register_all | intros _].
  apply preserves_ret.
Qed.

Lemma preserves_needs_all args : preserves R (needs_all invoke args).
Proof.
  induction args as [| first rest IH].
  - simpl. unfold needs_all_none.
    apply preserves_bind; [apply preserves_create_shared | intros f].
    apply preserves_bind; [apply preserves_apply_state | intros _]. apply preserves_ret.
  - destruct rest as [| y l]; [apply preserves_needs_all_one |].
    rewrite needs_all_pair.
    apply preserves_bind; [exact IH | intros remainder].
    apply preserves_bind; [apply preserves_create_shared | intros f].
    apply preserves_bind; [apply preserves_new_counter | intros c].
    apply preserves_bind; [apply preserves_call_when_ready | intros _].
    apply preserves_bind; [apply preserves_call_when_ready | intros _].
    apply preserves_ret.
Qed.

Lemma preserves_needs_any_vector first : preserves R (needs_any_vector invoke first).
Proof.
  unfold needs_any_vector.
  apply preserves_bind; [apply preserves_create_shared | intros f].
  apply preserves_bind; [apply preserves_register_all | intros _].
  apply preserves_ret.
Qed.

Lemma preserves_needs_any args : preserves R (needs_any invoke args).
Proof.
  destruct args as [| first rest].
  - simpl. unfold needs_any_none.
    apply preserves_bind; [apply preserves_create_shared | intros f].
    apply preserves_bind; [apply preserves_apply_state | intros _]. apply preserves_ret.
  - destruct rest as [| y l]; [apply preserves_needs_all_one |].
    unfold needs_any.
    apply preserves_bind; [apply preserves_needs_all | intros remainder].
    apply preserves_bind; [apply preserves_create_shared | intros f].
    apply preserves_bind; [apply preserves_call_when_ready | intros _].
    apply preserves_bind; [apply preserves_call_when_ready | intros _].
    apply preserves_ret.
Qed.

End Dispatching.

Lemma preserves_run_task fuel : forall t self, preserves R (run_task fuel t self).
Proof.
  induction fuel as [| n IH]; intros t self.
  - intros h. exact I.
  - simpl. now apply preserves_task_body.
Qed.

End Preserves.

(** ** Labels and creation stamps *)

Lemma keeps_labels_refl h : keeps_labels h h.
Proof. intros id f Hf. eauto. Qed.

Lemma keeps_labels_trans h1 h2 h3 :
  keeps_labels h1 h2 -> keeps_labels h2 h3 -> keeps_labels h1 h3.
Proof.
  intros Hk12 Hk23 id f Hf.
  destruct (Hk12 _ _ Hf) as (f2 & Hf2 & Hl2 & Ht2).
  destruct (Hk23 _ _ Hf2) as (f3 & Hf3 & Hl3 & Ht3).
  exists f3. split; [exact Hf3 |]. split; congruence.
Qed.

Lemma keeps_labels_same_futures h h' :
  futures h' = futures h -> keeps_labels h h'.
Proof. intros Ef id f Hf. rewrite Ef. eauto. Qed.

Lemma keeps_labels_create label h :
  keeps_labels h (tick (add_future (new_future label (clock h)) h)).
Proof.
  intros id f Hf. exists f. split; [| auto]. simpl.
  rewrite lookup_app_l by (eapply lookup_lt_Some; eauto). exact Hf.
Qed.

Lemma keeps_labels_insert self new me h h' :
  futures h !! self = Some me ->
  futures h' = <[self := new]> (futures h) ->
  label_ new = label_ me -> created_ new = created_ me ->
  keeps_labels h h'.
Proof.
  intros Hme Ef Hl Ht id f Hf. rewrite Ef. destruct (decide (self = id)) as [-> | Hne].
  - rewrite list_lookup_insert_eq by (eapply lookup_lt_Some; eauto).
    exists new. assert (f = me) as -> by congruence. auto.
  - rewrite list_lookup_insert_ne by assumption. eauto.
Qed.

Lemma keeps_labels_push self code me h :
  futures h !! self = Some me -> is_ready me = false ->
  keeps_labels h (set_future self (push_back code me) h).
Proof.
  intros Hme Hr.
  apply (keeps_labels_insert self (push_back code me) me h _ Hme); reflexivity.
Qed.

Lemma keeps_labels_resolve self code s me h :
  futures h !! self = Some me -> s <> state.pending ->
  keeps_labels h (set_future self (resolved_future code s (clock h) me) (tick h)).
Proof.
  intros Hme Hs.
  apply (keeps_labels_insert self (resolved_future code s (clock h) me) me h _ Hme);
    [reflexivity | |]; now destruct code.
Qed.

(** X16: whatever an operation of the header does, whether it returns or
    lets an exception out, every future of the store is still in the
    store afterwards, with the label and the creation stamp the
    constructor gave it; and the constructor stores the label it is
    given. *)
Theorem operations_keep_labels fuel :
  (forall name t, label (new_future name t) = name /\
                  created_ (new_future name t) = t) /\
  (forall label, preserves keeps_labels (create_shared label)) /\
  (forall self r, preserves keeps_labels (resolve (run_task fuel) self r)) /\
  (forall self code, preserves keeps_labels (call_when_ready (run_task fuel) self code)) /\
  (forall self ok err, preserves keeps_labels (then_ (run_task fuel) self ok err)) /\
  (forall args, preserves keeps_labels (needs_all (run_task fuel) args)) /\
  (forall first, preserves keeps_labels (needs_all_vector (run_task fuel) first)) /\
  (forall args, preserves keeps_labels (needs_any (run_task fuel) args)) /\
  (forall first, preserves keeps_labels (needs_any_vector (run_task fuel) first)).
Proof.
  assert (forall label h, keeps_labels h (tick (add_future (new_future label (clock h)) h)))
    as Hcreate by (intros; apply keeps_labels_create).
  assert (forall h, keeps_labels h (tick h)) as Htick
      by (intros; apply keeps_labels_same_futures; reflexivity).
  assert (forall n o h, keeps_labels h (logged n o h)) as Hlog
      by (intros; apply keeps_labels_same_futures; reflexivity).
  assert (forall z h, keeps_labels h (add_counter z h)) as Hadd
      by (intros; apply keeps_labels_same_futures; reflexivity).
  assert (forall c z h, keeps_labels h (set_counter c z h)) as Hset
      by (intros; apply keeps_labels_same_futures; reflexivity).
  assert (forall t self, preserves keeps_labels (run_task fuel t self)) as Hrun
      by (apply preserves_run_task;
          eauto using keeps_labels_refl, keeps_labels_trans, keeps_labels_push,
            keeps_labels_resolve).
  split; [intros; split; reflexivity |].
  split; [intros label h; apply Hcreate |].
  repeat split; intros.
  - apply preserves_resolve;
      eauto using keeps_labels_refl, keeps_labels_trans, keeps_labels_resolve.
  - apply preserves_call_when_ready; eauto using keeps_labels_push.
  - apply preserves_then;
      eauto using keeps_labels_refl, keeps_labels_trans, keeps_labels_push.
  - apply preserves_needs_all;
      eauto using keeps_labels_refl, keeps_labels_trans, keeps_labels_push,
        keeps_labels_resolve.
  - apply preserves_needs_all_vector;
      eauto using keeps_labels_refl, keeps_labels_trans, keeps_labels_push.
  - apply preserves_needs_any;
      eauto using keeps_labels_refl, keeps_labels_trans, keeps_labels_push,
        keeps_labels_resolve.
  - apply preserves_needs_any_vector;
      eauto using keeps_labels_refl, keeps_labels_trans, keeps_labels_push.
Qed.

(** ** Chains of [then] *)

Lemma then_pending_length fuel a ok err ma h h' :
  futures h !! a = Some ma -> is_ready ma = false ->
  then_ (run_task fuel) a ok err h = Normal (length (futures h)) h' ->
  length (futures h') = S (length (futures h)).
Proof.
  intros Hma Hra. unfold then_, bind, create_shared.
  rewrite (call_when_ready_pending _ a _ _ ma).
  - unfold ret. intros [= <-]. simpl. rewrite length_insert, length_app. simpl. lia.
  - simpl. rewrite lookup_app_l by (eapply lookup_lt_Some; eauto). exact Hma.
  - exact Hra.
Qed.

(** The three lambdas [then] registers on the inner future make one
    resolving call on the outer future, whatever the queue of the outer
    future does, as long as it leaves the inner future alone. *)
Lemma forwarders_make_one_call fuel f g mg h h' :
  futures h !! g = Some mg -> is_ready mg = true -> future_ok mg ->
  resolve (run_task (S fuel)) f (forwarded mg) h = Normal tt h' ->
  futures h' !! g = Some mg ->
  run_tasks (run_task (S (S fuel))) (forwarders f) g h = Normal tt h'.
Proof.
  intros Hmg Hr [_ Hex] E Hmg'.
  unfold forwarders. cbn [run_tasks]. rewrite !(run_task_S (S fuel)). cbn [task_body].
  unfold forwarded in E.
  unfold bind, get_future, is_done, is_failed, is_cancelled, value, failure_reason.
  rewrite Hmg.
  destruct (state_ mg) eqn:Hs.
  - unfold is_ready in Hr. rewrite Hs in Hr. discriminate.
  - cbn [resolve] in E.
    repeat first [rewrite E | rewrite Hmg' | rewrite Hs
                  | progress cbn -[run_task done fail cancel]].
    reflexivity.
  - specialize (Hex eq_refl). destruct (ex_ mg) as [fe |] eqn:Hfe; [| congruence].
    cbn [resolve] in E.
    repeat first [rewrite E | rewrite Hmg' | rewrite Hmg | rewrite Hs | rewrite Hfe
                  | progress cbn -[run_task done fail cancel]].
    reflexivity.
  - cbn [resolve] in E.
    repeat first [rewrite E | rewrite Hmg | rewrite Hs
                  | progress cbn -[run_task done fail cancel]].
    reflexivity.
Qed.

(** X18: [a->then(ok1)->then(ok2)], where [a], [g1] and [g2] are distinct
    pending futures whose queues hold continuations of the caller that
    return, and nothing else is registered on the two outer futures.  The
    source [a] is resolved by [done(v)], [ok1 v] returns [g1], and [g1] is
    resolved by [r1]; every call returns.  If [r1] is [done(x)], with
    [ok2 x] returning [g2], the outer future of the second [then] ends as
    [g2] does; if [g1] fails or is cancelled, [ok2] is not called and the
    outer future of the second [then] fails with the reason of [g1] up to
    its first NUL, or with reason "cancelled". *)
Theorem then_chains_compose fuel h a g1 g2 v r1 ok1 ok2 :
  a <> g1 -> a <> g2 -> g1 <> g2 ->
  plain_input h a -> state_of h a = state.pending ->
  plain_input h g1 -> state_of h g1 = state.pending ->
  plain_input h g2 -> state_of h g2 = state.pending ->
  ok1 v = returns g1 ->
  (forall x, r1 = by_done x -> ok2 x = returns g2) ->
  exists h1 h2 h3 h4,
    then_ (run_task (S (S fuel))) a ok1 None h = Normal (length (futures h)) h1 /\
    then_ (run_task (S (S fuel))) (length (futures h)) ok2 None h1 =
      Normal (S (length (futures h))) h2 /\
    done (run_task (S (S fuel))) a v h2 = Normal tt h3 /\
    resolve (run_task (S (S fuel))) g1 r1 h3 = Normal tt h4 /\
    match r1 with
    | by_done _ =>
        forall r, exists h5 out,
          resolve (run_task (S (S fuel))) g2 r h4 = Normal tt h5 /\
          futures h5 !! S (length (futures h)) = Some out /\
          mirrors r out
    | by_fail m _ =>
        exists out,
          futures h4 !! S (length (futures h)) = Some out /\
          state_ out = state.failed /\ failure_reason out = Returns (c_str m)
    | by_cancel =>
        exists out,
          futures h4 !! S (length (futures h)) = Some out /\
          state_ out = state.failed /\ failure_reason out = Returns "cancelled"
    end.
Proof.
  intros Hag1 Hag2 Hg12 Hpa Hsa Hpg1 Hsg1 Hpg2 Hsg2 Hok1 Hok2.
  destruct (plain_pending h a Hpa Hsa) as (ma & Hma & Hra & Hoka & Hqa).
  destruct (plain_pending h g1 Hpg1 Hsg1) as (mg1 & Hmg1 & Hrg1 & Hokg1 & Hqg1).
  destruct (plain_pending h g2 Hpg2 Hsg2) as (mg2 & Hmg2 & Hrg2 & Hokg2 & Hqg2).
  pose proof (lookup_lt_Some _ _ _ Hma) as Hlta.
  pose proof (lookup_lt_Some _ _ _ Hmg1) as Hltg1.
  pose proof (lookup_lt_Some _ _ _ Hmg2) as Hltg2.
  set (f1 := length (futures h)) in *. set (f2 := S f1).
  set (tl1 := then_lambda f1 ok1 None). set (tl2 := then_lambda f2 ok2 None).
  set (ci1 := on_cancel_void_lambda (cancel_inner g1)).
  set (ci2 := on_cancel_void_lambda (cancel_inner g2)).
  (* the two calls of [then] *)
  destruct (then_pending (S (S fuel)) a ok1 None ma h Hma Hra)
    as (h1 & E1 & Ha1 & Hf1 & _ & Hfr1).
  fold f1 in E1, Ha1, Hf1, Hfr1. fold tl1 in Ha1.
  pose proof (then_pending_length _ _ _ _ _ _ _ Hma Hra E1) as Hlen1. fold f1 in Hlen1.
  set (new1 := new_future unlabelled (clock h)) in *.
  destruct (then_pending (S (S fuel)) f1 ok2 None new1 h1 Hf1 eq_refl)
    as (h2 & E2 & Hf1_2 & Hf2_2 & _ & Hfr2).
  rewrite Hlen1 in E2, Hf1_2, Hf2_2, Hfr2. fold f2 in E2, Hf1_2, Hf2_2, Hfr2.
  fold tl2 in Hf1_2.
  set (new2 := new_future unlabelled (clock h1)) in *.
  assert (futures h2 !! a = Some (push_back tl1 ma)) as Ha2.
  { rewrite Hfr2 by lia. exact Ha1. }
  assert (futures h2 !! g1 = Some mg1) as Hg1_2.
  { rewrite Hfr2 by lia. rewrite Hfr1 by lia. exact Hmg1. }
  assert (futures h2 !! g2 = Some mg2) as Hg2_2.
  { rewrite Hfr2 by lia. rewrite Hfr1 by lia. exact Hmg2. }
  (* the source is done: the first lambda wires [g1] to the first outer future *)
  destruct (resolve_runs_last (S fuel) a _ (tasks_ ma) tl1 (by_done v) h2 Ha2 eq_refl Hqa)
    as (hq & Efq & _ & E3).
  set (ma' := resolved_future (effect_of (by_done v)) (target_state (by_done v)) (clock h2)
                (push_back tl1 ma)) in *.
  assert (forall j, j <> a -> futures hq !! j = futures h2 !! j) as Hfrq.
  { intros j Hj. rewrite Efq. now apply list_lookup_insert_ne. }
  destruct (propagate_pending g1 f1 ltac:(lia) (S fuel) (push_back tl2 new1) mg1 hq)
    as (h3 & Eprop & Hg1_3 & Hf1_3 & Hfr3);
    try (rewrite Hfrq by lia; assumption); try reflexivity; try assumption.
  fold ci1 in Hf1_3.
  assert (run_task (S (S fuel)) tl1 a hq = Normal tt h3) as E3'.
  { apply (then_lambda_run a g1 f1 ok1 None v Hok1 (S fuel) (push_back tl2 new1) ma' hq h3);
      try reflexivity; try assumption.
    - rewrite Hfrq by lia. exact Hf1_2.
    - rewrite Efq. apply list_lookup_insert_eq. exact (lookup_lt_Some _ _ _ Ha2). }
  assert (futures h3 !! f2 = Some new2) as Hf2_3.
  { rewrite Hfr3 by lia. rewrite Hfrq by lia. exact Hf2_2. }
  assert (futures h3 !! g2 = Some mg2) as Hg2_3.
  { rewrite Hfr3 by lia. rewrite Hfrq by lia. exact Hg2_2. }
  exists h1, h2, h3.
  cut (exists h4,
         resolve (run_task (S (S fuel))) g1 r1 h3 = Normal tt h4 /\
         match r1 with
         | by_done _ =>
             futures h4 !! g2 = Some (wired f2 mg2) /\
             futures h4 !! f2 = Some (push_back ci2 new2)
         | by_fail m _ =>
             exists out, futures h4 !! f2 = Some out /\
                         state_ out = state.failed /\ failure_reason out = Returns (c_str m)
         | by_cancel =>
             exists out, futures h4 !! f2 = Some out /\
                         state_ out = state.failed /\ failure_reason out = Returns "cancelled"
         end).
  { intros (h4 & E4 & H4). exists h4. split; [exact E1 |]. split; [exact E2 |].
    split; [change (done (run_task (S (S fuel))) a v)
              with (resolve (run_task (S (S fuel))) a (by_done v));
            rewrite E3; exact E3' |].
    split; [exact E4 |].
    destruct r1 as [x | m c |]; try exact H4.
    destruct H4 as [Hg2_4 Hf2_4]. intros r.
    apply (inner_resolves g2 f2 ltac:(lia) fuel mg2 new2 r h4 Hg2_4 Hqg2 Hf2_4);
      reflexivity. }
  clear E1 E2 E3 E3'.
  (* [g1] is resolved: its queue ends with the three lambdas *)
  rewrite (resolve_eq _ _ _ _ _ Hg1_3).
  set (mg1' := resolved_future (effect_of r1) (target_state r1) (clock h3) (wired f1 mg1)).
  set (hm := set_future g1 mg1' (tick h3)).
  assert (futures hm !! g1 = Some mg1') as Hg1m.
  { eapply lookup_set_future_eq. simpl. exact Hg1_3. }
  assert (future_ok mg1') as Hokg1' by (apply resolved_future_ok, effect_of_fits).
  assert (is_ready mg1' = true) as Hrg1'
      by (apply is_ready_resolved_future, target_state_not_pending).
  rewrite tasks_wired, run_tasks_app. unfold bind at 1.
  destruct (run_quiet_batch (S fuel) g1 mg1' (tasks_ mg1) hm Hqg1 Hg1m Hokg1')
    as (hq1 & -> & Ef1 & _).
  assert (forall j, j <> g1 -> futures hq1 !! j = futures h3 !! j) as Hfrq1.
  { intros j Hj. rewrite Ef1. unfold hm. now rewrite lookup_set_future_ne by congruence. }
  assert (futures hq1 !! g1 = Some mg1') as Hg1q by (now rewrite Ef1).
  assert (futures hq1 !! f1 = Some (push_back ci1 (push_back tl2 new1))) as Hf1q.
  { rewrite Hfrq1 by lia. exact Hf1_3. }
  (* the resolving call the lambdas make on the first outer future *)
  set (fw := forwarded mg1').
  set (f1' := resolved_future (effect_of fw) (target_state fw) (clock hq1)
                (push_back ci1 (push_back tl2 new1))).
  set (hf := set_future f1 f1' (tick hq1)).
  assert (futures hf !! f1 = Some f1') as Hf1f.
  { eapply lookup_set_future_eq. simpl. exact Hf1q. }
  assert (forall j, j <> f1 -> futures hf !! j = futures hq1 !! j) as Hfrf.
  { intros j Hj. unfold hf. now rewrite lookup_set_future_ne by congruence. }
  assert (is_cancelled f1' = false) as Hnc.
  { unfold is_cancelled, f1'. simpl.
    pose proof (forwarded_not_cancelled mg1') as H. fold fw in H.
    destruct (target_state fw); simpl; congruence. }
  assert (forall h4,
            run_task (S fuel) tl2 f1 hf = Normal tt h4 ->
            futures h4 !! f1 = Some f1' -> futures h4 !! g1 = Some mg1' ->
            run_tasks (run_task (S (S fuel))) (forwarders f1) g1 hq1 = Normal tt h4) as Hcall.
  { intros h4 Etl Hf1_4 Hg1_4.
    apply (forwarders_make_one_call fuel f1 g1 mg1' hq1 h4 Hg1q Hrg1' Hokg1'); [| exact Hg1_4].
    fold fw. rewrite (resolve_eq _ _ _ _ _ Hf1q). fold f1'. fold hf.
    change (tasks_ (push_back ci1 (push_back tl2 new1))) with [tl2; ci1].
    cbn [run_tasks]. unfold bind at 1. rewrite Etl.
    unfold bind at 1. unfold ci1.
    now rewrite (run_cancel_inner_skipped fuel f1 g1 f1' h4 Hf1_4 Hnc). }
  destruct r1 as [x | m c |].
  - (* [g1] is done: the second lambda wires [g2] to the second outer future *)
    destruct (propagate_pending g2 f2 ltac:(lia) fuel new2 mg2 hf)
      as (h4 & Eprop2 & Hg2_4 & Hf2_4 & Hfr4); try reflexivity; try assumption.
    { rewrite Hfrf by lia. rewrite Hfrq1 by lia. exact Hf2_3. }
    { rewrite Hfrf by lia. rewrite Hfrq1 by lia. exact Hg2_3. }
    exists h4. split; [| split; assumption].
    apply Hcall.
    + apply (then_lambda_run f1 g2 f2 ok2 None x (Hok2 x eq_refl) fuel new2 f1' hf h4);
        try reflexivity; try assumption.
      rewrite Hfrf by lia. rewrite Hfrq1 by lia. exact Hf2_3.
    + rewrite Hfr4 by lia. exact Hf1f.
    + rewrite Hfr4 by lia. rewrite Hfrf by lia. exact Hg1q.
  - (* [g1] failed *)
    destruct (then_lambda_gives_up fuel f2 f1 ok2 new2 f1' hf)
      as (msg & component & Hm & Etl); try reflexivity.
    { rewrite Hfrf by lia. rewrite Hfrq1 by lia. exact Hf2_3. }
    { exact Hf1f. }
    { apply resolved_future_ok, effect_of_fits. }
    simpl in Hm. destruct Hm as [[= <-] _].
    eexists. split.
    + apply Hcall; [exact Etl | |].
      * rewrite lookup_set_future_ne by lia. exact Hf1f.
      * rewrite lookup_set_future_ne by lia. simpl. rewrite Hfrf by lia. exact Hg1q.
    + eexists. split.
      * eapply lookup_set_future_eq. simpl. rewrite Hfrf by lia.
        rewrite Hfrq1 by lia. exact Hf2_3.
      * split; [reflexivity |]. unfold failure_reason. simpl. now rewrite !c_str_idem.
  - (* [g1] cancelled *)
    destruct (then_lambda_gives_up fuel f2 f1 ok2 new2 f1' hf)
      as (msg & component & Hm & Etl); try reflexivity.
    { rewrite Hfrf by lia. rewrite Hfrq1 by lia. exact Hf2_3. }
    { exact Hf1f. }
    { apply resolved_future_ok, effect_of_fits. }
    simpl in Hm. destruct Hm as [[= <-] _].
    eexists. split.
    + apply Hcall; [exact Etl | |].
      * rewrite lookup_set_future_ne by lia. exact Hf1f.
      * rewrite lookup_set_future_ne by lia. simpl. rewrite Hfrf by lia. exact Hg1q.
    + eexists. split.
      * eapply lookup_set_future_eq. simpl. rewrite Hfrf by lia.
        rewrite Hfrq1 by lia. exact Hf2_3.
      * split; reflexivity.
Qed.

Lemma in_three_0 : 0 ∈ [0; 1; 2].
Proof. apply elem_of_cons. left. reflexivity. Defined.

Lemma in_three_1 : 1 ∈ [0; 1; 2].
Proof. apply elem_of_cons. right. apply elem_of_cons. left. reflexivity. Defined.

Lemma in_three_2 : 2 ∈ [0; 1; 2].
Proof. do 2 (apply elem_of_cons; right). apply elem_of_cons. left. reflexivity. Defined.

Lemma then_chains_compose_witness :
  exists h1 h2 h3 h4,
    then_ (run_task 2) 0 (fun _ => returns 1) None three_pending = Normal 3 h1 /\
    then_ (run_task 2) 3 (fun _ => returns 2) None h1 = Normal 4 h2 /\
    done (run_task 2) 0 5%Z h2 = Normal tt h3 /\
    resolve (run_task 2) 1 (by_fail "boom" unknown) h3 = Normal tt h4 /\
    exists out,
      futures h4 !! 4 = Some out /\
      state_ out = state.failed /\ failure_reason out = Returns "boom".
Proof.
  apply (then_chains_compose 0 three_pending 0 1 2 5%Z (by_fail "boom" unknown)
           (fun _ => returns 1) (fun _ => returns 2)).
  - discriminate.
  - discriminate.
  - discriminate.
  - exact (proj1 (three_pending_plain 0 in_three_0)).
  - reflexivity.
  - exact (proj1 (three_pending_plain 1 in_three_1)).
  - reflexivity.
  - exact (proj1 (three_pending_plain 2 in_three_2)).
  - reflexivity.
  - reflexivity.
  - intros x. discriminate.
Defined.
